(** * Tetris (src/script.js): the game core, embedded and verified

    The development follows the source file top-down: the constants
    ([COLS], [ROWS], [TETROS], [KICKS]), then the classes [Bag], [Piece],
    [Board] and [Game] as modules, with [rotateMatrix] ahead of [Game].
    JavaScript numbers that hold integers are [Z]; time stamps and the
    advisory render scalars are rationals [Q], the auto-repeat timer being
    rounded to binary64 at each assignment; arrays are lists, read with
    [!!] and written with [<[_:=_]>], with what JavaScript does out of range
    written out at every store.  Canvas drawing, the HUD and the key handlers are not modelled. *)

From stdpp Require Import gmap strings list pretty.
From Stdlib Require Import QArith Qround Qminmax Qabs Qpower Lqa.

Open Scope Z_scope.

(** ** Outcomes of a call

    A method either completes, or throws a [TypeError] (a property read on
    [undefined]), or leaves the data model used here: a store that lands
    outside the elements of an array (JavaScript grows the array and leaves
    holes, or adds a stray property) or an [undefined] element entering a
    list of kinds.  Loops that the source does not bound run on fuel. *)

Inductive outcome (A : Type) : Type :=
| Ret (a : A)
| TypeError
| Malformed
| OutOfFuel.

Arguments Ret {A} a.
Arguments TypeError {A}.
Arguments Malformed {A}.
Arguments OutOfFuel {A}.

#[global] Instance outcome_ret : MRet outcome := fun A a => Ret a.

#[global] Instance outcome_bind : MBind outcome := fun A B f m =>
  match m with
  | Ret a => f a
  | TypeError => TypeError
  | Malformed => Malformed
  | OutOfFuel => OutOfFuel
  end.

(** ** Constants *)

Definition COLS : Z := 10.
Definition ROWS : Z := 20.

Definition DAS : Q := 150.
Definition ARR : Q := 40.

(** The seven tetromino kinds, the property names of [TETROS]. *)
Inductive Kind : Type := kS | kZ | kL | kJ | kT | kO | kI.

#[global] Instance Kind_eq_dec : EqDecision Kind.
Proof. solve_decision. Defined.

(** A shape matrix holds the numbers 0 and 1 and is read through
    JavaScript truthiness. *)
Definition truthy (v : Z) : bool := negb (v =? 0).

Definition TETROS (k : Kind) : list (list Z) :=
  match k with
  | kS => [[0;1;1];
           [1;1;0];
           [0;0;0]]
  | kZ => [[1;1;0];
           [0;1;1];
           [0;0;0]]
  | kL => [[1;0;0];
           [1;1;1];
           [0;0;0]]
  | kJ => [[0;0;1];
           [1;1;1];
           [0;0;0]]
  | kT => [[0;1;0];
           [1;1;1];
           [0;0;0]]
  | kO => [[1;1];
           [1;1]]
  | kI => [[0;0;0;0];
           [1;1;1;1];
           [0;0;0;0];
           [0;0;0;0]]
  end.

(** [KICKS.default] and [KICKS.I]: objects keyed by the strings
    ["from>to"]. *)
Definition KICKS_default : gmap string (list (Z * Z)) :=
  list_to_map
    [ ("0>1", [(0,0);(-1,0);(-1, 1);(0,-2);(-1,-2)]);
      ("1>0", [(0,0);( 1,0);( 1,-1);(0, 2);( 1, 2)]);
      ("1>2", [(0,0);( 1,0);( 1,-1);(0, 2);( 1, 2)]);
      ("2>1", [(0,0);(-1,0);(-1, 1);(0,-2);(-1,-2)]);
      ("2>3", [(0,0);( 1,0);( 1, 1);(0,-2);( 1,-2)]);
      ("3>2", [(0,0);(-1,0);(-1,-1);(0, 2);(-1, 2)]);
      ("3>0", [(0,0);(-1,0);(-1,-1);(0, 2);(-1, 2)]);
      ("0>3", [(0,0);( 1,0);( 1, 1);(0,-2);( 1,-2)]) ].

Definition KICKS_I : gmap string (list (Z * Z)) :=
  list_to_map
    [ ("0>1", [(0,0);(-2,0);( 1,0);(-2,-1);( 1, 2)]);
      ("1>0", [(0,0);( 2,0);(-1,0);( 2, 1);(-1,-2)]);
      ("1>2", [(0,0);(-1,0);( 2,0);(-1, 2);( 2,-1)]);
      ("2>1", [(0,0);( 1,0);(-2,0);( 1,-2);(-2, 1)]);
      ("2>3", [(0,0);( 2,0);(-1,0);( 2, 1);(-1,-2)]);
      ("3>2", [(0,0);(-2,0);( 1,0);(-2,-1);( 1, 2)]);
      ("3>0", [(0,0);( 1,0);(-2,0);( 1,-2);(-2, 1)]);
      ("0>3", [(0,0);(-1,0);( 2,0);(-1, 2);( 2,-1)]) ].

(** ** class Bag

    [Math.random()] is a sequence [rand] of rationals, of which [t] have
    been consumed; every call that draws returns the new count. *)
Module Bag.

Definition fresh : list Kind := [kS; kZ; kL; kJ; kT; kO; kI].

(** The Fisher-Yates loop, [for (i = length - 1; i > 0; i--)], with
    [j = Math.floor(Math.random() * (i + 1))] and the destructuring swap
    [pool[i] = old pool[j]; pool[j] = old pool[i]].  Reading [pool[j]]
    outside the array would put [undefined] into the pool. *)
Fixpoint shuffle (rand : nat → Q) (i : nat) (pool : list Kind) (t : nat)
  : outcome (list Kind * nat) :=
  match i with
  | O => Ret (pool, t)
  | S i' =>
      let j := Qfloor (rand t * inject_Z (Z.of_nat i + 1)) in
      match pool !! i, (if 0 <=? j then pool !! Z.to_nat j else None) with
      | Some a, Some b =>
          shuffle rand i' (<[Z.to_nat j := a]> (<[i := b]> pool)) (S t)
      | _, _ => Malformed
      end
  end.

(** [next()]: refill and shuffle when the pool is empty, then [pop()]. *)
Definition next (rand : nat → Q) (pool : list Kind) (t : nat)
  : outcome (Kind * list Kind * nat) :=
  '(pool1, t1) ←
    (if (length pool =? 0)%nat
     then shuffle rand (length fresh - 1) fresh t
     else Ret (pool, t));
  match last pool1 with
  | Some k => Ret (k, removelast pool1, t1)
  | None => Malformed
  end.

(** [n] consecutive calls of [next()], results in call order. *)
Fixpoint draw (rand : nat → Q) (n : nat) (pool : list Kind) (t : nat)
  : outcome (list Kind * list Kind * nat) :=
  match n with
  | O => Ret ([], pool, t)
  | S n' =>
      '(k, pool1, t1) ← next rand pool t;
      '(ks, pool2, t2) ← draw rand n' pool1 t1;
      Ret (k :: ks, pool2, t2)
  end.

End Bag.

(** ** class Piece *)
Module Piece.

Record t : Type := mk {
  type : Kind;
  matrix : list (list Z);
  x : Z;
  y : Z;
  rot : Z;
  locked : bool
}.

(** [new Piece(type)] *)
Definition new (k : Kind) : t :=
  {| type := k; matrix := TETROS k; x := 3; y := 0; rot := 0;
     locked := false |}.

End Piece.

(** ** class Board

    A grid cell is the number 0 or the kind that filled it.  The fields
    [width] and [height] are initialised to [COLS] and [ROWS] and never
    assigned, so a board is its [grid]. *)
Inductive Cell : Type := Empty | Block (k : Kind).

Definition filled (c : Cell) : bool :=
  match c with Empty => false | Block _ => true end.

Module Board.

Definition width : Z := COLS.
Definition height : Z := ROWS.

(** [Array.from({length: ROWS}, () => Array(COLS).fill(0))] *)
Definition init : list (list Cell) :=
  replicate (Z.to_nat ROWS) (replicate (Z.to_nat COLS) Empty).

(** [row.every(v => v)] *)
Definition every (row : list Cell) : bool := forallb filled row.

(** The loop of [clearLines()], from row [y] with [cleared] rows counted
    so far.  After a removal [y++] and the loop's [y--] leave [y] where
    it was. *)
Fixpoint clearLines_loop (fuel : nat) (grid : list (list Cell))
    (y cleared : Z) : outcome (Z * list (list Cell)) :=
  match fuel with
  | O => OutOfFuel
  | S fuel' =>
      if y >=? 0 then
        match grid !! Z.to_nat y with
        | None => TypeError
        | Some row =>
            if every row then
              let spliced := delete (Z.to_nat y) grid in
              let shifted := replicate (Z.to_nat width) Empty :: spliced in
              clearLines_loop fuel' shifted (y + 1 - 1) (cleared + 1)
            else clearLines_loop fuel' grid (y - 1) cleared
        end
      else Ret (cleared, grid)
  end.

Definition clearLines (fuel : nat) (grid : list (list Cell))
  : outcome (Z * list (list Cell)) :=
  clearLines_loop fuel grid (height - 1) 0.

(** [this.grid[ny]?.[nx]] as a condition, for [ny >= 0] and [nx >= 0]. *)
Definition occupied (grid : list (list Cell)) (ny nx : Z) : bool :=
  match grid !! Z.to_nat ny with
  | Some row =>
      match row !! Z.to_nat nx with
      | Some c => filled c
      | None => false
      end
  | None => false
  end.

(** The inner loop of [collision], over the cells of matrix row [y] from
    column [x] on. *)
Fixpoint collision_cells (grid : list (list Cell)) (p : Piece.t)
    (offX offY y : Z) (row : list Z) (x : Z) : bool :=
  match row with
  | [] => false
  | v :: rest =>
      if negb (truthy v) then collision_cells grid p offX offY y rest (x + 1)
      else
        let nx := Piece.x p + x + offX in
        let ny := Piece.y p + y + offY in
        if (nx <? 0) || (nx >=? width) || (ny >=? height) then true
        else if (ny >=? 0) && occupied grid ny nx then true
        else collision_cells grid p offX offY y rest (x + 1)
  end.

(** The outer loop, over the matrix rows from row [y] on. *)
Fixpoint collision_rows (grid : list (list Cell)) (p : Piece.t)
    (offX offY : Z) (mat : list (list Z)) (y : Z) : bool :=
  match mat with
  | [] => false
  | row :: rest =>
      if collision_cells grid p offX offY y row 0 then true
      else collision_rows grid p offX offY rest (y + 1)
  end.

(** [collision(piece, offX, offY, mat)]; callers that omit [mat] pass
    [piece.matrix]. *)
Definition collision (grid : list (list Cell)) (p : Piece.t)
    (offX offY : Z) (mat : list (list Z)) : bool :=
  collision_rows grid p offX offY mat 0.

(** The store [this.grid[r][c] = k], reached only with [r >= 0]. *)
Definition store (grid : list (list Cell)) (r c : Z) (k : Kind)
  : outcome (list (list Cell)) :=
  match grid !! Z.to_nat r with
  | None => TypeError
  | Some row =>
      if (0 <=? c) && (c <? Z.of_nat (length row))
      then Ret (<[Z.to_nat r := <[Z.to_nat c := Block k]> row]> grid)
      else Malformed
  end.

(** [row.forEach((v, x) => ...)] of [merge], from column [x] on. *)
Fixpoint merge_cells (grid : list (list Cell)) (p : Piece.t)
    (y : Z) (row : list Z) (x : Z) : outcome (list (list Cell)) :=
  match row with
  | [] => Ret grid
  | v :: rest =>
      grid1 ← (if truthy v && (Piece.y p + y >=? 0)
               then store grid (Piece.y p + y) (Piece.x p + x) (Piece.type p)
               else Ret grid);
      merge_cells grid1 p y rest (x + 1)
  end.

(** [piece.matrix.forEach((row, y) => ...)], from row [y] on. *)
Fixpoint merge_rows (grid : list (list Cell)) (p : Piece.t)
    (mat : list (list Z)) (y : Z) : outcome (list (list Cell)) :=
  match mat with
  | [] => Ret grid
  | row :: rest =>
      grid1 ← merge_cells grid p y row 0;
      merge_rows grid1 p rest (y + 1)
  end.

(** [merge(piece)]: the piece is marked locked and its cells are written;
    the result is the new grid and the mutated piece. *)
Definition merge (grid : list (list Cell)) (p : Piece.t)
  : outcome (list (list Cell) * Piece.t) :=
  let p1 := Piece.mk (Piece.type p) (Piece.matrix p) (Piece.x p) (Piece.y p)
                     (Piece.rot p) true in
  grid1 ← merge_rows grid p1 (Piece.matrix p1) 0;
  Ret (grid1, p1).

End Board.


(** ** function rotateMatrix

    [res] starts as [m.length] rows of [m[0].length] zeros ([m[0]] is only
    read when there is a row to build).  A store [res[r][c] = v] throws when
    [res[r]] is [undefined] and would grow the row when [c] is past its
    end. *)
Definition rotate_store (res : list (list Z)) (r c v : Z)
  : outcome (list (list Z)) :=
  if r <? 0 then TypeError
  else
    match res !! Z.to_nat r with
    | None => TypeError
    | Some row =>
        if (0 <=? c) && (c <? Z.of_nat (length row))
        then Ret (<[Z.to_nat r := <[Z.to_nat c := v]> row]> res)
        else Malformed
    end.

Fixpoint rotate_cells (dir N W y : Z) (res : list (list Z))
    (row : list Z) (x : Z) : outcome (list (list Z)) :=
  match row with
  | [] => Ret res
  | v :: rest =>
      res1 ← (if dir >? 0
              then rotate_store res x (N - 1 - y) v
              else rotate_store res (W - 1 - x) y v);
      rotate_cells dir N W y res1 rest (x + 1)
  end.

Fixpoint rotate_rows (dir N W : Z) (res : list (list Z))
    (m : list (list Z)) (y : Z) : outcome (list (list Z)) :=
  match m with
  | [] => Ret res
  | row :: rest =>
      res1 ← rotate_cells dir N W y res row 0;
      rotate_rows dir N W res1 rest (y + 1)
  end.

Definition rotateMatrix (m : list (list Z)) (dir : Z)
  : outcome (list (list Z)) :=
  let N := Z.of_nat (length m) in
  let W := match m with [] => 0 | r0 :: _ => Z.of_nat (length r0) end in
  let res := replicate (length m) (replicate (Z.to_nat W) 0) in
  rotate_rows dir N W res m 0.

(** What a call of [rotate] returns: [return;] gives [undefined]. *)
Inductive jsval : Type := Undefined | Bool (b : bool).

(** The global [INPUT] flags sampled by [update]. *)
Record Input : Type := { left : bool; right : bool; down : bool }.

(** Comparisons of time stamps: [a >= b] and [a > b]. *)
Definition Qge_bool (a b : Q) : bool := Qle_bool b a.
Definition Qgt_bool (a b : Q) : bool := negb (Qle_bool a b).

(** ** Binary64 rounding

    A JavaScript number is a binary64 float.  The model keeps times as
    rationals, and exact where a sum is only compared with a threshold and
    reset.  The auto-repeat timer is another matter: the [while] loop of
    [update] ends only if [arrTimer -= ARR] really lowers the timer, and
    from 2^59 on the source's subtraction is absorbed.  The two
    assignments to [arrTimer] are therefore rounded as the source rounds
    them: to the nearest multiple of the unit in the last place of a
    53-bit significand, ties to the even multiple, the exponent of that
    unit being at least -1074 as for subnormal numbers.  [Infinity] and
    [NaN] are not values of the model. *)

(** [floor (log2 |x|)], for [x] other than 0. *)
Definition Qlog2 (x : Q) : Z :=
  let k := Z.log2 (Z.abs (Qnum x)) - Z.log2 (Zpos (Qden x)) in
  if Qle_bool (Qpower 2 k) (Qabs x) then k else k - 1.

(** The nearest integer, the even one of two that are equally near. *)
Definition rne (y : Q) : Z :=
  let f := Qfloor y in
  match (y - inject_Z f ?= 1 # 2)%Q with
  | Lt => f
  | Gt => f + 1
  | Eq => if Z.even f then f else f + 1
  end.

Definition round64 (x : Q) : Q :=
  if Qeq_bool x 0 then 0%Q
  else
    let e := Z.max (-1074) (Qlog2 x - 52) in
    Qred (inject_Z (rne (x / Qpower 2 e)) * Qpower 2 e).

(** ** class Game

    [current] is never null after construction, so it is a piece. *)
Module Game.

Record t : Type := mk {
  board : list (list Cell);
  bag : list Kind;
  current : Piece.t;
  nextQ : list Piece.t;
  hold : option Piece.t;
  canHold : bool;
  score : Z;
  lines : Z;
  level : Z;
  dropInterval : Z;
  elapsed : Q;
  paused : bool;
  over : bool;
  lockDelay : Q;
  lockTimer : Q;
  grounded : bool;
  clearedRows : list Z;
  flashMs : Q;
  shake : Q;
  dasTimer : Q;
  arrTimer : Q;
  lastDir : Z
}.

Definition set_board (v : list (list Cell)) (g : t) : t :=
  mk v (bag g) (current g) (nextQ g) (hold g) (canHold g) (score g)
     (lines g) (level g) (dropInterval g) (elapsed g) (paused g) (over
     g) (lockDelay g) (lockTimer g) (grounded g) (clearedRows g)
     (flashMs g) (shake g) (dasTimer g) (arrTimer g) (lastDir g).
Definition set_bag (v : list Kind) (g : t) : t :=
  mk (board g) v (current g) (nextQ g) (hold g) (canHold g) (score g)
     (lines g) (level g) (dropInterval g) (elapsed g) (paused g) (over
     g) (lockDelay g) (lockTimer g) (grounded g) (clearedRows g)
     (flashMs g) (shake g) (dasTimer g) (arrTimer g) (lastDir g).
Definition set_current (v : Piece.t) (g : t) : t :=
  mk (board g) (bag g) v (nextQ g) (hold g) (canHold g) (score g) (lines
     g) (level g) (dropInterval g) (elapsed g) (paused g) (over g)
     (lockDelay g) (lockTimer g) (grounded g) (clearedRows g) (flashMs
     g) (shake g) (dasTimer g) (arrTimer g) (lastDir g).
Definition set_nextQ (v : list Piece.t) (g : t) : t :=
  mk (board g) (bag g) (current g) v (hold g) (canHold g) (score g)
     (lines g) (level g) (dropInterval g) (elapsed g) (paused g) (over
     g) (lockDelay g) (lockTimer g) (grounded g) (clearedRows g)
     (flashMs g) (shake g) (dasTimer g) (arrTimer g) (lastDir g).
Definition set_canHold (v : bool) (g : t) : t :=
  mk (board g) (bag g) (current g) (nextQ g) (hold g) v (score g) (lines
     g) (level g) (dropInterval g) (elapsed g) (paused g) (over g)
     (lockDelay g) (lockTimer g) (grounded g) (clearedRows g) (flashMs
     g) (shake g) (dasTimer g) (arrTimer g) (lastDir g).
Definition set_score (v : Z) (g : t) : t :=
  mk (board g) (bag g) (current g) (nextQ g) (hold g) (canHold g) v
     (lines g) (level g) (dropInterval g) (elapsed g) (paused g) (over
     g) (lockDelay g) (lockTimer g) (grounded g) (clearedRows g)
     (flashMs g) (shake g) (dasTimer g) (arrTimer g) (lastDir g).
Definition set_lines (v : Z) (g : t) : t :=
  mk (board g) (bag g) (current g) (nextQ g) (hold g) (canHold g) (score
     g) v (level g) (dropInterval g) (elapsed g) (paused g) (over g)
     (lockDelay g) (lockTimer g) (grounded g) (clearedRows g) (flashMs
     g) (shake g) (dasTimer g) (arrTimer g) (lastDir g).
Definition set_level (v : Z) (g : t) : t :=
  mk (board g) (bag g) (current g) (nextQ g) (hold g) (canHold g) (score
     g) (lines g) v (dropInterval g) (elapsed g) (paused g) (over g)
     (lockDelay g) (lockTimer g) (grounded g) (clearedRows g) (flashMs
     g) (shake g) (dasTimer g) (arrTimer g) (lastDir g).
Definition set_dropInterval (v : Z) (g : t) : t :=
  mk (board g) (bag g) (current g) (nextQ g) (hold g) (canHold g) (score
     g) (lines g) (level g) v (elapsed g) (paused g) (over g) (lockDelay
     g) (lockTimer g) (grounded g) (clearedRows g) (flashMs g) (shake g)
     (dasTimer g) (arrTimer g) (lastDir g).
Definition set_elapsed (v : Q) (g : t) : t :=
  mk (board g) (bag g) (current g) (nextQ g) (hold g) (canHold g) (score
     g) (lines g) (level g) (dropInterval g) v (paused g) (over g)
     (lockDelay g) (lockTimer g) (grounded g) (clearedRows g) (flashMs
     g) (shake g) (dasTimer g) (arrTimer g) (lastDir g).
Definition set_paused (v : bool) (g : t) : t :=
  mk (board g) (bag g) (current g) (nextQ g) (hold g) (canHold g) (score
     g) (lines g) (level g) (dropInterval g) (elapsed g) v (over g)
     (lockDelay g) (lockTimer g) (grounded g) (clearedRows g) (flashMs
     g) (shake g) (dasTimer g) (arrTimer g) (lastDir g).
Definition set_over (v : bool) (g : t) : t :=
  mk (board g) (bag g) (current g) (nextQ g) (hold g) (canHold g) (score
     g) (lines g) (level g) (dropInterval g) (elapsed g) (paused g) v
     (lockDelay g) (lockTimer g) (grounded g) (clearedRows g) (flashMs
     g) (shake g) (dasTimer g) (arrTimer g) (lastDir g).
Definition set_lockTimer (v : Q) (g : t) : t :=
  mk (board g) (bag g) (current g) (nextQ g) (hold g) (canHold g) (score
     g) (lines g) (level g) (dropInterval g) (elapsed g) (paused g)
     (over g) (lockDelay g) v (grounded g) (clearedRows g) (flashMs g)
     (shake g) (dasTimer g) (arrTimer g) (lastDir g).
Definition set_grounded (v : bool) (g : t) : t :=
  mk (board g) (bag g) (current g) (nextQ g) (hold g) (canHold g) (score
     g) (lines g) (level g) (dropInterval g) (elapsed g) (paused g)
     (over g) (lockDelay g) (lockTimer g) v (clearedRows g) (flashMs g)
     (shake g) (dasTimer g) (arrTimer g) (lastDir g).
Definition set_clearedRows (v : list Z) (g : t) : t :=
  mk (board g) (bag g) (current g) (nextQ g) (hold g) (canHold g) (score
     g) (lines g) (level g) (dropInterval g) (elapsed g) (paused g)
     (over g) (lockDelay g) (lockTimer g) (grounded g) v (flashMs g)
     (shake g) (dasTimer g) (arrTimer g) (lastDir g).
Definition set_flashMs (v : Q) (g : t) : t :=
  mk (board g) (bag g) (current g) (nextQ g) (hold g) (canHold g) (score
     g) (lines g) (level g) (dropInterval g) (elapsed g) (paused g)
     (over g) (lockDelay g) (lockTimer g) (grounded g) (clearedRows g) v
     (shake g) (dasTimer g) (arrTimer g) (lastDir g).
Definition set_shake (v : Q) (g : t) : t :=
  mk (board g) (bag g) (current g) (nextQ g) (hold g) (canHold g) (score
     g) (lines g) (level g) (dropInterval g) (elapsed g) (paused g)
     (over g) (lockDelay g) (lockTimer g) (grounded g) (clearedRows g)
     (flashMs g) v (dasTimer g) (arrTimer g) (lastDir g).
Definition set_dasTimer (v : Q) (g : t) : t :=
  mk (board g) (bag g) (current g) (nextQ g) (hold g) (canHold g) (score
     g) (lines g) (level g) (dropInterval g) (elapsed g) (paused g)
     (over g) (lockDelay g) (lockTimer g) (grounded g) (clearedRows g)
     (flashMs g) (shake g) v (arrTimer g) (lastDir g).
Definition set_arrTimer (v : Q) (g : t) : t :=
  mk (board g) (bag g) (current g) (nextQ g) (hold g) (canHold g) (score
     g) (lines g) (level g) (dropInterval g) (elapsed g) (paused g)
     (over g) (lockDelay g) (lockTimer g) (grounded g) (clearedRows g)
     (flashMs g) (shake g) (dasTimer g) v (lastDir g).
Definition set_lastDir (v : Z) (g : t) : t :=
  mk (board g) (bag g) (current g) (nextQ g) (hold g) (canHold g) (score
     g) (lines g) (level g) (dropInterval g) (elapsed g) (paused g)
     (over g) (lockDelay g) (lockTimer g) (grounded g) (clearedRows g)
     (flashMs g) (shake g) (dasTimer g) (arrTimer g) v.

(** The piece with [locked] set. *)
Definition lock (p : Piece.t) : Piece.t :=
  Piece.mk (Piece.type p) (Piece.matrix p) (Piece.x p) (Piece.y p)
    (Piece.rot p) true.

(** The piece moved by [(dx, dy)]. *)
Definition translate (p : Piece.t) (dx dy : Z) : Piece.t :=
  Piece.mk (Piece.type p) (Piece.matrix p) (Piece.x p + dx) (Piece.y p + dy)
    (Piece.rot p) (Piece.locked p).

(** [spawnIfNeeded()]: on an empty queue [shift()] gives [undefined] and
    the assignment to [this.current.x] throws. *)
Definition spawnIfNeeded (rand : nat → Q) (g : t) (u : nat)
  : outcome (t * nat) :=
  if Piece.locked (current g) then
    match nextQ g with
    | [] => TypeError
    | p :: rest =>
        let cur :=
          Piece.mk (Piece.type p) (Piece.matrix p) 3
            (- Z.of_nat (length (Piece.matrix p)) + 1) 0 false in
        let g := set_current cur g in
        '(k, pool, u1) ← Bag.next rand (bag g) u;
        let g := set_bag pool g in
        let g := set_nextQ (rest ++ [Piece.new k]) g in
        let g := set_canHold true g in
        let g := set_lockTimer 0%Q g in
        let g := set_grounded false g in
        if Board.collision (board g) (current g) 0 0
             (Piece.matrix (current g))
        then Ret (set_paused true (set_over true g), u1)
        else Ret (g, u1)
    end
  else Ret (g, u).

(** The field initialisers and the constructor. *)
Definition new (rand : nat → Q) (u : nat) : outcome (t * nat) :=
  '(k0, pool, u) ← Bag.next rand [] u;
  '(k1, pool, u) ← Bag.next rand pool u;
  '(k2, pool, u) ← Bag.next rand pool u;
  let g :=
    mk Board.init pool (Piece.new k0) [Piece.new k1; Piece.new k2] None true
       0 0 1 1000 0%Q false false 500%Q 0%Q false [] 0%Q 0%Q 0%Q 0%Q 0 in
  spawnIfNeeded rand g u.

Definition setLevelByLines (g : t) : t :=
  let g := set_level (Z.max 1 (lines g / 10 + 1)) g in
  set_dropInterval (Z.max 80 (1000 - (level g - 1) * 70)) g.

(** The template literal [`${from}>${to}`]. *)
Definition kick_key (from to : Z) : string :=
  pretty from +:+ ">" +:+ pretty to.

(** [for (const [dx, dy] of table)] in [rotate]. *)
Fixpoint rotate_kicks (g : t) (rotated : list (list Z)) (to : Z)
    (table : list (Z * Z)) : jsval * t :=
  match table with
  | [] => (Bool false, g)
  | (dx, dy) :: rest =>
      if negb (Board.collision (board g) (current g) dx dy rotated) then
        let c := current g in
        let g :=
          set_current
            (Piece.mk (Piece.type c) rotated (Piece.x c + dx)
               (Piece.y c + dy) to (Piece.locked c)) g in
        let g :=
          if negb (Board.collision (board g) (current g) 0 1
                     (Piece.matrix (current g)))
          then set_lockTimer 0%Q (set_grounded false g)
          else g in
        (Bool true, g)
      else rotate_kicks g rotated to rest
  end.

Definition rotate (g : t) (dir : Z) : outcome (jsval * t) :=
  if decide (Piece.type (current g) = kO) then Ret (Undefined, g)
  else
    let from := Piece.rot (current g) in
    let to := Z.rem (from + (if dir >? 0 then 1 else 3)) 4 in
    rotated ← rotateMatrix (Piece.matrix (current g)) dir;
    let key := kick_key from to in
    let table :=
      default [(0, 0)]
        ((if decide (Piece.type (current g) = kI)
          then KICKS_I else KICKS_default) !! key) in
    Ret (rotate_kicks g rotated to table).

Definition move (g : t) (dx : Z) : t :=
  if negb (Board.collision (board g) (current g) dx 0
             (Piece.matrix (current g)))
  then
    let g := set_current (translate (current g) dx 0) g in
    if negb (Board.collision (board g) (current g) 0 1
               (Piece.matrix (current g)))
    then set_lockTimer 0%Q (set_grounded false g)
    else g
  else g.

Definition softDrop (g : t) : bool * t :=
  if negb (Board.collision (board g) (current g) 0 1
             (Piece.matrix (current g)))
  then
    let g := set_current (translate (current g) 0 1) g in
    let g := set_score (score g + 1) g in
    let g := set_grounded false g in
    let g := set_lockTimer 0%Q g in
    (true, g)
  else (false, set_grounded true g).

Definition lockDown (rand : nat → Q) (fuel : nat) (g : t) (u : nat)
  : outcome (t * nat) :=
  '(grid1, cur1) ← Board.merge (board g) (current g);
  '(cleared, grid2) ← Board.clearLines fuel grid1;
  let g := set_current cur1 (set_board grid2 g) in
  let g :=
    if truthy cleared then
      let base := default 0 ([0; 100; 300; 500; 800] !! Z.to_nat cleared) in
      let g := set_score (score g + base * level g) g in
      let g := set_lines (lines g + cleared) g in
      let g := setLevelByLines g in
      let g := set_clearedRows [] g in
      let g := set_flashMs 220%Q g in
      set_shake (Qmin 0.6 (0.25 + inject_Z cleared * 0.12)) g
    else set_shake (Qmax (shake g) 0.18) g in
  let g := set_current (lock (current g)) g in
  '(g, u) ← spawnIfNeeded rand g u;
  Ret (set_grounded false (set_lockTimer 0%Q g), u).

(** [while (!collision(current, 0, 1)) { current.y++; dist++; }] *)
Fixpoint hardDrop_loop (fuel : nat) (g : t) (dist : Z) : outcome (t * Z) :=
  match fuel with
  | O => OutOfFuel
  | S fuel' =>
      if negb (Board.collision (board g) (current g) 0 1
                 (Piece.matrix (current g)))
      then hardDrop_loop fuel' (set_current (translate (current g) 0 1) g)
             (dist + 1)
      else Ret (g, dist)
  end.


(** [update(delta)], in the order of its body: the clock and the two
    decays, the gravity step, the horizontal repeat, the lock delay. *)
Definition update_timers (g : t) (delta : Q) : t :=
  let g := set_elapsed (elapsed g + delta)%Q g in
  let g :=
    if Qgt_bool (flashMs g) 0
    then set_flashMs (Qmax 0 (flashMs g - delta)) g else g in
  if Qgt_bool (shake g) 0
  then set_shake (Qmax 0 (shake g - delta * 0.0035)) g else g.

Definition update_gravity (g : t) : t :=
  if Qge_bool (elapsed g) (inject_Z (dropInterval g)) then
    let g := set_elapsed 0%Q g in
    let '(moved, g) := softDrop g in
    if negb moved then set_grounded true g else g
  else g.

(** [while (this.arrTimer >= ARR) { this.move(dir); this.arrTimer -= ARR; }],
    the difference rounded to binary64. *)
Fixpoint update_repeat (fuel : nat) (g : t) (dir : Z) : outcome t :=
  match fuel with
  | O => OutOfFuel
  | S fuel' =>
      if Qge_bool (arrTimer g) ARR then
        let g := move g dir in
        update_repeat fuel' (set_arrTimer (round64 (arrTimer g - ARR)) g) dir
      else Ret g
  end.

Definition update_shift (fuel : nat) (inp : Input) (g : t) (delta : Q)
  : outcome t :=
  let dir := (if left inp then -1 else 0) + (if right inp then 1 else 0) in
  if negb (dir =? 0) then
    if negb (lastDir g =? dir) then
      let g := set_lastDir dir g in
      let g := set_arrTimer 0%Q (set_dasTimer 0%Q g) in
      Ret (move g dir)
    else
      let g := set_dasTimer (dasTimer g + delta)%Q g in
      if Qge_bool (dasTimer g) DAS then
        update_repeat fuel (set_arrTimer (round64 (arrTimer g + delta)) g) dir
      else Ret g
  else Ret (set_arrTimer 0%Q (set_dasTimer 0%Q (set_lastDir 0 g))).

Definition update_lock (rand : nat → Q) (fuel : nat) (g : t) (delta : Q)
    (u : nat) : outcome (t * nat) :=
  if grounded g then
    let g := set_lockTimer (lockTimer g + delta)%Q g in
    if negb (Board.collision (board g) (current g) 0 1
               (Piece.matrix (current g)))
    then Ret (set_lockTimer 0%Q (set_grounded false g), u)
    else if Qge_bool (lockTimer g) (lockDelay g) then
      lockDown rand fuel (set_grounded false (set_lockTimer 0%Q g)) u
    else Ret (g, u)
  else Ret (g, u).

Definition update (rand : nat → Q) (fuel : nat) (inp : Input) (g : t)
    (delta : Q) (u : nat) : outcome (t * nat) :=
  if paused g || over g then Ret (g, u)
  else
    let g := update_timers g delta in
    let g := update_gravity g in
    g ← update_shift fuel inp g delta;
    update_lock rand fuel g delta u.

(** [holdPiece()].  With an empty queue [shift()] gives [undefined]; the
    queue is still refilled, and the assignment to [this.current.x] then
    throws. *)
Definition set_hold (v : option Piece.t) (g : t) : t :=
  mk (board g) (bag g) (current g) (nextQ g) v (canHold g) (score g)
     (lines g) (level g) (dropInterval g) (elapsed g) (paused g) (over g)
     (lockDelay g) (lockTimer g) (grounded g) (clearedRows g) (flashMs g)
     (shake g) (dasTimer g) (arrTimer g) (lastDir g).

Definition holdPiece (rand : nat → Q) (g : t) (u : nat) : outcome (t * nat) :=
  if negb (canHold g) then Ret (g, u)
  else
    let g := set_canHold false g in
    let temp := hold g in
    let g := set_hold (Some (Piece.new (Piece.type (current g)))) g in
    '(g, u) ←
      match temp with
      | Some held =>
          Ret (set_current (Piece.new (Piece.type held)) g, u)
      | None =>
          match nextQ g with
          | [] => _ ← Bag.next rand (bag g) u; TypeError
          | p :: rest =>
              let g := set_current p g in
              '(k, pool, u1) ← Bag.next rand (bag g) u;
              let g := set_bag pool g in
              Ret (set_nextQ (rest ++ [Piece.new k]) g, u1)
          end
      end;
    let c := current g in
    let g :=
      set_current
        (Piece.mk (Piece.type c) (Piece.matrix c) 3
           (- Z.of_nat (length (Piece.matrix c)) + 1) 0 false) g in
    let g :=
      if Board.collision (board g) (current g) 0 0
           (Piece.matrix (current g))
      then set_paused true (set_over true g)
      else g in
    Ret (set_grounded false (set_lockTimer 0%Q g), u).

(** [ghostY()]:
    [while (!collision(piece, 0, (gy - piece.y) + 1)) gy++; return gy;] *)
Fixpoint ghostY_loop (fuel : nat) (g : t) (gy : Z) : outcome Z :=
  match fuel with
  | O => OutOfFuel
  | S fuel' =>
      if negb (Board.collision (board g) (current g) 0
                 (gy - Piece.y (current g) + 1) (Piece.matrix (current g)))
      then ghostY_loop fuel' g (gy + 1)
      else Ret gy
  end.

Definition ghostY (fuel : nat) (g : t) : outcome Z :=
  ghostY_loop fuel g (Piece.y (current g)).

End Game.

(** * Specification vocabulary *)

(** A matrix cell at row [y], column [x] holding a truthy value. *)
Definition filled_at (mat : list (list Z)) (y x : nat) : Prop :=
  ∃ row v, mat !! y = Some row ∧ row !! x = Some v ∧ v ≠ 0.

(** The board position [(nx, ny)] is outside [0,10) horizontally, at or
    below the floor, or on the board and occupied. *)
Definition blocked (grid : list (list Cell)) (nx ny : Z) : Prop :=
  nx < 0 ∨ 10 <= nx ∨ 20 <= ny ∨
  (0 <= ny ∧ ∃ row k,
      grid !! Z.to_nat ny = Some row ∧ row !! Z.to_nat nx = Some (Block k)).

(** The row that [clearLines] inserts at the top. *)
Definition empty_row : list Cell := replicate 10 Empty.

(** The rows of a grid that [clearLines] removes, and those it keeps. *)
Definition full_rows (grid : list (list Cell)) : list (list Cell) :=
  List.filter Board.every grid.
Definition kept_rows (grid : list (list Cell)) : list (list Cell) :=
  List.filter (λ row, negb (Board.every row)) grid.

(** The shape of the board: 20 rows of 10 cells. *)
Definition wf_grid (grid : list (list Cell)) : Prop :=
  length grid = 20%nat ∧ Forall (λ row, length row = 10%nat) grid.

(** Every filled cell of the matrix lies inside the columns and above the
    floor when the piece is displaced by [(dx, dy)]. *)
Definition in_bounds (p : Piece.t) (dx dy : Z) (mat : list (list Z)) : Prop :=
  ∀ y x, filled_at mat y x →
    0 <= Piece.x p + Z.of_nat x + dx < 10 ∧ Piece.y p + Z.of_nat y + dy < 20.

(** [Math.random()] returns a value in [0, 1). *)
Definition unit_range (rand : nat → Q) : Prop :=
  ∀ n, (0 <= rand n)%Q ∧ (rand n < 1)%Q.

(** The line-clear score table of [lockDown], [[0,100,300,500,800][n] ?? 0]. *)
Definition line_score (n : nat) : Z :=
  default 0 ([0; 100; 300; 500; 800] !! n).

(** What a game state needs for [lockDown] to run to completion: a board
    of the right shape, the filled cells of the current piece between the
    walls and above the floor, a piece to spawn. *)
Record lockable (g : Game.t) : Prop := {
  lockable_grid : wf_grid (Game.board g);
  lockable_piece :
    in_bounds (Game.current g) 0 0 (Piece.matrix (Game.current g));
  lockable_queue : Game.nextQ g ≠ []
}.

(** A shape matrix with as many columns as rows. *)
Definition square (m : list (list Z)) : Prop :=
  Forall (λ row, length row = length m) m.

(** [n] rows of [n] cells. *)
Definition shaped (n : nat) (res : list (list Z)) : Prop :=
  length res = n ∧ Forall (λ row, length row = n) res.

(** The state after a kick [(dx, dy)] of [rotate] has been applied. *)
Definition kicked (g : Game.t) (rotated : list (list Z)) (to dx dy : Z)
  : Game.t :=
  let c := Game.current g in
  let g1 :=
    Game.set_current
      (Piece.mk (Piece.type c) rotated (Piece.x c + dx) (Piece.y c + dy) to
         (Piece.locked c)) g in
  if Board.collision (Game.board g1) (Game.current g1) 0 1 rotated
  then g1
  else Game.set_lockTimer 0%Q (Game.set_grounded false g1).

(** A piece as [spawnIfNeeded] places it. *)
Definition spawned (k : Kind) : Piece.t :=
  Piece.mk k (TETROS k) 3 (- Z.of_nat (length (TETROS k)) + 1) 0 false.

(** A game right after a spawn of kind [k] on an empty board. *)
Definition opening (k : Kind) : Game.t :=
  Game.mk Board.init [kS; kO; kZ; kT] (spawned k)
    [Piece.new kI; Piece.new kL] None true 0 0 1 1000 0%Q false false
    500%Q 0%Q false [] 0%Q 0%Q 0%Q 0%Q 0.

(** A random source that always returns one half. *)
Definition halves : nat → Q := λ _, (1 # 2)%Q.

(** The grids that [merge] (of a piece that does not collide) and
    [clearLines] produce from the initial grid. *)
Inductive reachable : list (list Cell) → Prop :=
| reach_init : reachable Board.init
| reach_merge grid p grid' p' :
    reachable grid →
    Board.collision grid p 0 0 (Piece.matrix p) = false →
    Board.merge grid p = Ret (grid', p') →
    reachable grid'
| reach_clear grid fuel n grid' :
    reachable grid →
    Board.clearLines fuel grid = Ret (n, grid') →
    reachable grid'.

(** No key held. *)
Definition idle : Input := {| left := false; right := false; down := false |}.

(** The game component of a completed call. *)
Definition final (o : outcome (Game.t * nat)) : option Game.t :=
  match o with Ret (g, _) => Some g | _ => None end.

(** A grid whose two bottom rows lack only columns 4 and 5, and a game
    whose O piece rests in that gap. *)
Definition gap_row : list Cell :=
  replicate 4 (Block kI) ++ [Empty; Empty] ++ replicate 4 (Block kI).

Definition gap_grid : list (list Cell) :=
  replicate 18 (replicate 10 Empty) ++ [gap_row; gap_row].

Definition closing : Game.t :=
  Game.mk gap_grid [kS; kO; kZ; kT] (Piece.mk kO (TETROS kO) 4 18 0 false)
    [Piece.new kI; Piece.new kL] None true 0 0 1 1000 0%Q false false
    500%Q 0%Q false [] 0%Q 0%Q 0%Q 0%Q 0.

(** A grid with two adjacent full rows above a partly filled bottom row. *)
Definition stacked : list (list Cell) :=
  replicate 17 (replicate 10 Empty) ++
  [replicate 10 (Block kS); replicate 10 (Block kZ);
   Block kI :: replicate 9 Empty].

(** The element at row [r], column [c] of a list of rows. *)
Definition cell_at {A} (m : list (list A)) (r c : nat) : option A :=
  m !! r ≫= λ row, row !! c.

(** [kicksFor(kind, from, to)] of the specification (4.2): the offsets of
    the transition [from -> to], found by the pair of orientations and not
    by a string key.  The I kind has a table of its own, the other kinds
    share one; the entries are those of [KICKS], lines 89-112. *)
Definition kicksFor (k : Kind) (from to : Z) : list (Z * Z) :=
  if decide (k = kI) then
    match from, to with
    | 0, 1 => [(0, 0); (-2, 0); (1, 0); (-2, -1); (1, 2)]
    | 1, 0 => [(0, 0); (2, 0); (-1, 0); (2, 1); (-1, -2)]
    | 1, 2 => [(0, 0); (-1, 0); (2, 0); (-1, 2); (2, -1)]
    | 2, 1 => [(0, 0); (1, 0); (-2, 0); (1, -2); (-2, 1)]
    | 2, 3 => [(0, 0); (2, 0); (-1, 0); (2, 1); (-1, -2)]
    | 3, 2 => [(0, 0); (-2, 0); (1, 0); (-2, -1); (1, 2)]
    | 3, 0 => [(0, 0); (1, 0); (-2, 0); (1, -2); (-2, 1)]
    | 0, 3 => [(0, 0); (-1, 0); (2, 0); (-1, 2); (2, -1)]
    | _, _ => []
    end
  else
    match from, to with
    | 0, 1 => [(0, 0); (-1, 0); (-1, 1); (0, -2); (-1, -2)]
    | 1, 0 => [(0, 0); (1, 0); (1, -1); (0, 2); (1, 2)]
    | 1, 2 => [(0, 0); (1, 0); (1, -1); (0, 2); (1, 2)]
    | 2, 1 => [(0, 0); (-1, 0); (-1, 1); (0, -2); (-1, -2)]
    | 2, 3 => [(0, 0); (1, 0); (1, 1); (0, -2); (1, -2)]
    | 3, 2 => [(0, 0); (-1, 0); (-1, -1); (0, 2); (-1, 2)]
    | 3, 0 => [(0, 0); (-1, 0); (-1, -1); (0, 2); (-1, 2)]
    | 0, 3 => [(0, 0); (1, 0); (1, 1); (0, -2); (1, -2)]
    | _, _ => []
    end.

(** A game in which the left key has been held past the auto-shift
    delay. *)
Definition repeating : Game.t :=
  Game.set_lastDir (-1) (Game.set_dasTimer 150%Q (opening kT)).

(** ** Vocabulary of the further properties *)

(** The current piece overlaps nothing and is inside the board. *)
Definition resting (g : Game.t) : Prop :=
  Board.collision (Game.board g) (Game.current g) 0 0
    (Piece.matrix (Game.current g)) = false.

(** Where [rotateMatrix] stores the element read at row [y], column [x] of
    an [n] by [n] matrix: [res[x][n - 1 - y]] clockwise,
    [res[n - 1 - x][y]] counter-clockwise. *)
Definition turned_row (dir : Z) (n x : nat) : nat :=
  if dir >? 0 then x else (n - 1 - x)%nat.

Definition turned_col (dir : Z) (n y : nat) : nat :=
  if dir >? 0 then (n - 1 - y)%nat else y.

(** Column [i] of a matrix row holds a truthy value; row [j], column [i]
    of a matrix does. *)
Definition row_hit (row : list Z) (i : Z) : bool :=
  (0 <=? i) &&
  match row !! Z.to_nat i with Some v => truthy v | None => false end.

Definition mat_hit (mat : list (list Z)) (j i : Z) : bool :=
  (0 <=? j) &&
  match mat !! Z.to_nat j with Some row => row_hit row i | None => false end.

(** The board cell at row [r], column [c] lies under a filled cell of the
    piece. *)
Definition covers (p : Piece.t) (r c : nat) : bool :=
  mat_hit (Piece.matrix p) (Z.of_nat r - Piece.y p) (Z.of_nat c - Piece.x p).

(** No row of the grid is full. *)
Definition settled (grid : list (list Cell)) : Prop :=
  Forall (λ row, Board.every row = false) grid.

(** The state of a game in play: a settled 20 by 10 board; a current piece
    with a square matrix of at most 4 rows and a filled cell, between the
    walls and above the floor, overlapping nothing unless the game is
    over; a queue of two untouched pieces; level and drop interval as
    [setLevelByLines] derives them from a non-negative line count. *)
Record sound (g : Game.t) : Prop := {
  sound_grid : wf_grid (Game.board g);
  sound_rows : settled (Game.board g);
  sound_piece : in_bounds (Game.current g) 0 0 (Piece.matrix (Game.current g));
  sound_square : square (Piece.matrix (Game.current g));
  sound_size : (length (Piece.matrix (Game.current g)) ≤ 4)%nat;
  sound_cell : ∃ y x, filled_at (Piece.matrix (Game.current g)) y x;
  sound_clear : Game.over g = false → resting g;
  sound_queue : length (Game.nextQ g) = 2%nat;
  sound_fresh :
    Forall (λ p, Piece.matrix p = TETROS (Piece.type p)) (Game.nextQ g);
  sound_lines : 0 <= Game.lines g;
  sound_level : Game.level g = Z.max 1 (Game.lines g / 10 + 1);
  sound_interval :
    Game.dropInterval g = Z.max 80 (1000 - (Game.level g - 1) * 70)
}.

(** The piece that [spawnIfNeeded] and [holdPiece] make current. *)
Definition respawn (p : Piece.t) : Piece.t :=
  Piece.mk (Piece.type p) (Piece.matrix p) 3
    (- Z.of_nat (length (Piece.matrix p)) + 1) 0 false.

(** * Proofs *)

(** ** Collision *)

Lemma occupied_true grid ny nx :
  Board.occupied grid ny nx = true ↔
  ∃ row k, grid !! Z.to_nat ny = Some row ∧ row !! Z.to_nat nx = Some (Block k).
Proof.
  unfold Board.occupied. split.
  - destruct (grid !! Z.to_nat ny) as [row|] eqn:E1; [|done].
    destruct (row !! Z.to_nat nx) as [[|k]|] eqn:E2; try done.
    intros _. by exists row, k.
  - intros (row & k & -> & ->). done.
Qed.

Lemma truthy_true v : truthy v = true ↔ v ≠ 0.
Proof. unfold truthy. destruct (Z.eqb_spec v 0); simpl; split; congruence. Qed.

Lemma collision_cells_true grid p offX offY y row x0 :
  Board.collision_cells grid p offX offY y row x0 = true ↔
  ∃ (i : nat) v, row !! i = Some v ∧ v ≠ 0 ∧
    blocked grid (Piece.x p + (x0 + Z.of_nat i) + offX) (Piece.y p + y + offY).
Proof.
  revert x0. induction row as [|v rest IH]; intros x0; simpl.
  - split; [done|]. intros (i & v & Hi & _). by rewrite lookup_nil in Hi.
  - assert (Hrest :
      (∃ (i : nat) w, rest !! i = Some w ∧ w ≠ 0 ∧
         blocked grid (Piece.x p + (x0 + 1 + Z.of_nat i) + offX)
           (Piece.y p + y + offY)) ↔
      (∃ (i : nat) w, (v :: rest) !! S i = Some w ∧ w ≠ 0 ∧
         blocked grid (Piece.x p + (x0 + Z.of_nat (S i)) + offX)
           (Piece.y p + y + offY))).
    { split; intros (i & w & Hi & Hw & Hb); exists i, w; simpl in *;
        (split; [done|split; [done|]]);
        by replace (x0 + 1 + Z.of_nat i) with (x0 + Z.of_nat (S i)) in * by lia. }
    destruct (truthy v) eqn:Hv; simpl.
    + apply truthy_true in Hv.
      set (nx := Piece.x p + x0 + offX). set (ny := Piece.y p + y + offY).
      destruct ((nx <? 0) || (nx >=? Board.width) || (ny >=? Board.height)) eqn:Hb.
      { split; [intros _|done]. exists 0%nat, v. split; [done|split; [done|]].
        replace (Piece.x p + (x0 + Z.of_nat 0) + offX) with nx by (unfold nx; lia).
        unfold blocked, Board.width, Board.height, COLS, ROWS in *. lia. }
      destruct ((ny >=? 0) && Board.occupied grid ny nx) eqn:Ho.
      { split; [intros _|done]. exists 0%nat, v. split; [done|split; [done|]].
        replace (Piece.x p + (x0 + Z.of_nat 0) + offX) with nx by (unfold nx; lia).
        apply andb_true_iff in Ho as [Hny Ho]. apply occupied_true in Ho.
        unfold blocked. right; right; right. split; [lia|done]. }
      rewrite IH, Hrest. split.
      * intros (i & w & ?). exists (S i), w. done.
      * intros ([|i] & w & Hi & Hw & Hbl).
        -- exfalso. simpl in Hi. injection Hi as <-.
           replace (Piece.x p + (x0 + Z.of_nat 0) + offX) with nx in Hbl
             by (unfold nx; lia).
           fold ny in Hbl. unfold blocked in Hbl.
           unfold Board.width, Board.height, COLS, ROWS in Hb.
           destruct Hbl as [?|[?|[?|[Hny Hocc]]]]; [lia..|].
           apply occupied_true in Hocc. rewrite Hocc in Ho.
           apply andb_false_iff in Ho as [?|?]; [lia|done].
        -- exists i, w. done.
    + rewrite IH, Hrest. split.
      * intros (i & w & ?). exists (S i), w. done.
      * intros ([|i] & w & Hi & Hw & Hbl).
        -- simpl in Hi. injection Hi as <-.
           unfold truthy in Hv. destruct (Z.eqb_spec v 0); [done|discriminate].
        -- exists i, w. done.
Qed.

Lemma collision_rows_true grid p offX offY mat y0 :
  Board.collision_rows grid p offX offY mat y0 = true ↔
  ∃ (j i : nat), filled_at mat j i ∧
    blocked grid (Piece.x p + Z.of_nat i + offX)
      (Piece.y p + (y0 + Z.of_nat j) + offY).
Proof.
  revert y0. induction mat as [|row rest IH]; intros y0; simpl.
  - split; [done|]. intros (j & i & (r & v & Hj & _) & _).
    by rewrite lookup_nil in Hj.
  - destruct (Board.collision_cells grid p offX offY y0 row 0) eqn:Hc.
    + split; [intros _|done]. apply collision_cells_true in Hc
        as (i & v & Hi & Hv & Hb).
      exists 0%nat, i. split; [by exists row, v|].
      by replace (y0 + Z.of_nat 0) with y0 by lia.
    + rewrite IH. split.
      * intros (j & i & (r & v & Hj & Hi & Hv) & Hb).
        exists (S j), i. split; [by exists r, v|].
        by replace (y0 + Z.of_nat (S j)) with (y0 + 1 + Z.of_nat j) by lia.
      * intros ([|j] & i & (r & v & Hj & Hi & Hv) & Hb).
        -- simpl in Hj. injection Hj as <-.
           assert (Board.collision_cells grid p offX offY y0 row 0 = true);
             [|congruence].
           apply collision_cells_true. exists i, v.
           split; [done|split; [done|]].
           by replace (y0 + Z.of_nat 0) with y0 in Hb by lia.
        -- exists j, i. split; [by exists r, v|].
           by replace (y0 + 1 + Z.of_nat j) with (y0 + Z.of_nat (S j)) by lia.
Qed.

Lemma collision_blocked grid p offX offY mat :
  Board.collision grid p offX offY mat = true ↔
  ∃ y x : nat, filled_at mat y x ∧
    blocked grid (Piece.x p + Z.of_nat x + offX)
      (Piece.y p + Z.of_nat y + offY).
Proof.
  unfold Board.collision. rewrite collision_rows_true.
  split; intros (j & i & Hf & Hb); exists j, i; (split; [done|]);
    by replace (0 + Z.of_nat j) with (Z.of_nat j) in * by lia.
Qed.

Lemma collision_false_in_bounds grid p dx dy mat :
  Board.collision grid p dx dy mat = false → in_bounds p dx dy mat.
Proof.
  intros Hc y x Hf.
  destruct (decide (0 <= Piece.x p + Z.of_nat x + dx < 10 ∧
                    Piece.y p + Z.of_nat y + dy < 20)) as [|Hn]; [done|].
  assert (Board.collision grid p dx dy mat = true); [|congruence].
  apply collision_blocked.
  exists y, x. split; [done|]. unfold blocked. lia.
Qed.

Lemma bool_eq_iff (a b : bool) : (a = true ↔ b = true) → a = b.
Proof. destruct a, b; intros [H1 H2]; try done; [by rewrite H1|by rewrite H2]. Qed.

Lemma collision_translate grid p k offY mat :
  Board.collision grid (Game.translate p 0 k) 0 offY mat =
  Board.collision grid p 0 (k + offY) mat.
Proof.
  apply bool_eq_iff. rewrite !collision_blocked. simpl.
  split; intros (y & x & Hf & Hb); exists y, x; (split; [done|]).
  - by replace (Piece.x p + Z.of_nat x + 0) with (Piece.x p + 0 + Z.of_nat x + 0) by lia;
    replace (Piece.y p + Z.of_nat y + (k + offY)) with (Piece.y p + k + Z.of_nat y + offY) by lia.
  - by replace (Piece.x p + 0 + Z.of_nat x + 0) with (Piece.x p + Z.of_nat x + 0) by lia;
    replace (Piece.y p + k + Z.of_nat y + offY) with (Piece.y p + Z.of_nat y + (k + offY)) by lia.
Qed.

Lemma collision_floor grid p mat (y x : nat) d :
  filled_at mat y x → 20 <= Piece.y p + Z.of_nat y + d →
  Board.collision grid p 0 d mat = true.
Proof.
  intros Hf Hd. apply collision_blocked. exists y, x. split; [done|].
  unfold blocked. lia.
Qed.

(** ** Line clearing *)

Lemma replicate_snoc {A} (n : nat) (a : A) (l : list A) :
  replicate n a ++ a :: l = a :: replicate n a ++ l.
Proof. induction n as [|n IH]; simpl; [done|]. by rewrite IH. Qed.

Lemma full_rows_app l1 l2 : full_rows (l1 ++ l2) = full_rows l1 ++ full_rows l2.
Proof. apply List.filter_app. Qed.

Lemma kept_rows_app l1 l2 : kept_rows (l1 ++ l2) = kept_rows l1 ++ kept_rows l2.
Proof. apply List.filter_app. Qed.

Lemma clearLines_loop_spec fuel : ∀ top bot cleared,
  (length (full_rows top) + length top < fuel)%nat →
  Board.clearLines_loop fuel (top ++ bot) (Z.of_nat (length top) - 1) cleared =
  Ret (cleared + Z.of_nat (length (full_rows top)),
       replicate (length (full_rows top)) empty_row ++ kept_rows top ++ bot).
Proof.
  induction fuel as [|fuel IH]; intros top bot cleared Hfuel; [lia|].
  destruct top as [|r t _] using rev_ind; simpl.
  { f_equal. f_equal. lia. }
  rewrite length_app in *. simpl in *.
  rewrite (proj2 (Z.geb_le _ _)) by lia.
  replace (Z.to_nat (Z.of_nat (length t + 1) - 1)) with (length t) by lia.
  rewrite <- app_assoc. simpl.
  rewrite list_lookup_middle by done.
  rewrite full_rows_app, kept_rows_app in *. simpl in *.
  destruct (Board.every r) eqn:Hr; simpl in *.
  - assert (Hdel : delete (length t) (t ++ r :: bot) = t ++ bot).
    { clear. induction t as [|a t IH]; simpl; [done|]. by rewrite IH. }
    rewrite Hdel. rewrite length_app in *. simpl in *.
    specialize (IH (empty_row :: t) bot (cleared + 1)).
    simpl in IH.
    replace (Z.of_nat (length t + 1) + 1 - 1 - 1) with (Z.of_nat (length t) - 0) by lia.
    replace (Z.of_nat (S (length t)) - 1) with (Z.of_nat (length t) - 0) in IH by lia.
    change (replicate (Z.to_nat Board.width) Empty) with empty_row.
    replace (Z.of_nat (length t + 1) - 1 + 1 - 1) with (Z.of_nat (length t) - 0) by lia.
    etrans; [apply IH; lia|].
    f_equal. f_equal; [lia|].
    replace (length (full_rows t) + 1)%nat with (S (length (full_rows t))) by lia.
    simpl. rewrite app_nil_r.
    unfold kept_rows at 1. simpl. fold (kept_rows t).
    by rewrite replicate_snoc.
  - rewrite !app_nil_r in *.
    replace (Z.of_nat (length t + 1) - 1 - 1) with (Z.of_nat (length t) - 1) by lia.
    rewrite (IH t (r :: bot) cleared) by lia.
    by rewrite <- app_assoc.
Qed.

Lemma clearLines_eq grid fuel :
  length grid = 20%nat → (40 < fuel)%nat →
  Board.clearLines fuel grid =
  Ret (Z.of_nat (length (full_rows grid)),
       replicate (length (full_rows grid)) empty_row ++ kept_rows grid).
Proof.
  intros Hlen Hfuel. unfold Board.clearLines.
  pose proof (clearLines_loop_spec fuel grid [] 0) as H.
  rewrite !app_nil_r in H. rewrite Hlen in H.
  apply H.
  assert (length (full_rows grid) ≤ length grid)%nat
    by apply List.filter_length_le.
  lia.
Qed.

Lemma clearLines_loop_mono : ∀ fuel fuel' grid y cleared r,
  (fuel ≤ fuel')%nat →
  Board.clearLines_loop fuel grid y cleared = Ret r →
  Board.clearLines_loop fuel' grid y cleared = Ret r.
Proof.
  induction fuel as [|fuel IH]; intros fuel' grid y cleared r Hle; [done|].
  destruct fuel' as [|fuel']; [lia|]. simpl.
  destruct (y >=? 0); [|done].
  destruct (grid !! Z.to_nat y) as [row|]; [|done].
  destruct (Board.every row); apply IH; lia.
Qed.

Lemma rows_partition grid :
  (length (full_rows grid) + length (kept_rows grid) = length grid)%nat.
Proof. apply List.filter_length. Qed.

Lemma clearLines_wf grid fuel :
  wf_grid grid → (40 < fuel)%nat →
  ∃ n grid', Board.clearLines fuel grid = Ret (n, grid') ∧ wf_grid grid'.
Proof.
  intros [Hlen Hrows] Hfuel. eexists _, _. split; [by apply clearLines_eq|].
  split.
  - rewrite length_app, length_replicate, rows_partition. done.
  - apply Forall_app. split.
    + apply Forall_replicate. done.
    + apply Forall_forall. intros row Hin. rewrite Forall_forall in Hrows.
      apply Hrows. apply list_elem_of_In in Hin. apply List.filter_In in Hin.
      apply list_elem_of_In. tauto.
Qed.

(** ** Merging a piece *)

Lemma store_wf grid r c k :
  wf_grid grid → 0 <= r < 20 → 0 <= c < 10 →
  ∃ grid', Board.store grid r c k = Ret grid' ∧ wf_grid grid'.
Proof.
  intros [Hlen Hrows] Hr Hc. unfold Board.store.
  destruct (grid !! Z.to_nat r) as [row|] eqn:Hrow.
  - assert (length row = 10%nat) as Hl.
    { rewrite Forall_forall in Hrows. apply Hrows.
      by eapply list_elem_of_lookup_2. }
    rewrite Hl.
    assert ((0 <=? c) && (c <? Z.of_nat 10) = true) as ->.
    { apply andb_true_iff. split; [apply Z.leb_le|apply Z.ltb_lt]; lia. }
    eexists. split; [done|]. split.
    + by rewrite length_insert.
    + apply Forall_insert; [done|]. by rewrite length_insert.
  - apply lookup_ge_None in Hrow. lia.
Qed.

Lemma merge_cells_wf p y : ∀ row x0 grid,
  wf_grid grid →
  (∀ (i : nat) v, row !! i = Some v → v ≠ 0 →
     0 <= Piece.x p + (x0 + Z.of_nat i) < 10 ∧ Piece.y p + y < 20) →
  ∃ grid', Board.merge_cells grid p y row x0 = Ret grid' ∧ wf_grid grid'.
Proof.
  induction row as [|v rest IH]; intros x0 grid Hwf Hb; simpl.
  { by exists grid. }
  assert (Hrest : ∀ (i : nat) w, rest !! i = Some w → w ≠ 0 →
     0 <= Piece.x p + (x0 + 1 + Z.of_nat i) < 10 ∧ Piece.y p + y < 20).
  { intros i w Hi Hw. specialize (Hb (S i) w Hi Hw). lia. }
  destruct (truthy v && (Piece.y p + y >=? 0)) eqn:Hv.
  - apply andb_true_iff in Hv as [Hv Hy]. apply truthy_true in Hv.
    specialize (Hb 0%nat v eq_refl Hv).
    destruct (store_wf grid (Piece.y p + y) (Piece.x p + x0) (Piece.type p))
      as (grid1 & -> & Hwf1); [done|lia|lia|].
    simpl. by apply IH.
  - simpl. by apply IH.
Qed.

Lemma merge_rows_wf p : ∀ mat y0 grid,
  wf_grid grid →
  (∀ (j i : nat), filled_at mat j i →
     0 <= Piece.x p + Z.of_nat i < 10 ∧ Piece.y p + (y0 + Z.of_nat j) < 20) →
  ∃ grid', Board.merge_rows grid p mat y0 = Ret grid' ∧ wf_grid grid'.
Proof.
  induction mat as [|row rest IH]; intros y0 grid Hwf Hb; simpl.
  { by exists grid. }
  destruct (merge_cells_wf p y0 row 0 grid) as (grid1 & -> & Hwf1); [done| |].
  { intros i v Hi Hv. specialize (Hb 0%nat i). 
    replace (y0 + Z.of_nat 0) with y0 in Hb by lia.
    replace (0 + Z.of_nat i) with (Z.of_nat i) by lia.
    apply Hb. by exists row, v. }
  simpl. apply IH; [done|].
  intros j i (r & v & Hj & Hi & Hv).
  replace (y0 + 1 + Z.of_nat j) with (y0 + Z.of_nat (S j)) by lia.
  apply Hb. by exists r, v.
Qed.

Lemma merge_wf grid p :
  wf_grid grid → in_bounds p 0 0 (Piece.matrix p) →
  ∃ grid', Board.merge grid p = Ret (grid', Game.lock p) ∧ wf_grid grid'.
Proof.
  intros Hwf Hb. unfold Board.merge.
  destruct (merge_rows_wf (Game.lock p) (Piece.matrix p) 0 grid)
    as (grid1 & Hm & Hwf1); [done| |].
  { intros j i Hf. specialize (Hb j i Hf). simpl. lia. }
  exists grid1. split; [|done].
  unfold Game.lock in *. simpl. rewrite Hm. done.
Qed.

(** ** The bag, spawning and lock-down, for a random source in range *)
Section Random.

Variable rand : nat → Q.
Hypothesis Hrand : unit_range rand.

Lemma random_index (r : Q) (i : nat) :
  (0 <= r)%Q → (r < 1)%Q →
  0 <= Qfloor (r * inject_Z (Z.of_nat i + 1)) <= Z.of_nat i.
Proof.
  intros H0 H1.
  assert (0 < inject_Z (Z.of_nat i + 1))%Q as Hpos.
  { rewrite <- (Zlt_Qlt 0). lia. }
  split.
  - change 0 with (Qfloor 0). apply Qfloor_resp_le.
    apply Qmult_le_0_compat; [done|]. by apply Qlt_le_weak.
  - assert (Qfloor (r * inject_Z (Z.of_nat i + 1)) < Z.of_nat i + 1); [|lia].
    rewrite Zlt_Qlt.
    eapply Qle_lt_trans; [apply Qfloor_le|].
    rewrite <- (Qmult_1_l (inject_Z (Z.of_nat i + 1))) at 2.
    by apply Qmult_lt_compat_r.
Qed.

Lemma shuffle_perm : ∀ i pool t,
  (i < length pool)%nat →
  ∃ pool', Bag.shuffle rand i pool t = Ret (pool', (t + i)%nat) ∧
           pool' ≡ₚ pool.
Proof.
  induction i as [|i IH]; intros pool t Hi; cbn [Bag.shuffle].
  { exists pool. split; [|done]. do 2 f_equal. lia. }
  destruct (Hrand t) as [H0 H1].
  pose proof (random_index (rand t) (S i) H0 H1) as Hj.
  set (j := Qfloor (rand t * inject_Z (Z.of_nat (S i) + 1))) in *.
  destruct (lookup_lt_is_Some_2 pool (S i) Hi) as [a Ha].
  destruct (lookup_lt_is_Some_2 pool (Z.to_nat j) ltac:(lia)) as [b Hb].
  rewrite Ha. rewrite (proj2 (Z.leb_le 0 j)) by lia. rewrite Hb.
  destruct (IH (<[Z.to_nat j:=a]> (<[S i:=b]> pool)) (S t)) as (pool' & -> & Hp).
  { rewrite !length_insert. lia. }
  exists pool'. split; [do 2 f_equal; lia|].
  rewrite Hp. by apply Permutation_insert_swap.
Qed.

Lemma next_pop pool k t :
  Bag.next rand (pool ++ [k]) t = Ret (k, pool, t).
Proof.
  unfold Bag.next. rewrite length_app. simpl.
  replace (length pool + 1 =? 0)%nat with false
    by (symmetry; apply Nat.eqb_neq; lia).
  simpl. by rewrite last_snoc, removelast_last.
Qed.

Lemma draw_pops : ∀ ks pool t,
  Bag.draw rand (length ks) (pool ++ rev ks) t = Ret (ks, pool, t).
Proof.
  induction ks as [|k ks IH]; intros pool t; simpl.
  { by rewrite app_nil_r. }
  rewrite app_assoc, next_pop. simpl. rewrite IH. done.
Qed.

Lemma next_refill t pool' t' :
  Bag.shuffle rand (length Bag.fresh - 1) Bag.fresh t = Ret (pool', t') →
  pool' ≠ [] →
  Bag.next rand [] t = Bag.next rand pool' t'.
Proof.
  intros Hs Hne. unfold Bag.next at 1.
  change (length (@nil Kind) =? 0)%nat with true. cbv iota. rewrite Hs.
  destruct pool' as [|a l _] using rev_ind; [done|].
  rewrite next_pop. unfold mbind, outcome_bind.
  by rewrite last_snoc, removelast_last.
Qed.

Lemma draw_bag : ∀ t,
  ∃ ks, Bag.draw rand 7 [] t = Ret (ks, [], (t + 6)%nat) ∧ ks ≡ₚ Bag.fresh.
Proof.
  intros t.
  destruct (shuffle_perm 6 Bag.fresh t) as (pool' & Hs & Hp);
    [simpl; lia|].
  assert (length pool' = 7%nat) as Hlen by (by rewrite Hp).
  exists (rev pool'). split; [|by rewrite <- Permutation_rev, Hp].
  change 7%nat with (S 6). cbn [Bag.draw].
  rewrite (next_refill t pool' (t + 6)%nat Hs) by (by destruct pool').
  pose proof (draw_pops (rev pool') [] (t + 6)%nat) as Hd.
  rewrite length_rev, Hlen, rev_involutive in Hd. simpl in Hd. exact Hd.
Qed.

Lemma next_total pool t :
  ∃ k pool' t', Bag.next rand pool t = Ret (k, pool', t').
Proof.
  destruct pool as [|a l _] using rev_ind.
  - destruct (shuffle_perm 6 Bag.fresh t) as (pool' & Hs & Hp);
      [simpl; lia|].
    assert (pool' ≠ []) as Hne.
    { intros ->. apply Permutation_length in Hp. done. }
    rewrite (next_refill t pool' (t + 6)%nat Hs Hne).
    destruct pool' as [|b l _] using rev_ind; [done|].
    rewrite next_pop. eauto.
  - rewrite next_pop. eauto.
Qed.

Lemma spawn_locked g u :
  Piece.locked (Game.current g) = true →
  Game.nextQ g ≠ [] →
  ∃ g' u', Game.spawnIfNeeded rand g u = Ret (g', u') ∧
    Game.board g' = Game.board g ∧ Game.score g' = Game.score g ∧
    Game.lines g' = Game.lines g ∧ Game.level g' = Game.level g ∧
    Game.dropInterval g' = Game.dropInterval g.
Proof.
  intros Hl Hq. unfold Game.spawnIfNeeded. rewrite Hl.
  destruct (Game.nextQ g) as [|p rest]; [done|].
  cbn [Game.bag Game.set_current].
  destruct (next_total (Game.bag g) u) as (k & pool & u1 & ->).
  cbn [mbind outcome_bind].
  match goal with |- context [if ?c then _ else _] => destruct c end;
    eexists _, _; (split; [reflexivity|]); destruct g; done.
Qed.

Lemma lockDown_run fuel g u :
  (40 < fuel)%nat → lockable g →
  ∃ grid1 grid2 g' u',
    Board.merge (Game.board g) (Game.current g) =
      Ret (grid1, Game.lock (Game.current g)) ∧
    Board.clearLines fuel grid1 =
      Ret (Z.of_nat (length (full_rows grid1)), grid2) ∧
    Game.lockDown rand fuel g u = Ret (g', u') ∧
    Game.board g' = grid2 ∧ wf_grid grid2 ∧
    Game.lines g' = Game.lines g + Z.of_nat (length (full_rows grid1)) ∧
    (length (full_rows grid1) = 0%nat →
       Game.score g' = Game.score g ∧ Game.level g' = Game.level g ∧
       Game.dropInterval g' = Game.dropInterval g) ∧
    (length (full_rows grid1) ≠ 0%nat →
       Game.score g' =
         Game.score g + line_score (length (full_rows grid1)) * Game.level g ∧
       Game.level g' = Z.max 1 (Game.lines g' / 10 + 1) ∧
       Game.dropInterval g' = Z.max 80 (1000 - (Game.level g' - 1) * 70)).
Proof.
  intros Hfuel [Hwf Hcol Hq].
  destruct (merge_wf (Game.board g) (Game.current g)) as (grid1 & Hm & Hwf1);
    [done|done|].
  pose proof (clearLines_eq grid1 fuel (proj1 Hwf1) Hfuel) as Hc.
  destruct (clearLines_wf grid1 fuel Hwf1 Hfuel) as (n' & grid2 & Hc' & Hwf2).
  rewrite Hc in Hc'. injection Hc' as <- Hgrid2.
  set (n := length (full_rows grid1)) in *.
  exists grid1, grid2. unfold Game.lockDown. rewrite Hm.
  cbn [mbind outcome_bind]. rewrite Hc. cbn [mbind outcome_bind].
  rewrite Hgrid2.
  match goal with |- context [Game.spawnIfNeeded rand ?g0 u] =>
    set (g3 := g0) end.
  destruct (spawn_locked g3 u) as (g4 & u4 & Hs & Hb & Hsc & Hli & Hle & Hdi).
  { unfold g3. destruct (truthy (Z.of_nat n)); destruct g; done. }
  { unfold g3. destruct (truthy (Z.of_nat n)); destruct g; done. }
  rewrite Hs. cbn [mbind outcome_bind].
  eexists _, _. split; [done|]. split; [done|]. split; [reflexivity|].
  assert (Htr : truthy (Z.of_nat n) = negb (n =? 0)%nat).
  { unfold truthy. destruct n; done. }
  unfold g3 in *. clear g3 Hs. rewrite Htr in *.
  destruct g; simpl in *.
  destruct (Nat.eqb_spec n 0) as [Hn|Hn]; simpl in *; subst;
    (split; [done|]); (split; [done|]); (split; [try rewrite Hn; lia|]);
    (split; [intros ?|intros ?]); try done.
  fold n. unfold line_score. rewrite Hsc, Hle, Hdi, Hli, Nat2Z.id. done.
Qed.

End Random.

(** ** Hard drop *)

Lemma first_true (f : nat → bool) : ∀ B : nat,
  (∃ n : nat, (n ≤ B)%nat ∧ f n = true ∧ ∀ k, (k < n)%nat → f k = false) ∨
  (∀ k, (k ≤ B)%nat → f k = false).
Proof.
  induction B as [|B [(n & Hn & Hfn & Hlt)|Hall]].
  - destruct (f 0%nat) eqn:H0.
    + left. exists 0%nat. split; [done|]. split; [done|]. lia.
    + right. intros k Hk. by replace k with 0%nat by lia.
  - left. exists n. split; [lia|done].
  - destruct (f (S B)) eqn:HS.
    + left. exists (S B). split; [done|]. split; [done|].
      intros k Hk. apply Hall. lia.
    + right. intros k Hk. destruct (decide (k = S B)) as [->|]; [done|].
      apply Hall. lia.
Qed.

Lemma translate_0 p : Game.translate p 0 0 = p.
Proof. destruct p. unfold Game.translate. simpl. f_equal; lia. Qed.

Lemma translate_translate p a b :
  Game.translate (Game.translate p 0 a) 0 b = Game.translate p 0 (a + b).
Proof. destruct p. unfold Game.translate. simpl. f_equal; lia. Qed.

Lemma set_current_id g : Game.set_current (Game.current g) g = g.
Proof. by destruct g. Qed.

Lemma set_current_twice a b g :
  Game.set_current a (Game.set_current b g) = Game.set_current a g.
Proof. done. Qed.

Lemma current_set_current a g : Game.current (Game.set_current a g) = a.
Proof. done. Qed.

Lemma board_set_current a g :
  Game.board (Game.set_current a g) = Game.board g.
Proof. done. Qed.

Lemma hardDrop_loop_run : ∀ (n fuel : nat) g dist,
  (n < fuel)%nat →
  (∀ k : nat, (k < n)%nat →
     Board.collision (Game.board g) (Game.current g) 0 (Z.of_nat k + 1)
       (Piece.matrix (Game.current g)) = false) →
  Board.collision (Game.board g) (Game.current g) 0 (Z.of_nat n + 1)
    (Piece.matrix (Game.current g)) = true →
  Game.hardDrop_loop fuel g dist =
  Ret (Game.set_current (Game.translate (Game.current g) 0 (Z.of_nat n)) g,
       dist + Z.of_nat n).
Proof.
  induction n as [|n IH]; intros fuel g dist Hfuel Hfree Hhit;
    (destruct fuel as [|fuel]; [lia|]); cbn [Game.hardDrop_loop].
  - change (Z.of_nat 0 + 1) with 1 in Hhit. rewrite Hhit. cbn [negb].
    rewrite translate_0, set_current_id. do 2 f_equal. lia.
  - pose proof (Hfree 0%nat ltac:(lia)) as H0.
    change (Z.of_nat 0 + 1) with 1 in H0. rewrite H0.
    cbn [negb].
    rewrite IH; [| lia | |];
      rewrite ?current_set_current, ?board_set_current, ?set_current_twice.
    + rewrite translate_translate.
      replace (1 + Z.of_nat n) with (Z.of_nat (S n)) by lia.
      by replace (dist + 1 + Z.of_nat n) with (dist + Z.of_nat (S n)) by lia.
    + intros k Hk. change (Piece.matrix (Game.translate ?p _ _)) with (Piece.matrix p).
      rewrite collision_translate.
      replace (1 + (Z.of_nat k + 1)) with (Z.of_nat (S k) + 1) by lia.
      apply Hfree. lia.
    + change (Piece.matrix (Game.translate ?p _ _)) with (Piece.matrix p).
      rewrite collision_translate.
      by replace (1 + (Z.of_nat n + 1)) with (Z.of_nat (S n) + 1) by lia.
Qed.

Lemma drop_distance grid p :
  (∃ y x, filled_at (Piece.matrix p) y x) →
  ∃ n : nat,
    Z.of_nat n <= Z.max 0 (20 - Piece.y p) ∧
    (∀ k : nat, (k < n)%nat →
       Board.collision grid p 0 (Z.of_nat k + 1) (Piece.matrix p) = false) ∧
    Board.collision grid p 0 (Z.of_nat n + 1) (Piece.matrix p) = true.
Proof.
  intros (y & x & Hf).
  set (f := λ k : nat,
         Board.collision grid p 0 (Z.of_nat k + 1) (Piece.matrix p)).
  set (B := Z.to_nat (20 - Piece.y p - Z.of_nat y)).
  destruct (first_true f B) as [(n & Hle & Hn & Hlt)|Hall].
  - exists n. split; [unfold B in Hle; lia|done].
  - assert (f B = true); [|by rewrite Hall in *].
    unfold f. eapply collision_floor; [done|]. unfold B. lia.
Qed.

Lemma line_score_nonneg n : 0 <= line_score n.
Proof. do 5 (destruct n as [|n]; [done|]). done. Qed.

(** ** Rotation *)

(** Case analysis on membership in a literal list. *)
Ltac elem_cases H :=
  repeat (apply elem_of_cons in H as [->|H]); [..|by apply elem_of_nil in H].

Lemma rotate_store_shaped n res r c v :
  shaped n res → 0 <= r < Z.of_nat n → 0 <= c < Z.of_nat n →
  ∃ res', rotate_store res r c v = Ret res' ∧ shaped n res'.
Proof.
  intros [Hlen Hrows] Hr Hc. unfold rotate_store.
  rewrite (proj2 (Z.ltb_ge r 0)) by lia.
  destruct (res !! Z.to_nat r) as [row|] eqn:Hrow.
  - assert (length row = n) as Hl.
    { rewrite Forall_forall in Hrows. apply Hrows.
      by eapply list_elem_of_lookup_2. }
    rewrite Hl.
    assert ((0 <=? c) && (c <? Z.of_nat n) = true) as ->.
    { apply andb_true_iff. split; [apply Z.leb_le|apply Z.ltb_lt]; lia. }
    eexists. split; [done|]. split.
    + by rewrite length_insert.
    + apply Forall_insert; [done|]. by rewrite length_insert.
  - apply lookup_ge_None in Hrow. lia.
Qed.

Lemma rotate_cells_shaped n dir y : ∀ row x0 res,
  shaped n res → 0 <= y < Z.of_nat n → 0 <= x0 →
  x0 + Z.of_nat (length row) <= Z.of_nat n →
  ∃ res',
    rotate_cells dir (Z.of_nat n) (Z.of_nat n) y res row x0 = Ret res' ∧
    shaped n res'.
Proof.
  induction row as [|v rest IH]; intros x0 res Hs Hy Hx Hlen; simpl.
  { by exists res. }
  simpl in Hlen.
  assert (∃ res1,
    (if dir >? 0
     then rotate_store res x0 (Z.of_nat n - 1 - y) v
     else rotate_store res (Z.of_nat n - 1 - x0) y v) = Ret res1 ∧
    shaped n res1) as (res1 & -> & Hs1).
  { destruct (dir >? 0); apply rotate_store_shaped; (done || lia). }
  simpl. apply IH; (done || lia).
Qed.

Lemma rotate_rows_shaped n dir : ∀ m y0 res,
  shaped n res → 0 <= y0 → y0 + Z.of_nat (length m) <= Z.of_nat n →
  Forall (λ row, length row = n) m →
  ∃ res',
    rotate_rows dir (Z.of_nat n) (Z.of_nat n) res m y0 = Ret res' ∧
    shaped n res'.
Proof.
  induction m as [|row rest IH]; intros y0 res Hs Hy Hlen Hrows; simpl.
  { by exists res. }
  simpl in Hlen. apply Forall_cons in Hrows as [Hrow Hrest].
  destruct (rotate_cells_shaped n dir y0 row 0 res) as (res1 & -> & Hs1);
    [done|lia|lia|lia|].
  simpl. apply IH; (done || lia).
Qed.

Lemma rotateMatrix_square m dir :
  square m → ∃ rotated, rotateMatrix m dir = Ret rotated ∧ square rotated.
Proof.
  intros Hsq. unfold rotateMatrix.
  destruct (rotate_rows_shaped (length m) dir m 0
              (replicate (length m) (replicate (length m) 0)))
    as (res & Hres & [Hlen Hrows]).
  - split; [by rewrite length_replicate|].
    apply Forall_replicate. by rewrite length_replicate.
  - done.
  - lia.
  - done.
  - exists res. split; [|unfold square; by rewrite Hlen].
    destruct m as [|r0 rest]; [done|].
    apply Forall_cons in Hsq as [-> _]. by rewrite Nat2Z.id.
Qed.

(** ** What [rotateMatrix] computes *)

Lemma cell_at_insert {A} (m : list (list A)) (r c : nat) row v r' c' :
  m !! r = Some row → (c < length row)%nat →
  cell_at (<[r := <[c := v]> row]> m) r' c' =
  if decide (r' = r ∧ c' = c) then Some v else cell_at m r' c'.
Proof.
  intros Hrow Hc. unfold cell_at.
  assert (r < length m)%nat by by eapply lookup_lt_Some.
  destruct (decide (r' = r)) as [->|Hr].
  - rewrite list_lookup_insert_eq by done. rewrite Hrow. simpl.
    destruct (decide (c' = c)) as [->|Hc'].
    + rewrite decide_True by done. by rewrite list_lookup_insert_eq.
    + rewrite decide_False by (by intros [_ ?]).
      by rewrite list_lookup_insert_ne.
  - rewrite decide_False by (by intros [? _]).
    by rewrite list_lookup_insert_ne.
Qed.

Lemma rotate_store_cells n res (r c : nat) v :
  shaped n res → (r < n)%nat → (c < n)%nat →
  ∃ res',
    rotate_store res (Z.of_nat r) (Z.of_nat c) v = Ret res' ∧ shaped n res' ∧
    ∀ r' c', cell_at res' r' c' =
             if decide (r' = r ∧ c' = c) then Some v else cell_at res r' c'.
Proof.
  intros [Hlen Hrows] Hr Hc. unfold rotate_store.
  rewrite (proj2 (Z.ltb_ge (Z.of_nat r) 0)) by lia. rewrite Nat2Z.id.
  destruct (res !! r) as [row|] eqn:Hrow.
  - assert (length row = n) as Hl.
    { rewrite Forall_forall in Hrows. apply Hrows.
      by eapply list_elem_of_lookup_2. }
    rewrite Hl.
    assert ((0 <=? Z.of_nat c) && (Z.of_nat c <? Z.of_nat n) = true) as ->.
    { apply andb_true_iff. split; [apply Z.leb_le|apply Z.ltb_lt]; lia. }
    rewrite Nat2Z.id. eexists. split; [done|]. split.
    + split; [by rewrite length_insert|].
      apply Forall_insert; [done|]. by rewrite length_insert.
    + intros r' c'. apply cell_at_insert; [done|lia].
  - apply lookup_ge_None in Hrow. lia.
Qed.

Lemma turned_store dir (n : nat) res (y x : nat) v :
  (x < n)%nat → (y < n)%nat →
  (if dir >? 0
   then rotate_store res (Z.of_nat x) (Z.of_nat n - 1 - Z.of_nat y) v
   else rotate_store res (Z.of_nat n - 1 - Z.of_nat x) (Z.of_nat y) v) =
  rotate_store res (Z.of_nat (turned_row dir n x))
    (Z.of_nat (turned_col dir n y)) v.
Proof.
  intros Hx Hy. unfold turned_row, turned_col.
  destruct (dir >? 0); f_equal; lia.
Qed.

Lemma turned_row_lt dir n x : (x < n)%nat → (turned_row dir n x < n)%nat.
Proof. unfold turned_row. destruct (dir >? 0); lia. Qed.

Lemma turned_col_lt dir n y : (y < n)%nat → (turned_col dir n y < n)%nat.
Proof. unfold turned_col. destruct (dir >? 0); lia. Qed.

Lemma turned_row_inj dir n x x' :
  (x < n)%nat → (x' < n)%nat →
  turned_row dir n x = turned_row dir n x' → x = x'.
Proof. unfold turned_row. destruct (dir >? 0); lia. Qed.

Lemma turned_col_inj dir n y y' :
  (y < n)%nat → (y' < n)%nat →
  turned_col dir n y = turned_col dir n y' → y = y'.
Proof. unfold turned_col. destruct (dir >? 0); lia. Qed.

Lemma rotate_cells_content n dir (y : nat) : ∀ row (x0 : nat) res,
  shaped n res → (y < n)%nat → (x0 + length row ≤ n)%nat →
  ∃ res',
    rotate_cells dir (Z.of_nat n) (Z.of_nat n) (Z.of_nat y) res row
      (Z.of_nat x0) = Ret res' ∧
    shaped n res' ∧
    (∀ (i : nat) v, row !! i = Some v →
       cell_at res' (turned_row dir n (x0 + i)) (turned_col dir n y) = Some v) ∧
    (∀ r c,
       (c ≠ turned_col dir n y ∨
        ∀ i, (i < length row)%nat → r ≠ turned_row dir n (x0 + i)) →
       cell_at res' r c = cell_at res r c).
Proof.
  induction row as [|v rest IH]; intros x0 res Hs Hy Hlen;
    cbn [rotate_cells].
  { exists res. split; [done|]. split; [done|]. split; [|done].
    intros i v Hi. by rewrite lookup_nil in Hi. }
  simpl in Hlen.
  rewrite turned_store by lia.
  destruct (rotate_store_cells n res (turned_row dir n x0)
              (turned_col dir n y) v Hs)
    as (res1 & -> & Hs1 & Hcell1);
    [apply turned_row_lt; lia|by apply turned_col_lt|].
  cbn [mbind outcome_bind].
  replace (Z.of_nat x0 + 1) with (Z.of_nat (S x0)) by lia.
  destruct (IH (S x0) res1 Hs1 Hy ltac:(lia))
    as (res' & -> & Hs' & Hset & Hframe).
  exists res'. split; [done|]. split; [done|]. split.
  - intros [|i] w Hi.
    + simpl in Hi. injection Hi as <-.
      rewrite Hframe, Hcell1.
      * rewrite decide_True; [done|]. split; [f_equal; lia|done].
      * right. intros i Hi Heq.
        apply turned_row_inj in Heq; lia.
    + replace (x0 + S i)%nat with (S x0 + i)%nat by lia. by apply Hset.
  - intros r c Hrc. rewrite Hframe, Hcell1.
    + rewrite decide_False; [done|]. intros [-> ->].
      destruct Hrc as [Hc|Hr]; [done|].
      apply (Hr 0%nat); [simpl; lia|f_equal; lia].
    + destruct Hrc as [Hc|Hr]; [by left|right].
      intros i Hi. replace (S x0 + i)%nat with (x0 + S i)%nat by lia.
      apply Hr. simpl. lia.
Qed.

Lemma rotate_rows_content n dir : ∀ m (y0 : nat) res,
  shaped n res → (y0 + length m ≤ n)%nat →
  Forall (λ row, length row = n) m →
  ∃ res',
    rotate_rows dir (Z.of_nat n) (Z.of_nat n) res m (Z.of_nat y0) = Ret res' ∧
    shaped n res' ∧
    (∀ (j i : nat) row v, m !! j = Some row → row !! i = Some v →
       cell_at res' (turned_row dir n i) (turned_col dir n (y0 + j)) = Some v) ∧
    (∀ r c,
       (∀ j, (j < length m)%nat → c ≠ turned_col dir n (y0 + j)) →
       cell_at res' r c = cell_at res r c).
Proof.
  induction m as [|row rest IH]; intros y0 res Hs Hlen Hrows;
    cbn [rotate_rows].
  { exists res. split; [done|]. split; [done|]. split; [|done].
    intros j i row v Hj. by rewrite lookup_nil in Hj. }
  simpl in Hlen. apply Forall_cons in Hrows as [Hrow Hrest].
  destruct (rotate_cells_content n dir y0 row 0 res Hs)
    as (res1 & Hrun & Hs1 & Hset1 & Hframe1); [lia|simpl; lia|].
  change (Z.of_nat 0) with 0 in Hrun. rewrite Hrun.
  cbn [mbind outcome_bind].
  replace (Z.of_nat y0 + 1) with (Z.of_nat (S y0)) by lia.
  destruct (IH (S y0) res1 Hs1 ltac:(lia) Hrest)
    as (res' & -> & Hs' & Hset & Hframe).
  exists res'. split; [done|]. split; [done|]. split.
  - intros [|j] i r v Hj Hi.
    + simpl in Hj. injection Hj as <-.
      rewrite Hframe.
      * replace (y0 + 0)%nat with y0 by lia. by apply (Hset1 i).
      * intros j Hj Heq.
        assert (i < n)%nat by (apply lookup_lt_Some in Hi; lia).
        apply turned_col_inj in Heq; lia.
    + replace (y0 + S j)%nat with (S y0 + j)%nat by lia. by eapply Hset.
  - intros r c Hc. rewrite Hframe, Hframe1; [done| |].
    + left. replace y0 with (y0 + 0)%nat by lia. apply Hc. simpl. lia.
    + intros j Hj. replace (S y0 + j)%nat with (y0 + S j)%nat by lia.
      apply Hc. simpl. lia.
Qed.

Lemma rotateMatrix_content m dir :
  square m →
  ∃ rotated,
    rotateMatrix m dir = Ret rotated ∧ shaped (length m) rotated ∧
    ∀ (y x : nat) row v, m !! y = Some row → row !! x = Some v →
      cell_at rotated (turned_row dir (length m) x)
        (turned_col dir (length m) y) = Some v.
Proof.
  intros Hsq. unfold rotateMatrix.
  assert (shaped (length m) (replicate (length m) (replicate (length m) 0)))
    as Hs0.
  { split; [by rewrite length_replicate|].
    apply Forall_replicate. by rewrite length_replicate. }
  destruct (rotate_rows_content (length m) dir m 0 _ Hs0 ltac:(lia) Hsq)
    as (res & Hres & Hs & Hset & _).
  exists res. split; [|split; [done|]].
  - destruct m as [|r0 rest]; [done|].
    apply Forall_cons in Hsq as [Hr0 _]. rewrite Hr0, Nat2Z.id. exact Hres.
  - intros y x row v Hy Hx. by apply (Hset y x row v).
Qed.

Lemma shaped_eq {A} n (a b : list (list A)) :
  length a = n → Forall (λ row, length row = n) a →
  length b = n → Forall (λ row, length row = n) b →
  (∀ r c, (r < n)%nat → (c < n)%nat → cell_at a r c = cell_at b r c) →
  a = b.
Proof.
  intros Hla Ha Hlb Hb Hcells. apply list_eq. intros r.
  destruct (decide (r < n)%nat) as [Hr|Hr].
  - destruct (lookup_lt_is_Some_2 a r ltac:(lia)) as [ra Hra].
    destruct (lookup_lt_is_Some_2 b r ltac:(lia)) as [rb Hrb].
    rewrite Hra, Hrb. f_equal.
    assert (length ra = n) as Hlra.
    { rewrite Forall_forall in Ha. apply Ha. by eapply list_elem_of_lookup_2. }
    assert (length rb = n) as Hlrb.
    { rewrite Forall_forall in Hb. apply Hb. by eapply list_elem_of_lookup_2. }
    apply list_eq. intros c.
    destruct (decide (c < n)%nat) as [Hc|Hc].
    + specialize (Hcells r c Hr Hc). unfold cell_at in Hcells.
      by rewrite Hra, Hrb in Hcells.
    + rewrite !lookup_ge_None_2 by lia. done.
  - rewrite !lookup_ge_None_2 by lia. done.
Qed.

Lemma square_cell m (y x : nat) :
  square m → (y < length m)%nat → (x < length m)%nat →
  ∃ row v, m !! y = Some row ∧ row !! x = Some v.
Proof.
  intros Hsq Hy Hx.
  destruct (lookup_lt_is_Some_2 m y Hy) as [row Hrow].
  assert (length row = length m) as Hl.
  { unfold square in Hsq. rewrite Forall_forall in Hsq. apply Hsq.
    by eapply list_elem_of_lookup_2. }
  destruct (lookup_lt_is_Some_2 row x ltac:(lia)) as [v Hv]. eauto.
Qed.

(** The early exit of [rotate]: on an O piece it returns [undefined] and
    changes nothing, whatever the direction. *)
Lemma rotate_O_exit g dir :
  Piece.type (Game.current g) = kO →
  Game.rotate g dir = Ret (Undefined, g).
Proof. intros HO. unfold Game.rotate. by rewrite decide_True. Qed.

Lemma rotateMatrix_turn m dir :
  square m → dir ∈ [1; -1] →
  ∃ rotated,
    rotateMatrix m dir = Ret rotated ∧
    length rotated = length m ∧ square rotated ∧
    ∀ (y x : nat) v,
      cell_at m y x = Some v →
      cell_at rotated
        (if decide (dir = 1) then x else (length m - 1 - x)%nat)
        (if decide (dir = 1) then (length m - 1 - y)%nat else y) = Some v.
Proof.
  intros Hsq Hdir.
  destruct (rotateMatrix_content m dir Hsq) as (rotated & Hr & [Hl Hs] & Hc).
  exists rotated. split; [done|]. split; [done|]. split.
  { unfold square. by rewrite Hl. }
  intros y x v Hv. unfold cell_at in Hv.
  destruct (m !! y) as [row|] eqn:Hy; [|done]. cbn in Hv.
  specialize (Hc y x row v Hy Hv).
  by elem_cases Hdir.
Qed.

(** ** The kick tables *)

Lemma kicks_lookup k from dir :
  from ∈ [0; 1; 2; 3] → dir ∈ [1; -1] →
  (if decide (k = kI) then KICKS_I else KICKS_default)
    !! Game.kick_key from (Z.rem (from + (if dir >? 0 then 1 else 3)) 4)
  = Some (kicksFor k from (Z.rem (from + (if dir >? 0 then 1 else 3)) 4)).
Proof.
  intros Hfrom Hdir.
  elem_cases Hfrom; elem_cases Hdir; destruct k; vm_compute; reflexivity.
Qed.

Lemma kicks_present (kicks : gmap string (list (Z * Z))) from dir :
  kicks = KICKS_default ∨ kicks = KICKS_I →
  from ∈ [0; 1; 2; 3] → dir ∈ [1; -1] →
  ∃ table,
    kicks !! Game.kick_key from
               (Z.rem (from + (if dir >? 0 then 1 else 3)) 4) = Some table ∧
    length table = 5%nat ∧ table !! 0%nat = Some (0, 0).
Proof.
  intros Hk Hfrom Hdir.
  elem_cases Hfrom; elem_cases Hdir;
    destruct Hk as [->| ->]; eexists; (split; [vm_compute; reflexivity|done]).
Qed.

Lemma kicks_tables (kicks : gmap string (list (Z * Z))) :
  kicks = KICKS_default ∨ kicks = KICKS_I →
  map_Forall (λ _ table, length table = 5%nat ∧ table !! 0%nat = Some (0, 0))
    kicks.
Proof.
  intros Hk key table Hlook.
  destruct Hk as [->| ->]; apply elem_of_list_to_map_2 in Hlook;
    repeat (apply elem_of_cons in Hlook as [[= -> ->]|Hlook]; [done|]);
    by apply elem_of_nil in Hlook.
Qed.

Lemma target_orientation from dir :
  from ∈ [0; 1; 2; 3] → dir ∈ [1; -1] →
  Z.rem (from + (if dir >? 0 then 1 else 3)) 4 =
  (from + (if decide (dir = 1) then 1 else 3)) `mod` 4.
Proof.
  intros Hfrom Hdir.
  elem_cases Hfrom; elem_cases Hdir; done.
Qed.

Lemma rotate_kicks_first g rotated to : ∀ table (i : nat) dx dy,
  table !! i = Some (dx, dy) →
  Board.collision (Game.board g) (Game.current g) dx dy rotated = false →
  (∀ (j : nat) dx' dy', (j < i)%nat → table !! j = Some (dx', dy') →
     Board.collision (Game.board g) (Game.current g) dx' dy' rotated = true) →
  Game.rotate_kicks g rotated to table = (Bool true, kicked g rotated to dx dy).
Proof.
  induction table as [|[ex ey] rest IH]; intros i dx dy Hi Hfree Hprev.
  { by rewrite lookup_nil in Hi. }
  destruct i as [|i]; simpl in Hi |- *.
  - injection Hi as -> ->. rewrite Hfree. simpl. unfold kicked. simpl.
    by destruct (Board.collision _ _ 0 1 rotated).
  - rewrite (Hprev 0%nat ex ey) by (done || lia). simpl.
    apply (IH i); [done|done|].
    intros j dx' dy' Hj Hlook. apply (Hprev (S j)); [lia|done].
Qed.

Lemma rotate_kicks_none g rotated to : ∀ table,
  (∀ (j : nat) dx dy, table !! j = Some (dx, dy) →
     Board.collision (Game.board g) (Game.current g) dx dy rotated = true) →
  Game.rotate_kicks g rotated to table = (Bool false, g).
Proof.
  induction table as [|[ex ey] rest IH]; intros Hall; simpl; [done|].
  rewrite (Hall 0%nat ex ey) by done. simpl.
  apply IH. intros j dx dy Hlook. by apply (Hall (S j)).
Qed.

(** ** The gravity step, one phase of [update] *)

Lemma update_timers_frame g delta :
  Game.elapsed (Game.update_timers g delta) = (Game.elapsed g + delta)%Q ∧
  Game.dropInterval (Game.update_timers g delta) = Game.dropInterval g.
Proof.
  unfold Game.update_timers. destruct g; simpl.
  destruct (Qgt_bool flashMs 0); simpl;
    destruct (Qgt_bool shake 0); done.
Qed.

Lemma gravity_due g :
  (inject_Z (Game.dropInterval g) <= Game.elapsed g)%Q →
  Game.update_gravity g =
  if Board.collision (Game.board g) (Game.current g) 0 1
       (Piece.matrix (Game.current g))
  then Game.set_grounded true (Game.set_elapsed 0%Q g)
  else
    Game.set_lockTimer 0%Q
      (Game.set_grounded false
         (Game.set_score (Game.score g + 1)
            (Game.set_current (Game.translate (Game.current g) 0 1)
               (Game.set_elapsed 0%Q g)))).
Proof.
  intros Hdue. unfold Game.update_gravity, Qge_bool.
  rewrite (proj2 (Qle_bool_iff _ _) Hdue). unfold Game.softDrop.
  destruct g; simpl.
  by destruct (Board.collision _ _ 0 1 _).
Qed.

Lemma halves_in_range : unit_range halves.
Proof. intros n. unfold halves, Qle, Qlt. simpl. lia. Defined.


(** * The claims *)

(** C1. For every grid of 20 rows, [clearLines] (on enough fuel for its
    loop) returns the number of rows in which every cell is occupied,
    removes exactly those rows, puts that many empty rows on top, and
    keeps the remaining rows, content and order, beneath them; adjacent
    full rows are covered because the row index is examined again after a
    removal. *)
Theorem clearLines_spec grid fuel :
  length grid = 20%nat → (40 < fuel)%nat →
  Board.clearLines fuel grid =
  Ret (Z.of_nat (length (full_rows grid)),
       replicate (length (full_rows grid)) empty_row ++ kept_rows grid).
Proof. intros Hlen Hfuel. by apply clearLines_eq. Qed.

Lemma clearLines_spec_witness :
  length stacked = 20%nat ∧ (40 < 41)%nat ∧
  Board.clearLines 41 stacked =
  Ret (2, replicate 2 empty_row ++ replicate 17 (replicate 10 Empty) ++
          [Block kI :: replicate 9 Empty]).
Proof.
  split; [reflexivity|]. split; [lia|].
  exact (clearLines_spec stacked 41 eq_refl ltac:(lia)).
Defined.

(** C2. [collision] returns true exactly when some filled cell of the
    candidate matrix, taken to board coordinates, is left of column 0,
    right of column 9, at or below row 20, or at a row [>= 0] on an
    occupied grid cell.  When every filled cell is above the board, only
    the horizontal bounds can make it true. *)
Theorem collision_spec grid p offX offY mat :
  (Board.collision grid p offX offY mat = true ↔
   ∃ y x : nat, filled_at mat y x ∧
     blocked grid (Piece.x p + Z.of_nat x + offX)
       (Piece.y p + Z.of_nat y + offY)) ∧
  ((∀ y x : nat, filled_at mat y x → Piece.y p + Z.of_nat y + offY < 0) →
   (Board.collision grid p offX offY mat = true ↔
    ∃ y x : nat, filled_at mat y x ∧
      (Piece.x p + Z.of_nat x + offX < 0 ∨
       10 <= Piece.x p + Z.of_nat x + offX))).
Proof.
  pose proof (collision_blocked grid p offX offY mat) as Hiff.
  split; [exact Hiff|]. intros Habove. rewrite Hiff.
  split; intros (y & x & Hf & Hb); exists y, x; (split; [done|]).
  - specialize (Habove y x Hf). unfold blocked in Hb. lia.
  - unfold blocked. lia.
Qed.

Lemma collision_spec_witness :
  (∀ y x : nat, filled_at (TETROS kO) y x → -5 + Z.of_nat y + 0 < 0) ∧
  (Board.collision stacked (Piece.mk kO (TETROS kO) 4 (-5) 0 false) 0 0
     (TETROS kO) = true ↔
   ∃ y x : nat, filled_at (TETROS kO) y x ∧
     (4 + Z.of_nat x + 0 < 0 ∨ 10 <= 4 + Z.of_nat x + 0)).
Proof.
  assert (∀ y x : nat, filled_at (TETROS kO) y x → -5 + Z.of_nat y + 0 < 0)
    as Habove.
  { intros y x (row & v & Hy & _). apply lookup_lt_Some in Hy.
    simpl in Hy. lia. }
  split; [exact Habove|].
  exact (proj2 (collision_spec stacked (Piece.mk kO (TETROS kO) 4 (-5) 0 false)
                  0 0 (TETROS kO)) Habove).
Defined.

(** C3. For a current piece other than O whose matrix is square, with
    orientation in 0..3 and [dir] 1 or -1, [rotate] computes the target
    orientation [(from + 1) mod 4] or [(from + 3) mod 4] and the turned
    matrix, in which the element of row [y], column [x] sits at row [x],
    column [n - 1 - y] for [dir = 1] and at row [n - 1 - x], column [y]
    for [dir = -1].  The table it reads, from the I table for the I
    kind and from the shared table for the others, is the one of the
    transition from the old to the target orientation, [kicksFor]; it has
    five kicks.  [rotate] applies the first kick at which the turned
    matrix does not collide: matrix, x, y and orientation are updated and
    the result is [true].  When every kick collides the result is [false]
    and the state is unchanged. *)
Theorem rotate_spec g dir :
  Piece.type (Game.current g) ≠ kO →
  Piece.rot (Game.current g) ∈ [0; 1; 2; 3] →
  dir ∈ [1; -1] →
  square (Piece.matrix (Game.current g)) →
  ∃ rotated table,
    let c := Game.current g in
    let n := length (Piece.matrix c) in
    let to := (Piece.rot c + (if decide (dir = 1) then 1 else 3)) `mod` 4 in
    rotateMatrix (Piece.matrix c) dir = Ret rotated ∧
    (length rotated = n ∧ square rotated ∧
     ∀ (y x : nat) v,
       cell_at (Piece.matrix c) y x = Some v →
       cell_at rotated
         (if decide (dir = 1) then x else (n - 1 - x)%nat)
         (if decide (dir = 1) then (n - 1 - y)%nat else y) = Some v) ∧
    (if decide (Piece.type c = kI) then KICKS_I else KICKS_default)
      !! Game.kick_key (Piece.rot c) to = Some table ∧
    table = kicksFor (Piece.type c) (Piece.rot c) to ∧
    length table = 5%nat ∧
    (∀ (i : nat) dx dy,
       table !! i = Some (dx, dy) →
       Board.collision (Game.board g) c dx dy rotated = false →
       (∀ (j : nat) dx' dy', (j < i)%nat → table !! j = Some (dx', dy') →
          Board.collision (Game.board g) c dx' dy' rotated = true) →
       ∃ g', Game.rotate g dir = Ret (Bool true, g') ∧
             Game.current g' =
               Piece.mk (Piece.type c) rotated (Piece.x c + dx)
                 (Piece.y c + dy) to (Piece.locked c) ∧
             Game.board g' = Game.board g) ∧
    ((∀ (j : nat) dx dy, table !! j = Some (dx, dy) →
        Board.collision (Game.board g) c dx dy rotated = true) →
     Game.rotate g dir = Ret (Bool false, g)).
Proof.
  intros HO Hrot Hdir Hsq.
  destruct (rotateMatrix_turn _ dir Hsq Hdir) as (rotated & Hr & Hl & Hs & Hc).
  set (kicks := if decide (Piece.type (Game.current g) = kI)
                then KICKS_I else KICKS_default).
  pose proof (kicks_lookup (Piece.type (Game.current g))
                (Piece.rot (Game.current g)) dir Hrot Hdir) as Hlook.
  destruct (kicks_present kicks (Piece.rot (Game.current g)) dir)
    as (table & Hlook' & Hlen & _); [|done|done|].
  { unfold kicks. case_decide; auto. }
  fold kicks in Hlook. rewrite Hlook' in Hlook. injection Hlook as Htable.
  exists rotated, table. cbn zeta.
  rewrite <- (target_orientation _ _ Hrot Hdir).
  set (to := Z.rem _ 4) in *.
  assert (Game.rotate g dir = Ret (Game.rotate_kicks g rotated to table))
    as Hrotate.
  { unfold Game.rotate. rewrite decide_False by done. rewrite Hr.
    cbn [mbind outcome_bind]. fold kicks. fold to. by rewrite Hlook'. }
  split; [done|]. split; [done|]. split; [done|]. split; [done|].
  split; [done|]. split.
  - intros i dx dy Hi Hfree Hprev. exists (kicked g rotated to dx dy).
    rewrite Hrotate, (rotate_kicks_first g rotated to table i dx dy) by done.
    split; [done|]. unfold kicked.
    by destruct (Board.collision _ _ 0 1 rotated).
  - intros Hall. by rewrite Hrotate, rotate_kicks_none.
Qed.

Lemma rotate_spec_witness :
  Piece.type (Game.current (opening kT)) ≠ kO ∧
  Piece.rot (Game.current (opening kT)) ∈ [0; 1; 2; 3] ∧
  1 ∈ [1; -1] ∧
  square (Piece.matrix (Game.current (opening kT))) ∧
  ∃ g', Game.rotate (opening kT) 1 = Ret (Bool true, g') ∧
        Game.current g' =
          Piece.mk kT [[0; 1; 0]; [0; 1; 1]; [0; 1; 0]] 3 (-2) 1 false.
Proof.
  assert (Piece.type (Game.current (opening kT)) ≠ kO) as H1
    by discriminate.
  assert (Piece.rot (Game.current (opening kT)) ∈ [0; 1; 2; 3]) as H2
    by repeat constructor.
  assert (1 ∈ [1; -1]) as H3 by repeat constructor.
  assert (square (Piece.matrix (Game.current (opening kT)))) as H4
    by (repeat constructor).
  split; [exact H1|]. split; [exact H2|]. split; [exact H3|].
  split; [exact H4|].
  destruct (rotate_spec (opening kT) 1 H1 H2 H3 H4)
    as (rotated & table & Hr & _ & _ & Htable & _ & Hfirst & _).
  vm_compute in Hr. injection Hr as <-.
  vm_compute in Htable. subst table.
  destruct (Hfirst 0%nat 0 0 eq_refl eq_refl) as (g' & Hg & Hc & _).
  { intros j dx' dy' Hj. lia. }
  exists g'. split; [exact Hg|exact Hc].
Defined.

(** C4. On a state whose board has the right shape, whose current piece
    lies between the walls and above the floor and whose queue is not
    empty, [lockDown] completes; when its
    [clearLines] call clears [n > 0] rows it adds
    [[0,100,300,500,800][n] * level] to the score, with the level held
    before the call, adds [n] to [lines], then sets
    [level = max(1, floor(lines / 10) + 1)] and
    [dropInterval = max(80, 1000 - (level - 1) * 70)]; when it clears
    none, score and lines are unchanged.  The curve gives level 1 and
    interval 1000 at 0 lines, 2 and 930 at 10 lines, 15 and 80 at 140
    lines. *)
Theorem lockDown_scoring rand fuel g u :
  unit_range rand → (40 < fuel)%nat → lockable g →
  ∃ grid1 p1 n grid2 g' u',
    Board.merge (Game.board g) (Game.current g) = Ret (grid1, p1) ∧
    Board.clearLines fuel grid1 = Ret (n, grid2) ∧
    Game.lockDown rand fuel g u = Ret (g', u') ∧
    0 <= n ∧
    (0 < n →
       Game.score g' = Game.score g + line_score (Z.to_nat n) * Game.level g ∧
       Game.lines g' = Game.lines g + n ∧
       Game.level g' = Z.max 1 (Game.lines g' / 10 + 1) ∧
       Game.dropInterval g' = Z.max 80 (1000 - (Game.level g' - 1) * 70)) ∧
    (n = 0 → Game.score g' = Game.score g ∧ Game.lines g' = Game.lines g) ∧
    line_score <$> [0; 1; 2; 3; 4]%nat = [0; 100; 300; 500; 800] ∧
    (let at_lines l := Game.setLevelByLines (Game.set_lines l g) in
     (Game.level (at_lines 0), Game.dropInterval (at_lines 0)) = (1, 1000) ∧
     (Game.level (at_lines 10), Game.dropInterval (at_lines 10)) = (2, 930) ∧
     (Game.level (at_lines 140), Game.dropInterval (at_lines 140)) = (15, 80)).
Proof.
  intros Hrand Hfuel Hg.
  destruct (lockDown_run rand Hrand fuel g u Hfuel Hg)
    as (grid1 & grid2 & g' & u' & Hm & Hc & Hl & _ & _ & Hlines & H0 & Hpos).
  exists grid1, (Game.lock (Game.current g)),
    (Z.of_nat (length (full_rows grid1))), grid2, g', u'.
  split; [done|]. split; [done|]. split; [done|]. split; [lia|].
  split; [|split; [|split; [done|by destruct g]]].
  - intros Hn. rewrite Nat2Z.id. destruct Hpos as (? & ? & ?); [lia|done].
  - intros Hn. destruct H0 as (? & ? & ?); [lia|]. split; [done|lia].
Qed.

Lemma closing_lockable : lockable closing.
Proof.
  split; [|by apply (collision_false_in_bounds gap_grid)|done].
  split; [done|]. unfold closing, gap_grid, gap_row. simpl.
  repeat constructor.
Defined.

Lemma lockDown_scoring_witness :
  unit_range halves ∧ (40 < 41)%nat ∧ lockable closing ∧
  ∃ g' u', Game.lockDown halves 41 closing 0 = Ret (g', u') ∧
           Game.score g' = 300 ∧ Game.lines g' = 2 ∧
           Game.level g' = 1 ∧ Game.dropInterval g' = 1000.
Proof.
  split; [exact halves_in_range|]. split; [lia|].
  split; [exact closing_lockable|].
  destruct (lockDown_scoring halves 41 closing 0 halves_in_range
              ltac:(lia) closing_lockable)
    as (grid1 & p1 & n & grid2 & g' & u' & Hm & Hc & Hl & _ & Hpos & _).
  vm_compute in Hm. injection Hm as <- <-.
  vm_compute in Hc. injection Hc as <- <-.
  destruct Hpos as (Hs & Hli & Hle & Hd); [lia|].
  exists g', u'. split; [exact Hl|].
  rewrite Hd, Hle, Hli, Hs. repeat split.
Defined.



(** C6, as the code has it.  In an [update(delta)] call on a game that is
    neither paused nor over, once the accumulated time reaches
    [dropInterval] the gravity step sets [elapsed] to 0 and calls
    [softDrop]: if the piece can move down one row it is moved, the score
    grows by 1, [grounded] is set to false and [lockTimer] to 0; if the
    move is blocked [grounded] is set to true.  It changes nothing
    else. *)
Theorem gravity_step rand fuel inp g delta u :
  Game.paused g = false → Game.over g = false →
  (inject_Z (Game.dropInterval g) <= Game.elapsed g + delta)%Q →
  let g1 := Game.update_timers g delta in
  let g2 :=
    if Board.collision (Game.board g1) (Game.current g1) 0 1
         (Piece.matrix (Game.current g1))
    then Game.set_grounded true (Game.set_elapsed 0%Q g1)
    else
      Game.set_lockTimer 0%Q
        (Game.set_grounded false
           (Game.set_score (Game.score g1 + 1)
              (Game.set_current (Game.translate (Game.current g1) 0 1)
                 (Game.set_elapsed 0%Q g1)))) in
  Game.update_gravity g1 = g2 ∧
  Game.update rand fuel inp g delta u =
    (g3 ← Game.update_shift fuel inp g2 delta;
     Game.update_lock rand fuel g3 delta u).
Proof.
  intros Hp Ho Hdue g1 g2.
  destruct (update_timers_frame g delta) as [He Hd].
  assert (Game.update_gravity g1 = g2) as Hg.
  { apply gravity_due. unfold g1. by rewrite He, Hd. }
  split; [done|]. unfold Game.update. rewrite Hp, Ho. cbn [orb].
  fold g1. by rewrite Hg.
Qed.

Lemma gravity_step_witness :
  Game.paused (opening kT) = false ∧ Game.over (opening kT) = false ∧
  (inject_Z (Game.dropInterval (opening kT)) <=
   Game.elapsed (opening kT) + 1000)%Q ∧
  Game.update_gravity (Game.update_timers (opening kT) 1000) =
  Game.set_lockTimer 0%Q
    (Game.set_grounded false
       (Game.set_score 1
          (Game.set_current (Piece.mk kT (TETROS kT) 3 (-1) 0 false)
             (Game.set_elapsed 0%Q
                (Game.update_timers (opening kT) 1000))))).
Proof.
  assert (inject_Z (Game.dropInterval (opening kT)) <=
          Game.elapsed (opening kT) + 1000)%Q as Hdue by discriminate.
  split; [reflexivity|]. split; [reflexivity|]. split; [exact Hdue|].
  exact (proj1 (gravity_step halves 1 idle (opening kT) 1000 0
                  eq_refl eq_refl Hdue)).
Defined.

(** C6 as stated fails: the gravity step of a piece that is free to fall
    raises the score from 0 to 1. *)
Lemma gravity_scores :
  Game.paused (opening kT) = false ∧ Game.over (opening kT) = false ∧
  (inject_Z (Game.dropInterval (opening kT)) <=
   Game.elapsed (opening kT) + 1000)%Q ∧
  Game.score (opening kT) = 0 ∧
  Game.score (Game.update_gravity (Game.update_timers (opening kT) 1000))
    = 1 ∧
  Game.score <$> final (Game.update halves 1 idle (opening kT) 1000 0)
    = Some 1.
Proof.
  split; [reflexivity|]. split; [reflexivity|]. split; [discriminate|].
  split; [reflexivity|]. split; vm_compute; reflexivity.
Qed.

(** C7.  On a fresh O piece on the empty board [rotate(1)] leaves the
    whole state, the piece's matrix, position and orientation included,
    unchanged, as the claim says.  But it returns through the bare
    [return;] of line 220, so its value is [undefined] and not the
    [false] with which the same function reports, at line 235, that no
    rotation took place. *)
Theorem rotate_O_undefined :
  Piece.type (Game.current (opening kO)) = kO ∧
  Game.rotate (opening kO) 1 = Ret (Undefined, opening kO) ∧
  Game.rotate (opening kO) 1 ≠ Ret (Bool false, opening kO).
Proof.
  split; [reflexivity|]. rewrite (rotate_O_exit (opening kO) 1 eq_refl).
  split; [reflexivity|discriminate].
Qed.

(** C8. Whatever values in [0, 1) [Math.random()] returns, the seven
    [next()] calls that start on an empty pool return the seven kinds,
    each exactly once, and leave the pool empty again. *)
Theorem bag_window rand t :
  unit_range rand →
  ∃ ks t', Bag.draw rand 7 [] t = Ret (ks, [], t') ∧
           ks ≡ₚ [kS; kZ; kL; kJ; kT; kO; kI] ∧ NoDup ks.
Proof.
  intros Hrand. destruct (draw_bag rand Hrand t) as (ks & Hd & Hp).
  exists ks, (t + 6)%nat. split; [done|]. split; [done|].
  rewrite Hp. by apply (bool_decide_unpack (NoDup Bag.fresh)).
Qed.

Lemma bag_window_witness :
  unit_range halves ∧
  ∃ ks t', Bag.draw halves 7 [] 0 = Ret (ks, [], t') ∧
           ks ≡ₚ [kS; kZ; kL; kJ; kT; kO; kI] ∧ NoDup ks.
Proof.
  split; [exact halves_in_range|exact (bag_window halves 0 halves_in_range)].
Defined.

(** C9. For an orientation in 0..3 and [dir] 1 or -1 the key that
    [rotate] builds is a key of both kick tables, so the [|| [[0,0]]]
    fallback is not taken; every entry of both tables has five offsets,
    the first of which is (0,0). *)
Theorem kicks_closed from dir :
  from ∈ [0; 1; 2; 3] → dir ∈ [1; -1] →
  let key :=
    Game.kick_key from (Z.rem (from + (if dir >? 0 then 1 else 3)) 4) in
  (∃ shared own,
     KICKS_default !! key = Some shared ∧ KICKS_I !! key = Some own ∧
     default [(0, 0)] (KICKS_default !! key) = shared ∧
     default [(0, 0)] (KICKS_I !! key) = own) ∧
  map_Forall (λ _ table, length table = 5%nat ∧ table !! 0%nat = Some (0, 0))
    KICKS_default ∧
  map_Forall (λ _ table, length table = 5%nat ∧ table !! 0%nat = Some (0, 0))
    KICKS_I.
Proof.
  intros Hfrom Hdir key.
  destruct (kicks_present KICKS_default from dir) as (shared & Hs & _);
    [auto|done|done|].
  destruct (kicks_present KICKS_I from dir) as (own & Ho & _);
    [auto|done|done|].
  fold key in Hs, Ho. split.
  - exists shared, own. by rewrite Hs, Ho.
  - split; apply kicks_tables; auto.
Qed.

Lemma kicks_closed_witness :
  3 ∈ [0; 1; 2; 3] ∧ 1 ∈ [1; -1] ∧
  ∃ shared own,
    KICKS_default !! "3>0" = Some shared ∧ KICKS_I !! "3>0" = Some own ∧
    default [(0, 0)] (KICKS_default !! "3>0") = shared ∧
    default [(0, 0)] (KICKS_I !! "3>0") = own.
Proof.
  assert (3 ∈ [0; 1; 2; 3]) as H1 by repeat constructor.
  assert (1 ∈ [1; -1]) as H2 by repeat constructor.
  split; [exact H1|]. split; [exact H2|].
  exact (proj1 (kicks_closed 3 1 H1 H2)).
Defined.

(** C10. Every grid reached from the initial one by [merge] calls on
    pieces that do not collide and by [clearLines] calls has 20 rows of 10
    cells, each cell empty or one of the seven kinds; on such a grid
    [merge] of a piece that does not collide writes only inside the grid
    and completes, and [clearLines] completes. *)
Theorem grid_invariant grid :
  reachable grid →
  wf_grid grid ∧
  (∀ row c, row ∈ grid → c ∈ row →
     c = Empty ∨ ∃ k, c = Block k ∧ k ∈ [kS; kZ; kL; kJ; kT; kO; kI]) ∧
  (∀ p, Board.collision grid p 0 0 (Piece.matrix p) = false →
     in_bounds p 0 0 (Piece.matrix p) ∧
     ∃ grid' p', Board.merge grid p = Ret (grid', p') ∧ wf_grid grid') ∧
  (∀ fuel, (40 < fuel)%nat →
     ∃ n grid', Board.clearLines fuel grid = Ret (n, grid') ∧ wf_grid grid').
Proof.
  intros Hreach.
  assert (wf_grid grid) as Hwf.
  { induction Hreach as [|grid p grid' p' _ IH Hcol Hm
                          |grid fuel n grid' _ IH Hc].
    - split; [done|]. unfold Board.init. apply Forall_replicate. done.
    - destruct (merge_wf grid p IH) as (grid1 & Hm1 & Hwf1).
      { by eapply collision_false_in_bounds. }
      rewrite Hm in Hm1. by injection Hm1 as -> _.
    - destruct (decide (40 < fuel)%nat) as [Hfuel|Hfuel].
      + destruct (clearLines_wf grid fuel IH Hfuel)
          as (n1 & grid1 & Hc1 & Hwf1).
        rewrite Hc in Hc1. by injection Hc1 as _ ->.
      + pose proof (clearLines_loop_mono fuel (fuel + 41) _ _ _ _
                      ltac:(lia) Hc) as Hc'.
        destruct (clearLines_wf grid (fuel + 41) IH)
          as (n1 & grid1 & Hc1 & Hwf1); [lia|].
        unfold Board.clearLines in Hc1. rewrite Hc' in Hc1.
        by injection Hc1 as _ ->. }
  split; [done|]. split; [|split].
  - intros row c _ _. destruct c as [|k]; [by left|right].
    exists k. split; [done|]. destruct k; repeat constructor.
  - intros p Hcol.
    pose proof (collision_false_in_bounds _ _ _ _ _ Hcol) as Hb.
    split; [done|].
    destruct (merge_wf grid p Hwf Hb) as (grid1 & Hm1 & Hwf1). eauto.
  - intros fuel Hfuel. by apply clearLines_wf.
Qed.

Lemma grid_invariant_witness :
  reachable Board.init ∧ wf_grid Board.init ∧
  ∃ grid' p', Board.merge Board.init (Piece.new kT) = Ret (grid', p') ∧
              wf_grid grid'.
Proof.
  split; [exact reach_init|].
  destruct (grid_invariant Board.init reach_init) as (Hwf & _ & Hmerge & _).
  split; [exact Hwf|].
  destruct (Hmerge (Piece.new kT) eq_refl) as (_ & Hm). exact Hm.
Defined.

(** * Further properties of the code *)

(** ** The speed curve *)

(** X1. [setLevelByLines] always leaves a level of at least 1 and a drop
    interval between 80 and 1000 ms, and the interval is at its floor of 80
    exactly from 140 lines on. *)
Theorem speed_curve_bounds g :
  1 <= Game.level (Game.setLevelByLines g) ∧
  80 <= Game.dropInterval (Game.setLevelByLines g) <= 1000 ∧
  (Game.dropInterval (Game.setLevelByLines g) = 80 ↔ 140 <= Game.lines g).
Proof.
  destruct g; simpl.
  pose proof (Z.div_mod lines 10 ltac:(lia)).
  pose proof (Z.mod_pos_bound lines 10 ltac:(lia)). lia.
Qed.

(** X2. More lines never lower the level and never lengthen the drop
    interval. *)
Theorem speed_curve_monotone g1 g2 :
  Game.lines g1 <= Game.lines g2 →
  Game.level (Game.setLevelByLines g1) <= Game.level (Game.setLevelByLines g2) ∧
  Game.dropInterval (Game.setLevelByLines g2) <=
    Game.dropInterval (Game.setLevelByLines g1).
Proof.
  intros Hle. destruct g1, g2; simpl in *.
  pose proof (Z.div_le_mono _ _ 10 ltac:(lia) Hle). lia.
Qed.

Lemma speed_curve_monotone_witness :
  Game.lines (opening kT) <= Game.lines (Game.set_lines 57 (opening kT)) ∧
  Game.level (Game.setLevelByLines (opening kT)) <=
    Game.level (Game.setLevelByLines (Game.set_lines 57 (opening kT))) ∧
  Game.dropInterval (Game.setLevelByLines (Game.set_lines 57 (opening kT))) <=
    Game.dropInterval (Game.setLevelByLines (opening kT)).
Proof.
  assert (Game.lines (opening kT) <=
          Game.lines (Game.set_lines 57 (opening kT))) as H by discriminate.
  split; [exact H|].
  exact (speed_curve_monotone (opening kT) (Game.set_lines 57 (opening kT)) H).
Defined.

(** ** Line clearing, continued *)

Lemma every_empty_row : Board.every empty_row = false.
Proof. done. Qed.

Lemma full_rows_settled grid :
  full_rows (replicate (length (full_rows grid)) empty_row ++ kept_rows grid)
  = [].
Proof.
  rewrite full_rows_app.
  assert (∀ n, full_rows (replicate n empty_row) = []) as ->.
  { induction n as [|n IH]; [done|]. cbn [replicate]. unfold full_rows in *.
    cbn [List.filter]. by rewrite every_empty_row. }
  simpl. unfold full_rows, kept_rows.
  induction grid as [|row grid IH]; [done|]. simpl.
  destruct (Board.every row) eqn:Hrow; simpl; [done|]. by rewrite Hrow.
Qed.

Lemma kept_rows_settled grid : full_rows grid = [] → kept_rows grid = grid.
Proof.
  unfold full_rows, kept_rows. induction grid as [|row grid IH]; [done|].
  simpl. destruct (Board.every row); simpl; [done|]. intros H. by rewrite IH.
Qed.

(** X3. On a grid of 20 rows [clearLines] clears at most 20 rows, leaves
    no full row behind, and a second call right after it clears nothing
    and changes nothing. *)
Theorem clearLines_settles grid fuel :
  length grid = 20%nat → (40 < fuel)%nat →
  ∃ n grid',
    Board.clearLines fuel grid = Ret (n, grid') ∧
    0 <= n <= 20 ∧ length grid' = 20%nat ∧
    Forall (λ row, Board.every row = false) grid' ∧
    Board.clearLines fuel grid' = Ret (0, grid').
Proof.
  intros Hlen Hfuel.
  set (grid' := replicate (length (full_rows grid)) empty_row ++ kept_rows grid).
  assert (length grid' = 20%nat) as Hlen'.
  { unfold grid'. by rewrite length_app, length_replicate, rows_partition. }
  pose proof (full_rows_settled grid) as Hnone. fold grid' in Hnone.
  exists (Z.of_nat (length (full_rows grid))), grid'.
  split; [by apply clearLines_eq|].
  pose proof (rows_partition grid). split; [lia|]. split; [done|]. split.
  - apply Forall_forall. intros row Hin.
    destruct (Board.every row) eqn:Hrow; [|done].
    assert (row ∈ full_rows grid') as Hfull.
    { apply list_elem_of_In, List.filter_In. split; [|done].
      by apply list_elem_of_In. }
    rewrite Hnone in Hfull. by apply elem_of_nil in Hfull.
  - rewrite (clearLines_eq grid' fuel Hlen' Hfuel), Hnone. simpl.
    by rewrite kept_rows_settled.
Qed.

Lemma clearLines_settles_witness :
  length stacked = 20%nat ∧ (40 < 41)%nat ∧
  ∃ n grid',
    Board.clearLines 41 stacked = Ret (n, grid') ∧
    0 <= n <= 20 ∧ length grid' = 20%nat ∧
    Forall (λ row, Board.every row = false) grid' ∧
    Board.clearLines 41 grid' = Ret (0, grid').
Proof.
  split; [reflexivity|]. split; [lia|].
  exact (clearLines_settles stacked 41 eq_refl ltac:(lia)).
Defined.

(** ** Moving the current piece *)

Lemma collision_moved grid p p' dx dy ox oy mat :
  Piece.x p' = Piece.x p + dx → Piece.y p' = Piece.y p + dy →
  Board.collision grid p' ox oy mat = Board.collision grid p (dx + ox) (dy + oy) mat.
Proof.
  intros Hx Hy. apply bool_eq_iff. rewrite !collision_blocked, Hx, Hy.
  split; intros (y & x & Hf & Hb); exists y, x; (split; [done|]).
  - by replace (Piece.x p + Z.of_nat x + (dx + ox))
      with (Piece.x p + dx + Z.of_nat x + ox) by lia;
    replace (Piece.y p + Z.of_nat y + (dy + oy))
      with (Piece.y p + dy + Z.of_nat y + oy) by lia.
  - by replace (Piece.x p + dx + Z.of_nat x + ox)
      with (Piece.x p + Z.of_nat x + (dx + ox)) by lia;
    replace (Piece.y p + dy + Z.of_nat y + oy)
      with (Piece.y p + Z.of_nat y + (dy + oy)) by lia.
Qed.

Lemma move_effect g dx :
  resting g →
  resting (Game.move g dx) ∧
  Game.board (Game.move g dx) = Game.board g ∧
  Game.score (Game.move g dx) = Game.score g ∧
  Game.current (Game.move g dx) =
    (if Board.collision (Game.board g) (Game.current g) dx 0
          (Piece.matrix (Game.current g))
     then Game.current g
     else Game.translate (Game.current g) dx 0).
Proof.
  unfold resting, Game.move. intros Hrest.
  destruct (Board.collision (Game.board g) (Game.current g) dx 0 _) eqn:Hc;
    cbn [negb]; [done|].
  assert (resting (Game.set_current (Game.translate (Game.current g) dx 0) g))
    as Hnew.
  { unfold resting. rewrite current_set_current, board_set_current.
    change (Piece.matrix (Game.translate ?p _ _)) with (Piece.matrix p).
    rewrite (collision_moved _ (Game.current g) _ dx 0) by done.
    by replace (dx + 0) with dx by lia. }
  unfold resting in Hnew.
  match goal with |- context [if ?c then _ else _] => destruct c end;
    by destruct g.
Qed.

(** X4. [move(dx)] on a piece that overlaps nothing leaves a piece that
    overlaps nothing: the piece is shifted by [dx] when that position is
    free and stays where it is otherwise; matrix, row, board and score
    are untouched. *)
Theorem move_keeps_clear g dx :
  resting g →
  resting (Game.move g dx) ∧
  Game.board (Game.move g dx) = Game.board g ∧
  Game.score (Game.move g dx) = Game.score g ∧
  Game.current (Game.move g dx) =
    (if Board.collision (Game.board g) (Game.current g) dx 0
          (Piece.matrix (Game.current g))
     then Game.current g
     else Game.translate (Game.current g) dx 0).
Proof. apply move_effect. Qed.

Lemma move_keeps_clear_witness :
  resting (opening kT) ∧
  Game.current (Game.move (opening kT) (-1)) =
    Piece.mk kT (TETROS kT) 2 (-2) 0 false ∧
  resting (Game.move (opening kT) (-1)).
Proof.
  assert (resting (opening kT)) as H by reflexivity.
  destruct (move_keeps_clear (opening kT) (-1) H) as (Hr & _ & _ & Hc).
  split; [exact H|]. split; [exact Hc|exact Hr].
Defined.

Lemma softDrop_effect g :
  resting g →
  let blocked_below :=
    Board.collision (Game.board g) (Game.current g) 0 1
      (Piece.matrix (Game.current g)) in
  (Game.softDrop g).1 = negb blocked_below ∧
  resting (Game.softDrop g).2 ∧
  Game.board (Game.softDrop g).2 = Game.board g ∧
  Game.score (Game.softDrop g).2 =
    Game.score g + (if blocked_below then 0 else 1) ∧
  Game.current (Game.softDrop g).2 =
    (if blocked_below then Game.current g
     else Game.translate (Game.current g) 0 1) ∧
  (blocked_below = true → (Game.softDrop g).2 = Game.set_grounded true g).
Proof.
  unfold resting, Game.softDrop. intros Hrest. cbn zeta.
  destruct (Board.collision (Game.board g) (Game.current g) 0 1 _) eqn:Hc;
    cbn [negb fst snd].
  - destruct g; simpl in *. repeat split; (done || lia).
  - assert (Board.collision (Game.board g)
              (Game.translate (Game.current g) 0 1) 0 0
              (Piece.matrix (Game.current g)) = false) as Hnew.
    { rewrite (collision_moved _ (Game.current g) _ 0 1) by done. done. }
    destruct g; simpl in *. repeat split; done.
Qed.

(** X5. [softDrop()] on a piece that overlaps nothing: when the row below
    is free it returns [true], the piece is one row lower and still
    overlaps nothing, and the score grew by 1; otherwise it returns
    [false] and only sets [grounded].  The board is untouched either
    way. *)
Theorem softDrop_keeps_clear g :
  resting g →
  let blocked_below :=
    Board.collision (Game.board g) (Game.current g) 0 1
      (Piece.matrix (Game.current g)) in
  (Game.softDrop g).1 = negb blocked_below ∧
  resting (Game.softDrop g).2 ∧
  Game.board (Game.softDrop g).2 = Game.board g ∧
  Game.score (Game.softDrop g).2 =
    Game.score g + (if blocked_below then 0 else 1) ∧
  Game.current (Game.softDrop g).2 =
    (if blocked_below then Game.current g
     else Game.translate (Game.current g) 0 1) ∧
  (blocked_below = true → (Game.softDrop g).2 = Game.set_grounded true g).
Proof. apply softDrop_effect. Qed.

Lemma softDrop_keeps_clear_witness :
  resting (opening kT) ∧
  (Game.softDrop (opening kT)).1 = true ∧
  Game.score (Game.softDrop (opening kT)).2 = 1 ∧
  resting (Game.softDrop (opening kT)).2.
Proof.
  assert (resting (opening kT)) as H by reflexivity.
  destruct (softDrop_keeps_clear (opening kT) H) as (Hv & Hr & _ & Hs & _).
  split; [exact H|]. split; [exact Hv|]. split; [exact Hs|exact Hr].
Defined.

(** ** What [rotateMatrix] computes, continued *)

(** X6. On a square matrix [rotateMatrix] completes with a matrix of the
    same size in which the element read at row [y], column [x] sits at
    row [x], column [n - 1 - y] for a clockwise turn ([dir > 0]) and at
    row [n - 1 - x], column [y] otherwise. *)
Theorem rotateMatrix_cells m dir :
  square m →
  ∃ rotated,
    rotateMatrix m dir = Ret rotated ∧
    length rotated = length m ∧ square rotated ∧
    ∀ (y x : nat) v,
      cell_at m y x = Some v →
      cell_at rotated
        (if dir >? 0 then x else (length m - 1 - x)%nat)
        (if dir >? 0 then (length m - 1 - y)%nat else y) = Some v.
Proof.
  intros Hsq.
  destruct (rotateMatrix_content m dir Hsq) as (rotated & Hr & [Hl Hrows] & Hc).
  exists rotated. split; [done|]. split; [done|]. split.
  { unfold square. by rewrite Hl. }
  intros y x v Hv. unfold cell_at in Hv.
  destruct (m !! y) as [row|] eqn:Hrow; [|done]. simpl in Hv.
  exact (Hc y x row v Hrow Hv).
Qed.

Lemma rotateMatrix_cells_witness :
  square (TETROS kL) ∧
  ∃ rotated,
    rotateMatrix (TETROS kL) 1 = Ret rotated ∧
    cell_at rotated 0 2 = Some 1 ∧ cell_at rotated 0 1 = Some 1.
Proof.
  assert (square (TETROS kL)) as H by repeat constructor.
  split; [exact H|].
  destruct (rotateMatrix_cells (TETROS kL) 1 H) as (rotated & Hr & _ & _ & Hc).
  exists rotated. split; [exact Hr|].
  split; [exact (Hc 0%nat 0%nat 1 eq_refl)|exact (Hc 1%nat 0%nat 1 eq_refl)].
Defined.

(** X7. Turning a square matrix one way and then the other way gives the
    matrix back, and so do four turns the same way. *)
Theorem rotateMatrix_round_trip m dir back :
  square m → (0 <? dir) = negb (0 <? back) →
  (rotateMatrix m dir ≫= λ r, rotateMatrix r back) = Ret m ∧
  (rotateMatrix m dir ≫= λ r1, rotateMatrix r1 dir ≫= λ r2,
   rotateMatrix r2 dir ≫= λ r3, rotateMatrix r3 dir) = Ret m.
Proof.
  intros Hsq Hopp. set (n := length m).
  assert (∀ a d, square a → length a = n →
            ∃ r, rotateMatrix a d = Ret r ∧ square r ∧ length r = n ∧
              ∀ (y x : nat), (y < n)%nat → (x < n)%nat →
                cell_at r (turned_row d n x) (turned_col d n y) = cell_at a y x)
    as Hturn.
  { intros a d Ha Hla.
    destruct (rotateMatrix_content a d Ha) as (r & Hr & [Hl Hrows] & Hc).
    rewrite Hla in *. exists r. split; [done|].
    split; [unfold square; by rewrite Hl|]. split; [done|].
    intros y x Hy Hx.
    destruct (square_cell a y x Ha) as (row & v & Hrow & Hv); [lia..|].
    rewrite (Hc y x row v Hrow Hv). unfold cell_at. by rewrite Hrow. }
  assert (∀ a b : list (list Z), square a → length a = n → square b →
            length b = n →
            (∀ r c, (r < n)%nat → (c < n)%nat → cell_at a r c = cell_at b r c) →
            a = b) as Hext.
  { intros a b Ha Hla Hb Hlb. apply shaped_eq; try done.
    - unfold square in Ha. by rewrite Hla in Ha.
    - unfold square in Hb. by rewrite Hlb in Hb. }
  split.
  - destruct (Hturn m dir Hsq eq_refl) as (r1 & -> & Hs1 & Hl1 & Hc1).
    cbn [mbind outcome_bind].
    destruct (Hturn r1 back Hs1 Hl1) as (r2 & -> & Hs2 & Hl2 & Hc2).
    f_equal. apply Hext; try done. intros r c Hr Hc.
    unfold turned_row, turned_col in Hc1, Hc2.
    rewrite Z.gtb_ltb in Hc1. rewrite Z.gtb_ltb in Hc2.
    rewrite Hopp in Hc1. destruct (0 <? back); simpl in Hc1.
    + rewrite <- (Hc1 r c Hr Hc).
      rewrite <- (Hc2 (n - 1 - c)%nat r ltac:(lia) Hr).
      f_equal; lia.
    + rewrite <- (Hc1 r c Hr Hc).
      rewrite <- (Hc2 c (n - 1 - r)%nat Hc ltac:(lia)).
      f_equal; lia.
  - destruct (Hturn m dir Hsq eq_refl) as (r1 & -> & Hs1 & Hl1 & Hc1).
    cbn [mbind outcome_bind].
    destruct (Hturn r1 dir Hs1 Hl1) as (r2 & -> & Hs2 & Hl2 & Hc2).
    cbn [mbind outcome_bind].
    destruct (Hturn r2 dir Hs2 Hl2) as (r3 & -> & Hs3 & Hl3 & Hc3).
    cbn [mbind outcome_bind].
    destruct (Hturn r3 dir Hs3 Hl3) as (r4 & -> & Hs4 & Hl4 & Hc4).
    f_equal. apply Hext; try done. intros r c Hr Hc.
    unfold turned_row, turned_col in *.
    destruct (dir >? 0).
    + rewrite <- (Hc1 r c Hr Hc).
      rewrite <- (Hc2 c (n - 1 - r)%nat Hc ltac:(lia)).
      rewrite <- (Hc3 (n - 1 - r)%nat (n - 1 - c)%nat ltac:(lia) ltac:(lia)).
      rewrite <- (Hc4 (n - 1 - c)%nat (n - 1 - (n - 1 - r))%nat
                    ltac:(lia) ltac:(lia)).
      f_equal; lia.
    + rewrite <- (Hc1 r c Hr Hc).
      rewrite <- (Hc2 (n - 1 - c)%nat r ltac:(lia) Hr).
      rewrite <- (Hc3 (n - 1 - r)%nat (n - 1 - c)%nat ltac:(lia) ltac:(lia)).
      rewrite <- (Hc4 (n - 1 - (n - 1 - c))%nat (n - 1 - r)%nat
                    ltac:(lia) ltac:(lia)).
      f_equal; lia.
Qed.

Lemma rotateMatrix_round_trip_witness :
  square (TETROS kJ) ∧ (0 <? 1) = negb (0 <? -1) ∧
  (rotateMatrix (TETROS kJ) 1 ≫= λ r, rotateMatrix r (-1)) = Ret (TETROS kJ).
Proof.
  assert (square (TETROS kJ)) as H by repeat constructor.
  split; [exact H|]. split; [reflexivity|].
  exact (proj1 (rotateMatrix_round_trip (TETROS kJ) 1 (-1) H eq_refl)).
Defined.

(** ** Rotation keeps the piece clear *)

Lemma rotate_kicks_effect g rotated to : ∀ table,
  Game.rotate_kicks g rotated to table = (Bool false, g) ∨
  ∃ dx dy,
    Board.collision (Game.board g) (Game.current g) dx dy rotated = false ∧
    Game.rotate_kicks g rotated to table =
      (Bool true, kicked g rotated to dx dy).
Proof.
  induction table as [|[dx dy] rest IH]; cbn [Game.rotate_kicks];
    [by left|].
  destruct (Board.collision (Game.board g) (Game.current g) dx dy rotated)
    eqn:Hc; cbn [negb]; [exact IH|].
  right. exists dx, dy. split; [done|]. unfold kicked.
  rewrite current_set_current, board_set_current.
  by destruct (Board.collision _ _ 0 1 _).
Qed.

Lemma kicked_fields g rotated to dx dy :
  Game.board (kicked g rotated to dx dy) = Game.board g ∧
  Game.current (kicked g rotated to dx dy) =
    Piece.mk (Piece.type (Game.current g)) rotated
      (Piece.x (Game.current g) + dx) (Piece.y (Game.current g) + dy) to
      (Piece.locked (Game.current g)) ∧
  Game.score (kicked g rotated to dx dy) = Game.score g ∧
  Game.over (kicked g rotated to dx dy) = Game.over g ∧
  Game.nextQ (kicked g rotated to dx dy) = Game.nextQ g ∧
  Game.lines (kicked g rotated to dx dy) = Game.lines g ∧
  Game.level (kicked g rotated to dx dy) = Game.level g ∧
  Game.dropInterval (kicked g rotated to dx dy) = Game.dropInterval g.
Proof.
  unfold kicked. rewrite current_set_current, board_set_current.
  destruct (Board.collision _ _ 0 1 _); by destruct g.
Qed.

Lemma kicked_clear g rotated to dx dy :
  Board.collision (Game.board g) (Game.current g) dx dy rotated = false →
  resting (kicked g rotated to dx dy).
Proof.
  intros Hc. unfold resting.
  destruct (kicked_fields g rotated to dx dy) as (-> & -> & _).
  cbn [Piece.matrix].
  rewrite (collision_moved _ (Game.current g) _ dx dy) by done.
  by replace (dx + 0) with dx by lia; replace (dy + 0) with dy by lia.
Qed.

Lemma rotate_effect g dir :
  square (Piece.matrix (Game.current g)) → resting g →
  ∃ v g',
    Game.rotate g dir = Ret (v, g') ∧
    resting g' ∧ square (Piece.matrix (Game.current g')) ∧
    length (Piece.matrix (Game.current g')) =
      length (Piece.matrix (Game.current g)) ∧
    Game.board g' = Game.board g ∧ Game.score g' = Game.score g ∧
    (v = Bool true ∨ g' = g).
Proof.
  intros Hsq Hrest. unfold Game.rotate.
  destruct (decide (Piece.type (Game.current g) = kO)) as [HO|HO].
  { exists Undefined, g. repeat split; (done || by right). }
  destruct (rotateMatrix_content _ dir Hsq) as (rotated & -> & [Hl Hrows] & _).
  cbn [mbind outcome_bind].
  match goal with |- context [Game.rotate_kicks g rotated ?t ?tb] =>
    destruct (rotate_kicks_effect g rotated t tb)
      as [->|(dx & dy & Hc & ->)] end.
  - exists (Bool false), g. repeat split; (done || by right).
  - eexists _, _. split; [reflexivity|].
    split; [by apply kicked_clear|].
    destruct (kicked_fields g rotated
                ((Piece.rot (Game.current g) + (if dir >? 0 then 1 else 3))
                 `rem` 4) dx dy) as (Hb & Hcur & Hs & _).
    rewrite Hb, Hcur, Hs. cbn [Piece.matrix].
    split; [unfold square; by rewrite Hl|]. repeat split; (done || by left).
Qed.

(** X8. [rotate(dir)] on a piece with a square matrix that overlaps
    nothing completes and leaves a piece that overlaps nothing, with a
    square matrix of the same size; the board and the score are
    untouched, and unless it returns [true] the whole state is
    unchanged. *)
Theorem rotate_keeps_clear g dir :
  square (Piece.matrix (Game.current g)) → resting g →
  ∃ v g',
    Game.rotate g dir = Ret (v, g') ∧
    resting g' ∧ square (Piece.matrix (Game.current g')) ∧
    length (Piece.matrix (Game.current g')) =
      length (Piece.matrix (Game.current g)) ∧
    Game.board g' = Game.board g ∧ Game.score g' = Game.score g ∧
    (v = Bool true ∨ g' = g).
Proof. apply rotate_effect. Qed.

Lemma rotate_keeps_clear_witness :
  square (Piece.matrix (Game.current (opening kS))) ∧
  resting (opening kS) ∧
  ∃ v g', Game.rotate (opening kS) (-1) = Ret (v, g') ∧ resting g'.
Proof.
  assert (square (Piece.matrix (Game.current (opening kS)))) as H1
    by repeat constructor.
  assert (resting (opening kS)) as H2 by reflexivity.
  split; [exact H1|]. split; [exact H2|].
  destruct (rotate_keeps_clear (opening kS) (-1) H1 H2)
    as (v & g' & Hr & Hc & _).
  exists v, g'. split; [exact Hr|exact Hc].
Defined.

(** ** The ghost row *)

Lemma ghostY_loop_run : ∀ (n fuel : nat) g (k : nat),
  (n < fuel)%nat →
  (∀ i : nat, (i < n)%nat →
     Board.collision (Game.board g) (Game.current g) 0
       (Z.of_nat (k + i) + 1) (Piece.matrix (Game.current g)) = false) →
  Board.collision (Game.board g) (Game.current g) 0 (Z.of_nat (k + n) + 1)
    (Piece.matrix (Game.current g)) = true →
  Game.ghostY_loop fuel g (Piece.y (Game.current g) + Z.of_nat k) =
  Ret (Piece.y (Game.current g) + Z.of_nat (k + n)).
Proof.
  induction n as [|n IH]; intros fuel g k Hfuel Hfree Hhit;
    (destruct fuel as [|fuel]; [lia|]); cbn [Game.ghostY_loop];
    replace (Piece.y (Game.current g) + Z.of_nat k - Piece.y (Game.current g) + 1)
      with (Z.of_nat k + 1) by lia.
  - replace (k + 0)%nat with k in * by lia. by rewrite Hhit.
  - pose proof (Hfree 0%nat ltac:(lia)) as H0.
    replace (k + 0)%nat with k in H0 by lia. rewrite H0. cbn [negb].
    replace (Piece.y (Game.current g) + Z.of_nat k + 1)
      with (Piece.y (Game.current g) + Z.of_nat (S k)) by lia.
    rewrite IH; [do 2 f_equal; lia|lia| |].
    + intros i Hi. replace (S k + i)%nat with (k + S i)%nat by lia.
      apply Hfree. lia.
    + by replace (S k + n)%nat with (k + S n)%nat by lia.
Qed.

(** X9. When the current matrix has a filled cell, [ghostY()] completes
    without changing anything and returns the row at which the hard-drop
    loop leaves the piece: the piece's row plus the distance fallen, which
    is at most the height left below the piece's origin. *)
Theorem ghostY_is_landing_row g fuel :
  (∃ y x, filled_at (Piece.matrix (Game.current g)) y x) →
  Z.max 0 (20 - Piece.y (Game.current g)) < Z.of_nat fuel →
  ∃ gy g' dist,
    Game.ghostY fuel g = Ret gy ∧
    Game.hardDrop_loop fuel g 0 = Ret (g', dist) ∧
    Piece.y (Game.current g') = gy ∧
    gy = Piece.y (Game.current g) + dist ∧
    0 <= dist <= Z.max 0 (20 - Piece.y (Game.current g)) ∧
    Board.collision (Game.board g) (Game.current g) 0 (dist + 1)
      (Piece.matrix (Game.current g)) = true.
Proof.
  intros Hcell Hfuel.
  destruct (drop_distance (Game.board g) (Game.current g) Hcell)
    as (n & Hbound & Hfree & Hhit).
  exists (Piece.y (Game.current g) + Z.of_nat n),
    (Game.set_current (Game.translate (Game.current g) 0 (Z.of_nat n)) g),
    (Z.of_nat n).
  split.
  - unfold Game.ghostY.
    pose proof (ghostY_loop_run n fuel g 0 ltac:(lia)) as Hrun.
    replace (Piece.y (Game.current g) + Z.of_nat 0)
      with (Piece.y (Game.current g)) in Hrun by lia.
    apply Hrun; [intros i Hi; by apply Hfree|done].
  - split; [|split; [done|split; [done|split; [lia|done]]]].
    by rewrite (hardDrop_loop_run n fuel g 0 ltac:(lia) Hfree Hhit).
Qed.

Lemma ghostY_is_landing_row_witness :
  (∃ y x, filled_at (Piece.matrix (Game.current closing)) y x) ∧
  Z.max 0 (20 - Piece.y (Game.current closing)) < Z.of_nat 5 ∧
  ∃ gy g' dist,
    Game.ghostY 5 closing = Ret gy ∧
    Game.hardDrop_loop 5 closing 0 = Ret (g', dist) ∧
    Piece.y (Game.current g') = gy.
Proof.
  assert (∃ y x, filled_at (Piece.matrix (Game.current closing)) y x) as H1.
  { exists 0%nat, 0%nat, [1; 1], 1. repeat split. discriminate. }
  assert (Z.max 0 (20 - Piece.y (Game.current closing)) < Z.of_nat 5) as H2
    by reflexivity.
  split; [exact H1|]. split; [exact H2|].
  destruct (ghostY_is_landing_row closing 5 H1 H2)
    as (gy & g' & dist & Hg & Hd & Hy & _).
  exists gy, g', dist. split; [exact Hg|]. split; [exact Hd|exact Hy].
Defined.

(** ** What [merge] writes *)

Lemma store_cells grid (r c : nat) k :
  wf_grid grid → (r < 20)%nat → (c < 10)%nat →
  ∃ grid',
    Board.store grid (Z.of_nat r) (Z.of_nat c) k = Ret grid' ∧
    wf_grid grid' ∧
    ∀ r' c', cell_at grid' r' c' =
             if decide (r' = r ∧ c' = c) then Some (Block k)
             else cell_at grid r' c'.
Proof.
  intros [Hlen Hrows] Hr Hc. unfold Board.store. rewrite Nat2Z.id.
  destruct (grid !! r) as [row|] eqn:Hrow.
  - assert (length row = 10%nat) as Hl.
    { rewrite Forall_forall in Hrows. apply Hrows.
      by eapply list_elem_of_lookup_2. }
    rewrite Hl.
    assert ((0 <=? Z.of_nat c) && (Z.of_nat c <? Z.of_nat 10) = true) as ->.
    { apply andb_true_iff. split; [apply Z.leb_le|apply Z.ltb_lt]; lia. }
    rewrite Nat2Z.id. eexists. split; [done|]. split.
    + split; [by rewrite length_insert|].
      apply Forall_insert; [done|]. by rewrite length_insert.
    + intros r' c'. apply cell_at_insert; [done|lia].
  - apply lookup_ge_None in Hrow. lia.
Qed.

Lemma row_hit_cons v rest i :
  row_hit (v :: rest) i =
  if i =? 0 then truthy v else row_hit rest (i - 1).
Proof.
  unfold row_hit. destruct (Z.eqb_spec i 0) as [->|Hi]; [done|].
  destruct (Z.leb_spec 0 i) as [H|H].
  - rewrite (proj2 (Z.leb_le 0 (i - 1))) by lia. simpl.
    by replace (Z.to_nat i) with (S (Z.to_nat (i - 1))) by lia.
  - by rewrite (proj2 (Z.leb_gt 0 (i - 1))) by lia.
Qed.

Lemma mat_hit_cons row rest j i :
  mat_hit (row :: rest) j i =
  if j =? 0 then row_hit row i else mat_hit rest (j - 1) i.
Proof.
  unfold mat_hit. destruct (Z.eqb_spec j 0) as [->|Hj]; [done|].
  destruct (Z.leb_spec 0 j) as [H|H].
  - rewrite (proj2 (Z.leb_le 0 (j - 1))) by lia. simpl.
    by replace (Z.to_nat j) with (S (Z.to_nat (j - 1))) by lia.
  - by rewrite (proj2 (Z.leb_gt 0 (j - 1))) by lia.
Qed.

Lemma merge_cells_content p (y : Z) : ∀ row (x0 : Z) grid,
  wf_grid grid →
  (∀ (i : nat) v, row !! i = Some v → v ≠ 0 →
     0 <= Piece.x p + (x0 + Z.of_nat i) < 10 ∧ Piece.y p + y < 20) →
  ∃ grid',
    Board.merge_cells grid p y row x0 = Ret grid' ∧ wf_grid grid' ∧
    ∀ r c : nat,
      cell_at grid' r c =
      if (Z.of_nat r =? Piece.y p + y) &&
         row_hit row (Z.of_nat c - Piece.x p - x0)
      then Some (Block (Piece.type p)) else cell_at grid r c.
Proof.
  induction row as [|v rest IH]; intros x0 grid Hwf Hb;
    cbn [Board.merge_cells].
  { exists grid. split; [done|]. split; [done|]. intros r c.
    unfold row_hit. rewrite lookup_nil. by rewrite !andb_false_r. }
  assert (Hrest : ∀ (i : nat) w, rest !! i = Some w → w ≠ 0 →
     0 <= Piece.x p + (x0 + 1 + Z.of_nat i) < 10 ∧ Piece.y p + y < 20).
  { intros i w Hi Hw. specialize (Hb (S i) w Hi Hw). lia. }
  assert (∃ grid1,
    (if truthy v && (Piece.y p + y >=? 0)
     then Board.store grid (Piece.y p + y) (Piece.x p + x0) (Piece.type p)
     else Ret grid) = Ret grid1 ∧ wf_grid grid1 ∧
    ∀ r c : nat, cell_at grid1 r c =
      if (Z.of_nat r =? Piece.y p + y) &&
         (Z.of_nat c - Piece.x p - x0 =? 0) && truthy v
      then Some (Block (Piece.type p)) else cell_at grid r c)
    as (grid1 & -> & Hwf1 & Hcell1).
  { destruct (truthy v) eqn:Hv; simpl.
    - destruct (Z.geb_spec (Piece.y p + y) 0) as [Hy|Hy].
      + apply truthy_true in Hv. specialize (Hb 0%nat v eq_refl Hv).
        destruct (store_cells grid (Z.to_nat (Piece.y p + y))
                    (Z.to_nat (Piece.x p + x0)) (Piece.type p) Hwf)
          as (grid1 & Hst & Hwf1 & Hc1); [lia|lia|].
        rewrite !Z2Nat.id in Hst by lia.
        exists grid1. split; [done|]. split; [done|].
        intros r c. rewrite Hc1. rewrite andb_true_r.
        destruct (Z.eqb_spec (Z.of_nat r) (Piece.y p + y)),
          (Z.eqb_spec (Z.of_nat c - Piece.x p - x0) 0); simpl;
          case_decide; (done || lia).
      + exists grid. split; [done|]. split; [done|]. intros r c.
        destruct (Z.eqb_spec (Z.of_nat r) (Piece.y p + y)); [lia|done].
    - exists grid. split; [done|]. split; [done|]. intros r c.
      by rewrite andb_false_r. }
  cbn [mbind outcome_bind].
  destruct (IH (x0 + 1) grid1 Hwf1 Hrest) as (grid' & -> & Hwf' & Hcell).
  exists grid'. split; [done|]. split; [done|]. intros r c.
  rewrite Hcell, Hcell1, row_hit_cons.
  replace (Z.of_nat c - Piece.x p - (x0 + 1))
    with (Z.of_nat c - Piece.x p - x0 - 1) by lia.
  destruct (Z.of_nat r =? Piece.y p + y); simpl; [|done].
  destruct (Z.eqb_spec (Z.of_nat c - Piece.x p - x0) 0) as [H0|H0]; simpl.
  - rewrite H0. unfold row_hit at 1. simpl. done.
  - by destruct (row_hit rest _).
Qed.

Lemma merge_rows_content p : ∀ mat (y0 : Z) grid,
  wf_grid grid →
  (∀ (j i : nat), filled_at mat j i →
     0 <= Piece.x p + Z.of_nat i < 10 ∧ Piece.y p + (y0 + Z.of_nat j) < 20) →
  ∃ grid',
    Board.merge_rows grid p mat y0 = Ret grid' ∧ wf_grid grid' ∧
    ∀ r c : nat,
      cell_at grid' r c =
      if mat_hit mat (Z.of_nat r - Piece.y p - y0) (Z.of_nat c - Piece.x p)
      then Some (Block (Piece.type p)) else cell_at grid r c.
Proof.
  induction mat as [|row rest IH]; intros y0 grid Hwf Hb;
    cbn [Board.merge_rows].
  { exists grid. split; [done|]. split; [done|]. intros r c.
    unfold mat_hit. rewrite lookup_nil. by rewrite andb_false_r. }
  destruct (merge_cells_content p y0 row 0 grid Hwf)
    as (grid1 & -> & Hwf1 & Hcell1).
  { intros i v Hi Hv. specialize (Hb 0%nat i).
    replace (y0 + Z.of_nat 0) with y0 in Hb by lia.
    replace (0 + Z.of_nat i) with (Z.of_nat i) by lia.
    apply Hb. by exists row, v. }
  cbn [mbind outcome_bind].
  destruct (IH (y0 + 1) grid1 Hwf1) as (grid' & -> & Hwf' & Hcell).
  { intros j i (r & v & Hj & Hi & Hv).
    replace (y0 + 1 + Z.of_nat j) with (y0 + Z.of_nat (S j)) by lia.
    apply Hb. by exists r, v. }
  exists grid'. split; [done|]. split; [done|]. intros r c.
  rewrite Hcell, Hcell1, mat_hit_cons.
  replace (Z.of_nat r - Piece.y p - (y0 + 1))
    with (Z.of_nat r - Piece.y p - y0 - 1) by lia.
  replace (Z.of_nat c - Piece.x p - 0) with (Z.of_nat c - Piece.x p) by lia.
  destruct (Z.eqb_spec (Z.of_nat r - Piece.y p - y0) 0) as [H0|H0].
  - destruct (Z.eqb_spec (Z.of_nat r) (Piece.y p + y0)); [|lia]. simpl.
    rewrite H0. unfold mat_hit at 1. simpl. done.
  - destruct (Z.eqb_spec (Z.of_nat r) (Piece.y p + y0)); [lia|]. simpl.
    by destruct (mat_hit rest _ _).
Qed.

Lemma merge_content grid p :
  wf_grid grid → in_bounds p 0 0 (Piece.matrix p) →
  ∃ grid',
    Board.merge grid p = Ret (grid', Game.lock p) ∧ wf_grid grid' ∧
    ∀ r c : nat,
      cell_at grid' r c =
      if covers p r c then Some (Block (Piece.type p)) else cell_at grid r c.
Proof.
  intros Hwf Hb. unfold Board.merge.
  destruct (merge_rows_content (Game.lock p) (Piece.matrix p) 0 grid Hwf)
    as (grid1 & Hm & Hwf1 & Hcell).
  { intros j i Hf. specialize (Hb j i Hf). simpl. lia. }
  exists grid1. split; [|split; [done|]].
  - unfold Game.lock in *. simpl. by rewrite Hm.
  - intros r c. rewrite Hcell. unfold covers. simpl.
    by replace (Z.of_nat r - Piece.y p - 0) with (Z.of_nat r - Piece.y p) by lia.
Qed.

(** X10. On a 20 by 10 grid, [merge] of a piece whose filled cells lie
    between the walls and above the floor completes, marks the piece
    locked, writes the piece's kind into exactly the board cells under its
    filled cells (those above the board are skipped) and leaves every
    other cell as it was. *)
Theorem merge_paints grid p :
  wf_grid grid → in_bounds p 0 0 (Piece.matrix p) →
  ∃ grid' p',
    Board.merge grid p = Ret (grid', p') ∧
    Piece.locked p' = true ∧ wf_grid grid' ∧
    ∀ r c : nat,
      cell_at grid' r c =
      if covers p r c then Some (Block (Piece.type p)) else cell_at grid r c.
Proof.
  intros Hwf Hb. destruct (merge_content grid p Hwf Hb) as (grid' & Hm & H).
  by exists grid', (Game.lock p).
Qed.

Lemma merge_paints_witness :
  wf_grid gap_grid ∧
  in_bounds (Game.current closing) 0 0 (Piece.matrix (Game.current closing)) ∧
  ∃ grid' p',
    Board.merge gap_grid (Game.current closing) = Ret (grid', p') ∧
    cell_at grid' 19 5 = Some (Block kO) ∧
    cell_at grid' 19 6 = Some (Block kI) ∧
    cell_at grid' 17 5 = Some Empty.
Proof.
  pose proof (lockable_grid _ closing_lockable) as H1.
  pose proof (lockable_piece _ closing_lockable) as H2.
  split; [exact H1|]. split; [exact H2|].
  destruct (merge_paints gap_grid (Game.current closing) H1 H2)
    as (grid' & p' & Hm & _ & _ & Hc).
  exists grid', p'. split; [exact Hm|].
  split; [exact (Hc 19%nat 5%nat)|].
  split; [exact (Hc 19%nat 6%nat)|exact (Hc 17%nat 5%nat)].
Defined.

(** ** Lock-down on a game in play *)

Lemma settled_after_clear grid :
  settled (replicate (length (full_rows grid)) empty_row ++ kept_rows grid).
Proof.
  apply Forall_forall. intros row Hin.
  destruct (Board.every row) eqn:Hrow; [|done].
  assert (row ∈ full_rows (replicate (length (full_rows grid)) empty_row ++
                           kept_rows grid)) as Hfull.
  { apply list_elem_of_In, List.filter_In. split; [|done].
    by apply list_elem_of_In. }
  rewrite full_rows_settled in Hfull. by apply elem_of_nil in Hfull.
Qed.

Lemma full_rows_none l : settled l → full_rows l = [].
Proof.
  unfold settled, full_rows. induction 1 as [|row l Hrow _ IH]; [done|].
  simpl. by rewrite Hrow.
Qed.

Lemma mat_hit_range mat j i : mat_hit mat j i = true → 0 <= j < Z.of_nat (length mat).
Proof.
  unfold mat_hit. destruct (Z.leb_spec 0 j); simpl; [|done].
  destruct (mat !! Z.to_nat j) eqn:Hl; [|done].
  apply lookup_lt_Some in Hl. lia.
Qed.

Lemma merge_row_kept grid grid' p (r : nat) :
  wf_grid grid → wf_grid grid' →
  (∀ r c : nat, cell_at grid' r c =
     if covers p r c then Some (Block (Piece.type p)) else cell_at grid r c) →
  ¬ (Piece.y p <= Z.of_nat r < Piece.y p + Z.of_nat (length (Piece.matrix p))) →
  grid' !! r = grid !! r.
Proof.
  intros [Hl Hrows] [Hl' Hrows'] Hcell Hout.
  destruct (decide (r < 20)%nat) as [Hr|Hr];
    [|by rewrite !lookup_ge_None_2 by lia].
  destruct (lookup_lt_is_Some_2 grid r ltac:(lia)) as [row Hrow].
  destruct (lookup_lt_is_Some_2 grid' r ltac:(lia)) as [row' Hrow'].
  rewrite Hrow, Hrow'. f_equal.
  assert (length row = 10%nat) as Hlr.
  { rewrite Forall_forall in Hrows. apply Hrows. by eapply list_elem_of_lookup_2. }
  assert (length row' = 10%nat) as Hlr'.
  { rewrite Forall_forall in Hrows'. apply Hrows'. by eapply list_elem_of_lookup_2. }
  apply list_eq. intros c. specialize (Hcell r c).
  unfold cell_at in Hcell. rewrite Hrow, Hrow' in Hcell. simpl in Hcell.
  rewrite Hcell. destruct (covers p r c) eqn:Hcov; [|done].
  apply mat_hit_range in Hcov. lia.
Qed.

Lemma filter_window {A} (f : A → bool) (l : list A) (a k : nat) :
  (∀ i x, l !! i = Some x → f x = true → (a ≤ i < a + k)%nat) →
  (length (List.filter f l) ≤ k)%nat.
Proof.
  intros Hin.
  rewrite <- (take_drop a l), List.filter_app.
  rewrite <- (take_drop k (drop a l)), List.filter_app, !length_app.
  assert (∀ l' : list A, Forall (λ x, f x = false) l' → List.filter f l' = [])
    as Hnil.
  { induction 1 as [|x l' Hx _ IH]; [done|]. simpl. by rewrite Hx. }
  rewrite (Hnil (take a l)), (Hnil (drop k (drop a l))).
  - simpl. rewrite Nat.add_0_r.
    etrans; [apply List.filter_length_le|]. rewrite length_take. lia.
  - apply Forall_lookup. intros i x Hi. rewrite !lookup_drop in Hi.
    destruct (f x) eqn:Hf; [|done]. specialize (Hin _ _ Hi Hf). lia.
  - apply Forall_lookup. intros i x Hi.
    destruct (f x) eqn:Hf; [|done].
    apply lookup_take_Some in Hi as [Hi Hlt]. specialize (Hin _ _ Hi Hf). lia.
Qed.

Lemma merge_full_rows grid grid' p :
  wf_grid grid → settled grid → wf_grid grid' →
  (∀ r c : nat, cell_at grid' r c =
     if covers p r c then Some (Block (Piece.type p)) else cell_at grid r c) →
  (length (full_rows grid') ≤ length (Piece.matrix p))%nat.
Proof.
  intros Hwf Hset Hwf' Hcell.
  apply (filter_window _ _ (Z.to_nat (Piece.y p))).
  intros r row Hrow Hfull.
  destruct (decide (Piece.y p <= Z.of_nat r <
                    Piece.y p + Z.of_nat (length (Piece.matrix p))))
    as [Hin|Hout]; [lia|].
  rewrite (merge_row_kept grid grid' p r Hwf Hwf' Hcell Hout) in Hrow.
  unfold settled in Hset. rewrite Forall_lookup in Hset.
  rewrite (Hset _ _ Hrow) in Hfull. done.
Qed.

Lemma tetros_cell k : ∃ y x, filled_at (TETROS k) y x.
Proof.
  destruct k;
    [exists 0%nat, 1%nat|exists 0%nat, 0%nat|exists 0%nat, 0%nat
    |exists 0%nat, 2%nat|exists 0%nat, 1%nat|exists 0%nat, 0%nat
    |exists 1%nat, 0%nat];
    eexists _, _; (split; [reflexivity|]); (split; [reflexivity|discriminate]).
Qed.

Lemma respawn_fresh p :
  Piece.matrix p = TETROS (Piece.type p) →
  in_bounds (respawn p) 0 0 (Piece.matrix (respawn p)) ∧
  square (Piece.matrix (respawn p)) ∧
  (length (Piece.matrix (respawn p)) ≤ 4)%nat ∧
  (∃ y x, filled_at (Piece.matrix (respawn p)) y x) ∧
  Piece.matrix (respawn p) = TETROS (Piece.type (respawn p)).
Proof.
  destruct p as [k m x y r l]. unfold respawn. simpl. intros ->.
  split; [|split; [|split; [|split; [apply tetros_cell|done]]]].
  - apply (collision_false_in_bounds Board.init). by destruct k.
  - destruct k; repeat constructor.
  - destruct k; simpl; lia.
Qed.

Section Play.

Variable rand : nat → Q.
Hypothesis Hrand : unit_range rand.

Lemma spawn_state g u p rest k pool u1 :
  Piece.locked (Game.current g) = true →
  Game.nextQ g = p :: rest →
  Bag.next rand (Game.bag g) u = Ret (k, pool, u1) →
  Game.spawnIfNeeded rand g u =
  Ret (let g1 :=
         Game.set_grounded false
           (Game.set_lockTimer 0%Q
              (Game.set_canHold true
                 (Game.set_nextQ (rest ++ [Piece.new k])
                    (Game.set_bag pool (Game.set_current (respawn p) g))))) in
       if Board.collision (Game.board g) (respawn p) 0 0 (Piece.matrix p)
       then Game.set_paused true (Game.set_over true g1) else g1, u1).
Proof.
  intros Hl Hq Hn. unfold Game.spawnIfNeeded. rewrite Hl, Hq.
  cbn [Game.bag Game.set_current]. rewrite Hn. cbn [mbind outcome_bind].
  destruct g; simpl in *. unfold respawn.
  by destruct (Board.collision _ _ 0 0 _).
Qed.

Lemma lockDown_state fuel g u :
  (40 < fuel)%nat → sound g →
  ∃ grid1 p q k pool u',
    let n := length (full_rows grid1) in
    let grid2 := replicate n empty_row ++ kept_rows grid1 in
    Board.merge (Game.board g) (Game.current g) =
      Ret (grid1, Game.lock (Game.current g)) ∧
    wf_grid grid1 ∧
    (n ≤ length (Piece.matrix (Game.current g)))%nat ∧
    Game.nextQ g = [p; q] ∧
    Bag.next rand (Game.bag g) u = Ret (k, pool, u') ∧
    ∃ g',
      Game.lockDown rand fuel g u = Ret (g', u') ∧
      Game.board g' = grid2 ∧ Game.current g' = respawn p ∧
      Game.nextQ g' = [q; Piece.new k] ∧ Game.bag g' = pool ∧
      Game.hold g' = Game.hold g ∧ Game.canHold g' = true ∧
      Game.grounded g' = false ∧ Game.lockTimer g' = 0%Q ∧
      Game.lines g' = Game.lines g + Z.of_nat n ∧
      Game.score g' = Game.score g + line_score n * Game.level g ∧
      Game.level g' = Z.max 1 (Game.lines g' / 10 + 1) ∧
      Game.dropInterval g' = Z.max 80 (1000 - (Game.level g' - 1) * 70) ∧
      Game.over g' =
        Game.over g || Board.collision grid2 (respawn p) 0 0 (Piece.matrix p).
Proof.
  intros Hfuel Hg.
  destruct (merge_content (Game.board g) (Game.current g))
    as (grid1 & Hm & Hwf1 & Hcell); [apply Hg..|].
  pose proof (merge_full_rows _ _ _ (sound_grid _ Hg) (sound_rows _ Hg)
                Hwf1 Hcell) as Hn.
  pose proof (clearLines_eq grid1 fuel (proj1 Hwf1) Hfuel) as Hc.
  pose proof (sound_queue _ Hg) as Hq.
  destruct (Game.nextQ g) as [|p [|q [|? ?]]] eqn:HnextQ; try done.
  destruct (next_total rand Hrand (Game.bag g) u) as (k & pool & u' & Hnext).
  exists grid1, p, q, k, pool, u'. cbn zeta.
  split; [done|]. split; [done|]. split; [done|]. split; [done|].
  split; [done|].
  set (n := length (full_rows grid1)) in *.
  unfold Game.lockDown. rewrite Hm. cbn [mbind outcome_bind].
  rewrite Hc. cbn [mbind outcome_bind].
  match goal with |- context [Game.spawnIfNeeded rand ?g0 u] =>
    set (g3 := g0) end.
  rewrite (spawn_state g3 u p [q] k pool u').
  - cbn [mbind outcome_bind]. eexists. split; [reflexivity|].
    assert (Htr : truthy (Z.of_nat n) = negb (n =? 0)%nat).
    { unfold truthy. by destruct n. }
    pose proof (sound_level _ Hg) as Hlv.
    pose proof (sound_interval _ Hg) as Hdi.
    unfold g3. clear g3. rewrite Htr.
    destruct (Nat.eqb_spec n 0) as [Hz|Hz]; cbn [negb].
    + rewrite Hz. destruct g; simpl in *.
      destruct (Board.collision _ _ 0 0 _); simpl;
        repeat split; try done; try lia;
        rewrite ?orb_true_r, ?orb_false_r; try done;
        rewrite Z.add_0_r; try done; by rewrite Hdi, Hlv.
    + rewrite Nat2Z.id. destruct g; simpl in *.
      destruct (Board.collision _ _ 0 0 _); simpl;
        repeat split; try done; rewrite ?orb_true_r, ?orb_false_r; done.
  - unfold g3. destruct (truthy (Z.of_nat n)); by destruct g.
  - unfold g3. destruct (truthy (Z.of_nat n)); destruct g; simpl in *; done.
  - unfold g3. destruct (truthy (Z.of_nat n)); by destruct g.
Qed.

Lemma wf_after_clear grid :
  wf_grid grid →
  wf_grid (replicate (length (full_rows grid)) empty_row ++ kept_rows grid).
Proof.
  intros [Hlen Hrows]. split.
  - by rewrite length_app, length_replicate, rows_partition.
  - apply Forall_app. split; [by apply Forall_replicate|].
    apply Forall_forall. intros row Hin. rewrite Forall_forall in Hrows.
    apply Hrows. apply list_elem_of_In in Hin. apply List.filter_In in Hin.
    apply list_elem_of_In. tauto.
Qed.

Lemma lockDown_sound fuel g u :
  (40 < fuel)%nat → sound g →
  ∃ g' u',
    Game.lockDown rand fuel g u = Ret (g', u') ∧ sound g' ∧
    Game.lines g <= Game.lines g' <= Game.lines g + 4 ∧
    Game.score g' =
      Game.score g +
      line_score (Z.to_nat (Game.lines g' - Game.lines g)) * Game.level g ∧
    Game.canHold g' = true ∧ Game.grounded g' = false ∧
    Game.lockTimer g' = 0%Q ∧ Game.hold g' = Game.hold g ∧
    (∃ p q k, Game.nextQ g = [p; q] ∧ Game.current g' = respawn p ∧
              Game.nextQ g' = [q; Piece.new k]) ∧
    Game.over g' =
      Game.over g ||
      Board.collision (Game.board g') (Game.current g') 0 0
        (Piece.matrix (Game.current g')).
Proof.
  intros Hfuel Hg.
  destruct (lockDown_state fuel g u Hfuel Hg)
    as (grid1 & p & q & k & pool & u' & Hm & Hwf1 & Hn & Hq & Hnext & g' &
        Hl & Hb & Hcur & Hq' & Hbag & Hhold & Hch & Hgr & Hlt & Hlines &
        Hscore & Hlevel & Hdi & Hover).
  pose proof (sound_fresh _ Hg) as Hfresh. rewrite Hq in Hfresh.
  apply Forall_cons in Hfresh as [Hp Hfresh].
  apply Forall_cons in Hfresh as [Hq0 _].
  destruct (respawn_fresh p Hp) as (Hin & Hsq & Hsz & Hcell & _).
  pose proof (sound_size _ Hg). pose proof (sound_lines _ Hg).
  exists g', u'. split; [done|]. split; [|split; [lia|]].
  - split; rewrite ?Hb, ?Hcur, ?Hq'; try done.
    + by apply wf_after_clear.
    + apply settled_after_clear.
    + intros Ho. unfold resting. rewrite Hb, Hcur. rewrite Hover in Ho.
      apply orb_false_iff in Ho as [_ Ho]. exact Ho.
    + by repeat constructor.
    + lia.
  - split.
    { rewrite Hscore, Hlines.
      by replace (Z.to_nat (Game.lines g + Z.of_nat (length (full_rows grid1)) -
                            Game.lines g))
        with (length (full_rows grid1)) by lia. }
    split; [done|]. split; [done|]. split; [done|]. split; [done|].
    split; [by exists p, q, k|].
    by rewrite Hover, Hb, Hcur.
Qed.

End Play.

(** X11. On a game in play [lockDown] completes and leaves a game in
    play.  At most 4 lines are added, so the score table is never read
    past its end, and the score grows by the table entry for the lines
    added times the level held before.  The head of the queue becomes the
    current piece at the spawn position, the queue is refilled to two,
    hold is allowed again, and the game is over afterwards exactly when
    it was before or the spawned piece collides. *)
Theorem lockDown_in_play rand fuel g u :
  unit_range rand → (40 < fuel)%nat → sound g →
  ∃ g' u',
    Game.lockDown rand fuel g u = Ret (g', u') ∧ sound g' ∧
    Game.lines g <= Game.lines g' <= Game.lines g + 4 ∧
    Game.score g' =
      Game.score g +
      line_score (Z.to_nat (Game.lines g' - Game.lines g)) * Game.level g ∧
    Game.canHold g' = true ∧ Game.grounded g' = false ∧
    Game.lockTimer g' = 0%Q ∧ Game.hold g' = Game.hold g ∧
    (∃ p q k, Game.nextQ g = [p; q] ∧ Game.current g' = respawn p ∧
              Game.nextQ g' = [q; Piece.new k]) ∧
    Game.over g' =
      Game.over g ||
      Board.collision (Game.board g') (Game.current g') 0 0
        (Piece.matrix (Game.current g')).
Proof. intros Hrand Hfuel Hg. by apply lockDown_sound. Qed.

(** ** Commands keep a game in play *)

Lemma sound_with_piece g g' :
  sound g →
  Game.board g' = Game.board g → Game.over g' = Game.over g →
  Game.nextQ g' = Game.nextQ g → Game.lines g' = Game.lines g →
  Game.level g' = Game.level g →
  Game.dropInterval g' = Game.dropInterval g →
  in_bounds (Game.current g') 0 0 (Piece.matrix (Game.current g')) →
  square (Piece.matrix (Game.current g')) →
  length (Piece.matrix (Game.current g')) =
    length (Piece.matrix (Game.current g)) →
  (∃ y x, filled_at (Piece.matrix (Game.current g')) y x) →
  (resting g → resting g') →
  sound g'.
Proof.
  intros Hg Hb Ho Hq Hl Hlv Hd Hin Hsq Hlen Hcell Hrest.
  split; rewrite ?Hb, ?Ho, ?Hq, ?Hl, ?Hlv, ?Hd, ?Hlen; try apply Hg; try done.
  intros Hover. apply Hrest. by apply Hg.
Qed.

Lemma in_bounds_moved p p' dx dy mat :
  Piece.x p' = Piece.x p + dx → Piece.y p' = Piece.y p + dy →
  in_bounds p dx dy mat → in_bounds p' 0 0 mat.
Proof.
  intros Hx Hy Hin y x Hf. specialize (Hin y x Hf). rewrite Hx, Hy. lia.
Qed.

Lemma move_sound g dx :
  sound g → sound (Game.move g dx) ∧ Game.score (Game.move g dx) = Game.score g.
Proof.
  intros Hg.
  assert (Game.score (Game.move g dx) = Game.score g) as Hs.
  { unfold Game.move.
    repeat match goal with |- context [if ?c then _ else _] => destruct c end;
      by destruct g. }
  split; [|done].
  pose proof (move_effect g dx) as Heff. unfold Game.move in *.
  destruct (Board.collision (Game.board g) (Game.current g) dx 0 _) eqn:Hc;
    cbn [negb] in *; [done|].
  set (g1 := Game.set_current (Game.translate (Game.current g) dx 0) g) in *.
  assert (in_bounds (Game.current g1) 0 0 (Piece.matrix (Game.current g1)))
    as Hin.
  { apply (in_bounds_moved (Game.current g) _ dx 0); [done..|].
    by apply (collision_false_in_bounds (Game.board g)). }
  match goal with |- context [if ?c then _ else _] => destruct c end;
    (eapply (sound_with_piece g); [done|by destruct g..| | | | | ]);
    try (by destruct g); try apply Hg;
    intros Hr; by destruct (Heff Hr) as (Hr' & _).
Qed.

Lemma softDrop_sound g :
  sound g →
  sound (Game.softDrop g).2 ∧
  Game.score g <= Game.score (Game.softDrop g).2 <= Game.score g + 1.
Proof.
  intros Hg. pose proof (softDrop_effect g) as Heff. cbn zeta in Heff.
  unfold Game.softDrop in *.
  destruct (Board.collision (Game.board g) (Game.current g) 0 1 _) eqn:Hc;
    cbn [negb fst snd] in *.
  - split; [|destruct g; simpl; lia].
    eapply (sound_with_piece g); try (by destruct g); apply Hg.
  - split; [|destruct g; simpl; lia].
    eapply (sound_with_piece g); try (by destruct g); try apply Hg.
    + change (in_bounds (Game.translate (Game.current g) 0 1) 0 0
                (Piece.matrix (Game.current g))).
      apply (in_bounds_moved (Game.current g) _ 0 1); [done..|].
      by apply (collision_false_in_bounds (Game.board g)).
    + intros Hr. by destruct (Heff Hr) as (_ & Hr' & _).
Qed.

Lemma rotated_cell m dir rotated :
  square m → rotateMatrix m dir = Ret rotated →
  (∃ y x, filled_at m y x) → ∃ y x, filled_at rotated y x.
Proof.
  intros Hsq Hr (y & x & row & v & Hy & Hx & Hv).
  destruct (rotateMatrix_content m dir Hsq) as (r & Hr' & _ & Hc).
  rewrite Hr in Hr'. injection Hr' as <-.
  specialize (Hc y x row v Hy Hx). unfold cell_at in Hc.
  destruct (rotated !! _) as [row'|] eqn:Hrow'; [|done]. simpl in Hc.
  by exists (turned_row dir (length m) x), (turned_col dir (length m) y),
    row', v.
Qed.

Lemma rotate_sound g dir :
  sound g →
  ∃ v g', Game.rotate g dir = Ret (v, g') ∧ sound g' ∧
          Game.score g' = Game.score g.
Proof.
  intros Hg. pose proof (sound_square _ Hg) as Hsq. unfold Game.rotate.
  destruct (decide (Piece.type (Game.current g) = kO)) as [HO|HO].
  { by exists Undefined, g. }
  destruct (rotateMatrix_content _ dir Hsq)
    as (rotated & Hr & [Hl Hrows] & _).
  rewrite Hr. cbn [mbind outcome_bind].
  match goal with |- context [Game.rotate_kicks g rotated ?t ?tb] =>
    destruct (rotate_kicks_effect g rotated t tb)
      as [->|(dx & dy & Hc & ->)] end.
  { by exists (Bool false), g. }
  eexists _, _. split; [reflexivity|].
  match goal with |- context [kicked g rotated ?t dx dy] =>
    destruct (kicked_fields g rotated t dx dy)
      as (Hb & Hcur & Hs & Ho & Hq & Hli & Hlv & Hd);
    pose proof (kicked_clear g rotated t dx dy Hc) as Hclear end.
  split; [|done].
  apply (sound_with_piece g _ Hg Hb Ho Hq Hli Hlv Hd);
    rewrite ?Hcur; cbn [Piece.matrix].
  - apply (in_bounds_moved (Game.current g) _ dx dy); [done|done|].
    by apply (collision_false_in_bounds (Game.board g)).
  - unfold square. by rewrite Hl.
  - done.
  - eapply rotated_cell; [exact Hsq|exact Hr|apply Hg].
  - intros _. exact Hclear.
Qed.

(** X12. On a game in play [move], [softDrop] and [rotate] complete and
    leave a game in play; [move] and [rotate] leave the score as it was
    and [softDrop] raises it by at most 1. *)
Theorem steering_in_play g dx dir :
  sound g →
  (sound (Game.move g dx) ∧ Game.score (Game.move g dx) = Game.score g) ∧
  (sound (Game.softDrop g).2 ∧
   Game.score g <= Game.score (Game.softDrop g).2 <= Game.score g + 1) ∧
  ∃ v g', Game.rotate g dir = Ret (v, g') ∧ sound g' ∧
          Game.score g' = Game.score g.
Proof.
  intros Hg. split; [by apply move_sound|].
  split; [by apply softDrop_sound|by apply rotate_sound].
Qed.

Section Commands.

Variable rand : nat → Q.
Hypothesis Hrand : unit_range rand.


Lemma hold_swap g u held :
  Game.canHold g = true → Game.hold g = Some held →
  Game.holdPiece rand g u =
  Ret (let g1 :=
         Game.set_current (respawn (Piece.new (Piece.type held)))
           (Game.set_hold (Some (Piece.new (Piece.type (Game.current g))))
              (Game.set_canHold false g)) in
       let g2 :=
         if Board.collision (Game.board g)
              (respawn (Piece.new (Piece.type held))) 0 0
              (TETROS (Piece.type held))
         then Game.set_paused true (Game.set_over true g1) else g1 in
       Game.set_grounded false (Game.set_lockTimer 0%Q g2), u).
Proof.
  intros Hc Hh. unfold Game.holdPiece. rewrite Hc. cbn [negb].
  replace (Game.hold (Game.set_canHold false g)) with (Some held)
    by (by destruct g).
  cbn [mbind outcome_bind]. destruct g; simpl in *. unfold respawn. simpl.
  by destruct (Board.collision _ _ 0 0 _).
Qed.

Lemma hold_first g u p rest k pool u1 :
  Game.canHold g = true → Game.hold g = None →
  Game.nextQ g = p :: rest →
  Bag.next rand (Game.bag g) u = Ret (k, pool, u1) →
  Game.holdPiece rand g u =
  Ret (let g1 :=
         Game.set_current (respawn p)
           (Game.set_nextQ (rest ++ [Piece.new k])
              (Game.set_bag pool
                 (Game.set_hold
                    (Some (Piece.new (Piece.type (Game.current g))))
                    (Game.set_canHold false g)))) in
       let g2 :=
         if Board.collision (Game.board g) (respawn p) 0 0 (Piece.matrix p)
         then Game.set_paused true (Game.set_over true g1) else g1 in
       Game.set_grounded false (Game.set_lockTimer 0%Q g2), u1).
Proof.
  intros Hc Hh Hq Hn. unfold Game.holdPiece. rewrite Hc. cbn [negb].
  replace (Game.hold (Game.set_canHold false g)) with (@None Piece.t)
    by (by destruct g).
  match goal with |- context [Game.nextQ ?g0] =>
    replace (Game.nextQ g0) with (p :: rest) by (by destruct g) end.
  match goal with |- context [Bag.next rand ?b u] =>
    replace b with (Game.bag g) by (by destruct g) end.
  rewrite Hn. cbn [mbind outcome_bind]. destruct g; simpl in *.
  unfold respawn. by destruct (Board.collision _ _ 0 0 _).
Qed.

Lemma holdPiece_sound g u :
  sound g →
  ∃ g' u',
    Game.holdPiece rand g u = Ret (g', u') ∧ sound g' ∧
    Game.board g' = Game.board g ∧ Game.score g' = Game.score g ∧
    Game.lines g' = Game.lines g ∧
    Game.holdPiece rand g' u' = Ret (g', u') ∧
    (Game.canHold g = false → g' = g ∧ u' = u) ∧
    (Game.canHold g = true →
       Game.canHold g' = false ∧
       Piece.type <$> Game.hold g' = Some (Piece.type (Game.current g)) ∧
       Game.current g' = respawn (Game.current g') ∧
       Piece.matrix (Game.current g') = TETROS (Piece.type (Game.current g')) ∧
       Game.over g' =
         Game.over g ||
         Board.collision (Game.board g') (Game.current g') 0 0
           (Piece.matrix (Game.current g')) ∧
       match Game.hold g with
       | Some held =>
           Piece.type (Game.current g') = Piece.type held ∧
           Game.nextQ g' = Game.nextQ g ∧ Game.bag g' = Game.bag g ∧ u' = u
       | None =>
           ∃ p q k, Game.nextQ g = [p; q] ∧ Game.current g' = respawn p ∧
                    Game.nextQ g' = [q; Piece.new k]
       end).
Proof.
  intros Hg.
  destruct (Game.canHold g) eqn:Hc; cycle 1.
  { exists g, u.
    assert (Game.holdPiece rand g u = Ret (g, u)) as Hno
      by (unfold Game.holdPiece; by rewrite Hc).
    rewrite Hno. repeat (split; [done|]). done. }
  assert (∀ g' u', Game.canHold g' = false →
            Game.holdPiece rand g' u' = Ret (g', u')) as Hagain.
  { intros g' u' Hc'. unfold Game.holdPiece. by rewrite Hc'. }
  destruct (Game.hold g) as [held|] eqn:Hh.
  - rewrite (hold_swap g u held Hc Hh). cbn zeta.
    destruct (respawn_fresh (Piece.new (Piece.type held)) eq_refl)
      as (Hin & Hsq & Hsz & Hcell & Hm).
    match goal with |- context [Ret (?g0, u)] => set (g' := g0) end.
    assert (Game.current g' = respawn (Piece.new (Piece.type held))) as Hcur.
    { unfold g'. destruct (Board.collision _ _ 0 0 _); by destruct g. }
    assert (Game.over g' =
            Game.over g ||
            Board.collision (Game.board g)
              (respawn (Piece.new (Piece.type held))) 0 0
              (TETROS (Piece.type held))) as Hover.
    { unfold g'. destruct (Board.collision _ _ 0 0 _); destruct g; simpl;
        by rewrite ?orb_true_r, ?orb_false_r. }
    assert (Game.board g' = Game.board g) as Hb.
    { unfold g'. destruct (Board.collision _ _ 0 0 _); by destruct g. }
    exists g', u. split; [done|]. split.
    { split; rewrite ?Hb, ?Hcur; try done; try apply Hg.
      - intros Ho. unfold resting. rewrite Hb, Hcur. rewrite Hover in Ho.
        apply orb_false_iff in Ho as [_ Ho]. exact Ho.
      - unfold g'. destruct (Board.collision _ _ 0 0 _); destruct g;
          apply Hg.
      - unfold g'. destruct (Board.collision _ _ 0 0 _); destruct g;
          apply Hg.
      - unfold g'. destruct (Board.collision _ _ 0 0 _); destruct g;
          apply Hg.
      - unfold g'. destruct (Board.collision _ _ 0 0 _); destruct g;
          apply Hg.
      - unfold g'. destruct (Board.collision _ _ 0 0 _); destruct g;
          apply Hg. }
    split; [done|].
    split; [unfold g'; destruct (Board.collision _ _ 0 0 _); by destruct g|].
    split; [unfold g'; destruct (Board.collision _ _ 0 0 _); by destruct g|].
    split.
    { apply Hagain. unfold g'.
      destruct (Board.collision _ _ 0 0 _); by destruct g. }
    split; [done|]. intros _.
    split; [unfold g'; destruct (Board.collision _ _ 0 0 _); by destruct g|].
    split; [unfold g'; destruct (Board.collision _ _ 0 0 _); by destruct g|].
    rewrite Hcur, Hb. split; [done|]. split; [done|]. split; [exact Hover|].
    split; [done|].
    split; [unfold g'; destruct (Board.collision _ _ 0 0 _); by destruct g|].
    split; [unfold g'; destruct (Board.collision _ _ 0 0 _); by destruct g|].
    done.
  - pose proof (sound_queue _ Hg) as Hq.
    destruct (Game.nextQ g) as [|p [|q [|? ?]]] eqn:HnextQ; try done.
    destruct (next_total rand Hrand (Game.bag g) u) as (k & pool & u' & Hnext).
    rewrite (hold_first g u p [q] k pool u' Hc Hh HnextQ Hnext). cbn zeta.
    pose proof (sound_fresh _ Hg) as Hfresh. rewrite HnextQ in Hfresh.
    apply Forall_cons in Hfresh as [Hp Hfresh].
    apply Forall_cons in Hfresh as [Hq0 _].
    destruct (respawn_fresh p Hp) as (Hin & Hsq & Hsz & Hcell & Hm).
    match goal with |- context [Ret (?g0, u')] => set (g' := g0) end.
    assert (Game.current g' = respawn p) as Hcur.
    { unfold g'. destruct (Board.collision _ _ 0 0 _); by destruct g. }
    assert (Game.over g' =
            Game.over g ||
            Board.collision (Game.board g) (respawn p) 0 0 (Piece.matrix p))
      as Hover.
    { unfold g'. destruct (Board.collision _ _ 0 0 _); destruct g; simpl;
        by rewrite ?orb_true_r, ?orb_false_r. }
    assert (Game.board g' = Game.board g) as Hb.
    { unfold g'. destruct (Board.collision _ _ 0 0 _); by destruct g. }
    assert (Game.nextQ g' = [q; Piece.new k]) as Hq'.
    { unfold g'. destruct (Board.collision _ _ 0 0 _); by destruct g. }
    exists g', u'. split; [done|]. split.
    { split; rewrite ?Hb, ?Hcur, ?Hq'; try done; try apply Hg.
      - intros Ho. unfold resting. rewrite Hb, Hcur. rewrite Hover in Ho.
        apply orb_false_iff in Ho as [_ Ho]. exact Ho.
      - by repeat constructor.
      - unfold g'. destruct (Board.collision _ _ 0 0 _); destruct g;
          apply Hg.
      - unfold g'. destruct (Board.collision _ _ 0 0 _); destruct g;
          apply Hg.
      - unfold g'. destruct (Board.collision _ _ 0 0 _); destruct g;
          apply Hg. }
    split; [done|].
    split; [unfold g'; destruct (Board.collision _ _ 0 0 _); by destruct g|].
    split; [unfold g'; destruct (Board.collision _ _ 0 0 _); by destruct g|].
    split.
    { apply Hagain. unfold g'.
      destruct (Board.collision _ _ 0 0 _); by destruct g. }
    split; [done|]. intros _.
    split; [unfold g'; destruct (Board.collision _ _ 0 0 _); by destruct g|].
    split; [unfold g'; destruct (Board.collision _ _ 0 0 _); by destruct g|].
    rewrite Hcur, Hb. split; [done|]. split; [done|]. split; [exact Hover|].
    by exists p, q, k.
Qed.

End Commands.

Lemma opening_sound k : sound (opening k).
Proof.
  destruct (respawn_fresh (Piece.new k) eq_refl)
    as (Hin & Hsq & Hsz & Hcell & _).
  split; try done.
  - split; [done|]. by apply Forall_replicate.
  - by apply Forall_replicate.
  - intros _. by destruct k.
  - by repeat constructor.
Defined.

Lemma closing_sound : sound closing.
Proof.
  split; try done.
  - apply closing_lockable.
  - unfold closing, gap_grid, gap_row. simpl. repeat constructor.
  - apply closing_lockable.
  - repeat constructor.
  - simpl. lia.
  - exists 0%nat, 0%nat, [1; 1], 1. repeat split. discriminate.
  - by repeat constructor.
Defined.

Lemma steering_in_play_witness :
  sound (opening kT) ∧
  sound (Game.move (opening kT) (-1)) ∧
  sound (Game.softDrop (opening kT)).2 ∧
  ∃ v g', Game.rotate (opening kT) 1 = Ret (v, g') ∧ sound g'.
Proof.
  split; [exact (opening_sound kT)|].
  destruct (steering_in_play (opening kT) (-1) 1 (opening_sound kT))
    as ((Hm & _) & (Hs & _) & v & g' & Hr & Hg' & _).
  split; [exact Hm|]. split; [exact Hs|].
  exists v, g'. split; [exact Hr|exact Hg'].
Defined.

Lemma lockDown_in_play_witness :
  unit_range halves ∧ (40 < 41)%nat ∧ sound closing ∧
  ∃ g' u', Game.lockDown halves 41 closing 0 = Ret (g', u') ∧ sound g' ∧
           Game.lines closing <= Game.lines g' <= Game.lines closing + 4.
Proof.
  split; [exact halves_in_range|]. split; [lia|]. split; [exact closing_sound|].
  destruct (lockDown_in_play halves 41 closing 0 halves_in_range ltac:(lia)
              closing_sound) as (g' & u' & Hl & Hs & Hn & _).
  exists g', u'. split; [exact Hl|]. split; [exact Hs|exact Hn].
Defined.



(** X14. On a game in play [holdPiece] completes and leaves a game in
    play with the board, score and lines untouched, and calling it again
    right away changes nothing.  When hold is not allowed nothing happens.
    When it is, hold is disallowed, the held slot takes the kind of the
    current piece, and the new current piece, a fresh piece at the spawn
    position, has the kind that was held (queue and bag untouched) or,
    when nothing was held, is the head of the queue, which is refilled;
    the game is over afterwards exactly when it was before or that piece
    collides. *)
Theorem holdPiece_in_play rand g u :
  unit_range rand → sound g →
  ∃ g' u',
    Game.holdPiece rand g u = Ret (g', u') ∧ sound g' ∧
    Game.board g' = Game.board g ∧ Game.score g' = Game.score g ∧
    Game.lines g' = Game.lines g ∧
    Game.holdPiece rand g' u' = Ret (g', u') ∧
    (Game.canHold g = false → g' = g ∧ u' = u) ∧
    (Game.canHold g = true →
       Game.canHold g' = false ∧
       Piece.type <$> Game.hold g' = Some (Piece.type (Game.current g)) ∧
       Game.current g' = respawn (Game.current g') ∧
       Piece.matrix (Game.current g') = TETROS (Piece.type (Game.current g')) ∧
       Game.over g' =
         Game.over g ||
         Board.collision (Game.board g') (Game.current g') 0 0
           (Piece.matrix (Game.current g')) ∧
       match Game.hold g with
       | Some held =>
           Piece.type (Game.current g') = Piece.type held ∧
           Game.nextQ g' = Game.nextQ g ∧ Game.bag g' = Game.bag g ∧ u' = u
       | None =>
           ∃ p q k, Game.nextQ g = [p; q] ∧ Game.current g' = respawn p ∧
                    Game.nextQ g' = [q; Piece.new k]
       end).
Proof. intros Hrand Hg. by apply holdPiece_sound. Qed.

Lemma holdPiece_in_play_witness :
  unit_range halves ∧ sound (opening kT) ∧
  ∃ g' u', Game.holdPiece halves (opening kT) 0 = Ret (g', u') ∧ sound g' ∧
           Piece.type <$> Game.hold g' = Some kT ∧
           Game.holdPiece halves g' u' = Ret (g', u').
Proof.
  split; [exact halves_in_range|]. split; [exact (opening_sound kT)|].
  destruct (holdPiece_in_play halves (opening kT) 0 halves_in_range
              (opening_sound kT))
    as (g' & u' & Hh & Hs & _ & _ & _ & Hagain & _ & Hyes).
  destruct (Hyes eq_refl) as (_ & Hheld & _).
  exists g', u'. split; [exact Hh|]. split; [exact Hs|].
  split; [exact Hheld|exact Hagain].
Defined.

(** X15. Swapping with the held piece twice, hold having been allowed
    again in between as [lockDown] does, brings back the kinds: the
    current piece has its original kind, the held slot the kind it held;
    no random value is drawn and board, score, queue and bag are
    untouched. *)
Theorem hold_swap_twice rand g u held :
  Game.canHold g = true → Game.hold g = Some held →
  ∃ g1 g2,
    Game.holdPiece rand g u = Ret (g1, u) ∧
    Game.holdPiece rand (Game.set_canHold true g1) u = Ret (g2, u) ∧
    Piece.type (Game.current g1) = Piece.type held ∧
    Piece.type <$> Game.hold g1 = Some (Piece.type (Game.current g)) ∧
    Piece.type (Game.current g2) = Piece.type (Game.current g) ∧
    Piece.type <$> Game.hold g2 = Some (Piece.type held) ∧
    Game.board g2 = Game.board g ∧ Game.score g2 = Game.score g ∧
    Game.nextQ g2 = Game.nextQ g ∧ Game.bag g2 = Game.bag g.
Proof.
  intros Hc Hh.
  pose proof (hold_swap rand g u held Hc Hh) as H1. cbn zeta in H1.
  match type of H1 with _ = Ret (?g0, u) => set (g1 := g0) in * end.
  assert (Game.hold (Game.set_canHold true g1) =
          Some (Piece.new (Piece.type (Game.current g)))) as Hh1.
  { unfold g1. destruct (Board.collision _ _ 0 0 _); by destruct g. }
  pose proof (hold_swap rand (Game.set_canHold true g1) u _ eq_refl Hh1)
    as H2. cbn zeta in H2.
  match type of H2 with _ = Ret (?g0, u) => set (g2 := g0) in * end.
  exists g1, g2. split; [exact H1|]. split; [exact H2|].
  assert (Piece.type (Game.current g1) = Piece.type held ∧
          Piece.type <$> Game.hold g1 = Some (Piece.type (Game.current g)) ∧
          Game.board g1 = Game.board g ∧ Game.score g1 = Game.score g ∧
          Game.nextQ g1 = Game.nextQ g ∧ Game.bag g1 = Game.bag g)
    as (Ht1 & Hd1 & Hb1 & Hs1 & Hq1 & Hg1).
  { unfold g1. destruct (Board.collision _ _ 0 0 _); by destruct g. }
  split; [done|]. split; [done|].
  rewrite <- Hb1, <- Hs1, <- Hq1, <- Hg1. clear H1 H2 Hh1. clearbody g1.
  unfold g2. destruct (Board.collision _ _ 0 0 _); destruct g1; simpl in *;
    by rewrite Ht1.
Qed.

Lemma hold_swap_twice_witness :
  Game.canHold (Game.set_hold (Some (Piece.new kI)) (opening kT)) = true ∧
  Game.hold (Game.set_hold (Some (Piece.new kI)) (opening kT)) =
    Some (Piece.new kI) ∧
  ∃ g1 g2,
    Game.holdPiece halves (Game.set_hold (Some (Piece.new kI)) (opening kT)) 0
      = Ret (g1, 0%nat) ∧
    Game.holdPiece halves (Game.set_canHold true g1) 0 = Ret (g2, 0%nat) ∧
    Piece.type (Game.current g1) = kI ∧ Piece.type (Game.current g2) = kT.
Proof.
  split; [reflexivity|]. split; [reflexivity|].
  destruct (hold_swap_twice halves
              (Game.set_hold (Some (Piece.new kI)) (opening kT)) 0
              (Piece.new kI) eq_refl eq_refl)
    as (g1 & g2 & H1 & H2 & Hc1 & _ & Hc2 & _).
  exists g1, g2. split; [exact H1|]. split; [exact H2|].
  split; [exact Hc1|exact Hc2].
Defined.

(** ** The bag over many draws, and the constructor *)

Lemma draw_app rand : ∀ n m pool t,
  Bag.draw rand (n + m) pool t =
  '(ks1, pool1, t1) ← Bag.draw rand n pool t;
  '(ks2, pool2, t2) ← Bag.draw rand m pool1 t1;
  Ret (ks1 ++ ks2, pool2, t2).
Proof.
  induction n as [|n IH]; intros m pool t; cbn [Bag.draw Nat.add].
  - cbn [mbind outcome_bind].
    by destruct (Bag.draw rand m pool t) as [[[ks2 pool2] t2]| | |].
  - destruct (Bag.next rand pool t) as [[[k pool1] t1]| | |];
      cbn [mbind outcome_bind]; try done.
    rewrite IH.
    destruct (Bag.draw rand n pool1 t1) as [[[ks1 pool2] t2]| | |];
      cbn [mbind outcome_bind]; try done.
    by destruct (Bag.draw rand m pool2 t2) as [[[ks2 pool3] t3]| | |].
Qed.

(** X16. For random values in [0, 1), [7 * k] calls of [next()] from an
    empty pool complete, leave the pool empty, and return [k] bags one
    after the other, each a permutation of the seven kinds; every kind
    is therefore returned exactly [k] times. *)
Theorem bag_sequence rand k t :
  unit_range rand →
  ∃ ks bags,
    Bag.draw rand (7 * k) [] t = Ret (ks, [], (t + 6 * k)%nat) ∧
    ks = concat bags ∧ length bags = k ∧
    Forall (λ bag, bag ≡ₚ [kS; kZ; kL; kJ; kT; kO; kI]) bags ∧
    ∀ kind, count_occ Kind_eq_dec ks kind = k.
Proof.
  intros Hrand. revert t. induction k as [|k IH]; intros t.
  { exists [], []. split; [simpl; do 2 f_equal; lia|]. by repeat split. }
  replace (7 * S k)%nat with (7 + 7 * k)%nat by lia. rewrite draw_app.
  destruct (draw_bag rand Hrand t) as (bag & -> & Hbag).
  cbn [mbind outcome_bind].
  destruct (IH (t + 6)%nat) as (ks & bags & -> & -> & Hlen & Hall & Hcount).
  cbn [mbind outcome_bind].
  exists (bag ++ concat bags), (bag :: bags).
  split; [do 2 f_equal; lia|]. split; [done|]. split; [simpl; lia|].
  split; [by constructor|].
  intros kind. rewrite count_occ_app, Hcount.
  rewrite (proj1 (Permutation_count_occ Kind_eq_dec _ _) Hbag kind).
  by destruct kind.
Qed.

Lemma bag_sequence_witness :
  unit_range halves ∧
  ∃ ks, Bag.draw halves (7 * 3) [] 0 = Ret (ks, [], (0 + 6 * 3)%nat) ∧
        ∀ kind, count_occ Kind_eq_dec ks kind = 3%nat.
Proof.
  split; [exact halves_in_range|].
  destruct (bag_sequence halves 3 0 halves_in_range)
    as (ks & bags & Hd & _ & _ & _ & Hc).
  exists ks. split; [exact Hd|exact Hc].
Defined.

(** X17. For random values in [0, 1) the constructor completes after six
    random draws with a game in play: an empty board, score and lines 0,
    level 1, interval 1000, nothing held, neither paused nor over.  The
    current piece and the two queued pieces are fresh pieces of three
    different kinds, which with the four kinds left in the bag make up
    the seven; the current piece is left at row 0, where [new Piece] puts
    it, since [spawnIfNeeded] only acts on a locked piece. *)
Theorem new_game rand u :
  unit_range rand →
  ∃ g a b c,
    Game.new rand u = Ret (g, (u + 6)%nat) ∧ sound g ∧
    Game.current g = Piece.new a ∧
    Game.nextQ g = [Piece.new b; Piece.new c] ∧
    [a; b; c] ++ Game.bag g ≡ₚ [kS; kZ; kL; kJ; kT; kO; kI] ∧
    NoDup [a; b; c] ∧
    Game.board g = Board.init ∧ Game.hold g = None ∧
    Game.canHold g = true ∧
    (Game.score g, Game.lines g, Game.level g, Game.dropInterval g)
      = (0, 0, 1, 1000) ∧
    Game.paused g = false ∧ Game.over g = false.
Proof.
  intros Hrand.
  destruct (shuffle_perm rand Hrand 6 Bag.fresh u) as (pool & Hs & Hp);
    [simpl; lia|].
  assert (length pool = 7%nat) as Hlen by (by rewrite Hp).
  destruct pool as [|a pool _] using rev_ind; [done|].
  destruct pool as [|b pool _] using rev_ind; [done|].
  destruct pool as [|c pool _] using rev_ind; [done|].
  unfold Game.new.
  rewrite (next_refill rand u _ _ Hs) by (by destruct pool).
  rewrite next_pop. cbn [mbind outcome_bind].
  rewrite next_pop. cbn [mbind outcome_bind].
  rewrite next_pop. cbn [mbind outcome_bind].
  unfold Game.spawnIfNeeded. cbn [Game.current Piece.new Piece.locked].
  eexists _, a, b, c. split; [reflexivity|].
  assert ([a; b; c] ++ pool ≡ₚ Bag.fresh) as Hperm.
  { rewrite <- Hp. rewrite <- !app_assoc. simpl.
    rewrite (Permutation_app_comm pool [c; b; a]). simpl.
    change ([a; b; c] ++ pool ≡ₚ [c; b; a] ++ pool).
    apply Permutation_app_tail. apply (Permutation_rev [a; b; c]). }
  split.
  { destruct (respawn_fresh (Piece.new a) eq_refl)
      as (_ & Hsq & Hsz & Hcell & _).
    split; cbn; try done.
    - split; [done|]. by apply Forall_replicate.
    - by apply Forall_replicate.
    - apply (collision_false_in_bounds Board.init). by destruct a.
    - intros _. unfold resting. cbn. by destruct a.
    - by repeat constructor. }
  split; [done|]. split; [done|]. split; [exact Hperm|].
  split; [|done].
  assert (NoDup ([a; b; c] ++ pool)) as Hnd.
  { rewrite Hperm. by apply (bool_decide_unpack (NoDup Bag.fresh)). }
  by apply NoDup_app in Hnd as [Hnd _].
Qed.

Lemma new_game_witness :
  unit_range halves ∧
  ∃ g a b c, Game.new halves 0 = Ret (g, (0 + 6)%nat) ∧ sound g ∧
             Game.current g = Piece.new a ∧
             Game.nextQ g = [Piece.new b; Piece.new c] ∧ NoDup [a; b; c].
Proof.
  split; [exact halves_in_range|].
  destruct (new_game halves 0 halves_in_range)
    as (g & a & b & c & Hn & Hs & Hc & Hq & _ & Hnd & _).
  exists g, a, b, c. split; [exact Hn|]. split; [exact Hs|].
  split; [exact Hc|]. split; [exact Hq|exact Hnd].
Defined.

(** ** A frame of [update] on a game in play *)

Lemma sound_frame g g' :
  sound g →
  Game.board g' = Game.board g → Game.current g' = Game.current g →
  Game.over g' = Game.over g → Game.nextQ g' = Game.nextQ g →
  Game.lines g' = Game.lines g → Game.level g' = Game.level g →
  Game.dropInterval g' = Game.dropInterval g →
  sound g'.
Proof.
  intros Hg Hb Hc Ho Hq Hl Hlv Hd.
  apply (sound_with_piece g); rewrite ?Hc; try done; try apply Hg.
  unfold resting. by rewrite Hb, Hc.
Qed.

Lemma update_timers_sound g delta :
  sound g →
  sound (Game.update_timers g delta) ∧
  Game.score (Game.update_timers g delta) = Game.score g ∧
  Game.lines (Game.update_timers g delta) = Game.lines g ∧
  Game.arrTimer (Game.update_timers g delta) = Game.arrTimer g.
Proof.
  intros Hg. unfold Game.update_timers.
  repeat match goal with |- context [if ?c then _ else _] => destruct c end;
    (split; [apply (sound_frame g); by destruct g|by destruct g]).
Qed.

Lemma update_gravity_sound g :
  sound g →
  sound (Game.update_gravity g) ∧
  Game.score g <= Game.score (Game.update_gravity g) <= Game.score g + 1 ∧
  Game.lines (Game.update_gravity g) = Game.lines g ∧
  Game.arrTimer (Game.update_gravity g) = Game.arrTimer g.
Proof.
  intros Hg. unfold Game.update_gravity.
  destruct (Qge_bool _ _); [|split; [done|]; split; [lia|done]].
  assert (sound (Game.set_elapsed 0%Q g)) as Hg0
    by (apply (sound_frame g); by destruct g).
  destruct (softDrop_sound _ Hg0) as [Hs Hscore].
  assert (Game.lines (Game.softDrop (Game.set_elapsed 0%Q g)).2 = Game.lines g ∧
          Game.arrTimer (Game.softDrop (Game.set_elapsed 0%Q g)).2 =
            Game.arrTimer g) as [Hl Ha].
  { unfold Game.softDrop. destruct (Board.collision _ _ 0 1 _); by destruct g. }
  replace (Game.score (Game.set_elapsed 0%Q g)) with (Game.score g) in Hscore
    by (by destruct g).
  destruct (Game.softDrop (Game.set_elapsed 0%Q g)) as [moved g1].
  cbn [fst snd] in *. destruct moved; cbn [negb]; [done|].
  split; [apply (sound_frame g1); by destruct g1|].
  by destruct g1.
Qed.

(** *** Rounding to binary64 *)

Lemma rne_near y :
  (y - (1 # 2) <= inject_Z (rne y) <= y + (1 # 2))%Q.
Proof.
  unfold rne. pose proof (Qfloor_le y) as Hlo. pose proof (Qlt_floor y) as Hhi.
  rewrite inject_Z_plus in Hhi. change (inject_Z 1) with 1%Q in Hhi.
  destruct (Qcompare_spec (y - inject_Z (Qfloor y)) (1 # 2)) as [He|Hl|Hg].
  - assert (y - inject_Z (Qfloor y) <= 1 # 2)%Q as H1
      by (rewrite He; apply Qle_refl).
    assert (1 # 2 <= y - inject_Z (Qfloor y))%Q as H2
      by (rewrite He; apply Qle_refl).
    destruct (Z.even _); rewrite ?inject_Z_plus;
      change (inject_Z 1) with 1%Q;
      set (f := inject_Z (Qfloor y)) in *; clearbody f; split; lra.
  - set (f := inject_Z (Qfloor y)) in *. clearbody f. split; lra.
  - rewrite inject_Z_plus. change (inject_Z 1) with 1%Q.
    set (f := inject_Z (Qfloor y)) in *. clearbody f. split; lra.
Qed.

Lemma Qlog2_small x :
  (Qabs x < inject_Z (2 ^ 53))%Q → Qlog2 x <= 52.
Proof.
  intros Hx. unfold Qlog2.
  assert (Z.log2 (Z.abs (Qnum x)) - Z.log2 (Z.pos (Qden x)) <= 53) as Hk.
  { destruct x as [n d]. unfold Qabs, Qlt, inject_Z in Hx.
    cbn [Qnum Qden] in Hx |- *. rewrite Z.mul_1_r in Hx.
    pose proof (Z.log2_le_mono (Z.abs n) (Z.pos d * 2 ^ 53) ltac:(lia)) as H.
    rewrite Z.log2_mul_pow2 in H by lia. lia. }
  destruct (Qle_bool _ _) eqn:E; [|lia].
  apply Qle_bool_iff in E.
  assert (Qpower 2 (Z.log2 (Z.abs (Qnum x)) - Z.log2 (Z.pos (Qden x)))
          < Qpower 2 53)%Q as Hlt.
  { eapply Qle_lt_trans; [exact E|]. eapply Qlt_le_trans; [exact Hx|].
    by vm_compute. }
  apply Qpower_lt_compat_l_inv in Hlt; [lia|reflexivity].
Qed.

(** Below 2^53 the unit in the last place is at most 1, so rounding moves
    a value by at most one half. *)
Lemma round64_near x :
  (Qabs x < inject_Z (2 ^ 53))%Q →
  (x - (1 # 2) <= round64 x <= x + (1 # 2))%Q.
Proof.
  intros Hx. unfold round64.
  destruct (Qeq_bool x 0) eqn:E.
  { apply Qeq_bool_iff in E. split; lra. }
  cbn zeta. rewrite Qred_correct.
  set (e := Z.max (-1074) (Qlog2 x - 52)).
  assert (e <= 0) as He by (pose proof (Qlog2_small x Hx); lia).
  assert (0 < Qpower 2 e)%Q as Hp0 by (by apply Qpower_0_lt).
  assert (Qpower 2 e <= 1)%Q as Hp1.
  { change 1%Q with (Qpower 2 0). by apply Qpower_le_compat_l. }
  set (p := Qpower 2 e) in *. clearbody p.
  pose proof (rne_near (x / p)) as Hr.
  set (m := inject_Z (rne (x / p))) in *. clearbody m.
  assert (x == (x / p) * p)%Q as Hxp.
  { rewrite Qmult_comm, Qmult_div_r; [reflexivity|lra]. }
  set (y := (x / p)%Q) in *. clearbody y.
  nra.
Qed.

(** What the rounding does to the timer of the auto-repeat loop: exact on
    small values, a step of 32 instead of 40 below 2^57, no step at all at
    10^18. *)
Lemma round64_steps :
  round64 (100 - ARR) = 60%Q ∧
  round64 (inject_Z (2 ^ 57) - ARR) = inject_Z (2 ^ 57 - 32) ∧
  round64 (inject_Z (10 ^ 18) - ARR) = inject_Z (10 ^ 18).
Proof. split; [|split]; vm_compute; reflexivity. Qed.

(** With the timer at 10^18 the loop never ends: every pass leaves the
    timer where it was. *)
Lemma update_repeat_absorbed dir : ∀ (fuel : nat) g,
  Game.arrTimer g = inject_Z (10 ^ 18) →
  Game.update_repeat fuel g dir = OutOfFuel.
Proof.
  induction fuel as [|fuel IH]; intros g Ha; cbn [Game.update_repeat];
    [done|].
  assert (Game.arrTimer (Game.move g dir) = inject_Z (10 ^ 18)) as Hm.
  { rewrite <- Ha. unfold Game.move.
    repeat match goal with |- context [if ?c then _ else _] => destruct c end;
      by destruct g. }
  rewrite Ha. change (Qge_bool (inject_Z (10 ^ 18)) ARR) with true.
  cbn match. apply IH. rewrite Hm.
  destruct (Game.move g dir). cbn [Game.set_arrTimer Game.arrTimer].
  apply round64_steps.
Qed.

(** *** The auto-repeat loop *)

Lemma update_repeat_sound dir : ∀ (fuel : nat) g,
  sound g →
  (Game.arrTimer g < 40 + inject_Z (Z.of_nat fuel) * 39)%Q →
  (Game.arrTimer g < inject_Z (2 ^ 53) + 40)%Q →
  ∃ g', Game.update_repeat (S fuel) g dir = Ret g' ∧ sound g' ∧
        Game.score g' = Game.score g ∧ Game.lines g' = Game.lines g.
Proof.
  assert (0 < inject_Z (2 ^ 53))%Q as Hpos by reflexivity.
  induction fuel as [|fuel IH]; intros g Hg Harr Hbig;
    cbn [Game.update_repeat]; unfold Qge_bool.
  - destruct (Qle_bool ARR (Game.arrTimer g)) eqn:E; [|by exists g].
    apply Qle_bool_iff in E. unfold ARR in *.
    change (inject_Z (Z.of_nat 0)) with 0%Q in Harr. lra.
  - destruct (Qle_bool ARR (Game.arrTimer g)) eqn:E; [|by exists g].
    apply Qle_bool_iff in E.
    destruct (move_sound g dir Hg) as [Hm Hs].
    assert (Game.arrTimer (Game.move g dir) = Game.arrTimer g ∧
            Game.lines (Game.move g dir) = Game.lines g) as [Ha Hl].
    { unfold Game.move.
      repeat match goal with |- context [if ?c then _ else _] => destruct c end;
        by destruct g. }
    set (g1 := Game.set_arrTimer _ (Game.move g dir)).
    assert (Game.arrTimer g1 = round64 (Game.arrTimer g - ARR)) as Ha1.
    { unfold g1. rewrite Ha. by destruct (Game.move g dir). }
    assert (Qabs (Game.arrTimer g - ARR) < inject_Z (2 ^ 53))%Q as Hin.
    { apply Qabs_Qlt_condition. set (B := inject_Z (2 ^ 53)) in *.
      clearbody B. unfold ARR in *. split; lra. }
    pose proof (round64_near _ Hin) as [_ Hnear].
    destruct (IH g1) as (g' & Hrun & Hg' & Hs' & Hl').
    + apply (sound_frame (Game.move g dir)); [done|..]; unfold g1;
        by destruct (Game.move g dir).
    + rewrite Ha1. rewrite Nat2Z.inj_succ in Harr. unfold Z.succ in Harr.
      rewrite inject_Z_plus in Harr. change (inject_Z 1) with 1%Q in Harr.
      set (q := inject_Z (Z.of_nat fuel)) in *. clearbody q.
      set (r := round64 _) in *. clearbody r. unfold ARR in *. lra.
    + rewrite Ha1. set (B := inject_Z (2 ^ 53)) in *. clearbody B.
      set (r := round64 _) in *. clearbody r. unfold ARR in *. lra.
    + exists g'. split; [exact Hrun|]. split; [done|].
      rewrite Hs', Hl'. unfold g1. rewrite <- Hs, <- Hl.
      by destruct (Game.move g dir).
Qed.

Lemma update_shift_sound fuel inp g delta :
  sound g →
  (Qabs (Game.arrTimer g + delta) < inject_Z (2 ^ 53))%Q →
  (Game.arrTimer g + delta < inject_Z (Z.of_nat fuel) * 39)%Q →
  ∃ g', Game.update_shift (S fuel) inp g delta = Ret g' ∧ sound g' ∧
        Game.score g' = Game.score g ∧ Game.lines g' = Game.lines g.
Proof.
  intros Hg Hin Harr. unfold Game.update_shift. cbn zeta.
  set (dir := (if left inp then -1 else 0) + (if right inp then 1 else 0)).
  destruct (negb (dir =? 0)).
  - destruct (negb (Game.lastDir g =? dir)).
    + set (g1 := Game.set_arrTimer _ _).
      assert (sound g1) as Hg1
        by (apply (sound_frame g); by destruct g).
      destruct (move_sound g1 dir Hg1) as [Hm Hs].
      exists (Game.move g1 dir). split; [done|]. split; [done|].
      split; [rewrite Hs; by destruct g|].
      unfold Game.move.
      repeat match goal with |- context [if ?c then _ else _] => destruct c end;
        by destruct g.
    + destruct (Qge_bool _ DAS).
      * set (g1 := Game.set_arrTimer _ _).
        assert (Game.arrTimer g1 = round64 (Game.arrTimer g + delta)) as Ha1
          by (by destruct g).
        pose proof (round64_near _ Hin) as [_ Hnear].
        apply Qabs_Qlt_condition in Hin as [_ Hup].
        destruct (update_repeat_sound dir fuel g1)
          as (g' & Hrun & Hg' & Hs' & Hl').
        -- apply (sound_frame g); by destruct g.
        -- rewrite Ha1. set (q := inject_Z (Z.of_nat fuel)) in *. clearbody q.
           set (r := round64 _) in *. clearbody r. lra.
        -- rewrite Ha1. set (B := inject_Z (2 ^ 53)) in *. clearbody B.
           set (r := round64 _) in *. clearbody r. lra.
        -- exists g'. split; [done|]. split; [done|].
           rewrite Hs', Hl'. by destruct g.
      * eexists. split; [done|].
        split; [apply (sound_frame g); by destruct g|by destruct g].
  - eexists. split; [done|].
    split; [apply (sound_frame g); by destruct g|by destruct g].
Qed.

Section Frame.

Variable rand : nat → Q.
Hypothesis Hrand : unit_range rand.

Lemma update_lock_sound fuel g delta u :
  sound g → (40 < fuel)%nat →
  ∃ g' u', Game.update_lock rand fuel g delta u = Ret (g', u') ∧ sound g' ∧
           Game.score g <= Game.score g' ∧
           Game.lines g <= Game.lines g' <= Game.lines g + 4.
Proof.
  intros Hg Hfuel. unfold Game.update_lock.
  destruct (Game.grounded g);
    [|exists g, u; split; [done|]; split; [done|]; lia].
  cbn zeta. set (g1 := Game.set_lockTimer _ g).
  assert (sound g1) as Hg1 by (apply (sound_frame g); by destruct g).
  destruct (negb (Board.collision _ _ 0 1 _)).
  { eexists _, _. split; [done|].
    split; [apply (sound_frame g); by destruct g|]. destruct g; simpl; lia. }
  destruct (Qge_bool _ _).
  - set (g2 := Game.set_grounded false _).
    assert (sound g2) as Hg2 by (apply (sound_frame g); by destruct g).
    destruct (lockDown_sound rand Hrand fuel g2 u Hfuel Hg2)
      as (g' & u' & Hl & Hg' & Hlines & Hscore & _).
    exists g', u'. split; [done|]. split; [done|].
    replace (Game.lines g2) with (Game.lines g) in * by (by destruct g).
    replace (Game.score g2) with (Game.score g) in * by (by destruct g).
    replace (Game.level g2) with (Game.level g) in * by (by destruct g).
    split; [|done]. rewrite Hscore.
    pose proof (line_score_nonneg (Z.to_nat (Game.lines g' - Game.lines g))).
    pose proof (sound_level _ Hg). nia.
  - exists g1, u. split; [done|]. split; [done|]. destruct g; simpl; lia.
Qed.

Lemma update_sound fuel inp g delta u :
  sound g → (40 < fuel)%nat →
  (Qabs (Game.arrTimer g + delta) < inject_Z (2 ^ 53))%Q →
  (Game.arrTimer g + delta < inject_Z (Z.of_nat fuel) * 39)%Q →
  ∃ g' u',
    Game.update rand (S fuel) inp g delta u = Ret (g', u') ∧ sound g' ∧
    Game.score g <= Game.score g' ∧
    Game.lines g <= Game.lines g' <= Game.lines g + 4 ∧
    (Game.paused g || Game.over g = true → g' = g ∧ u' = u).
Proof.
  intros Hg Hfuel Hin Harr. unfold Game.update.
  destruct (Game.paused g || Game.over g).
  { exists g, u. split; [done|]. split; [done|]. split; [lia|]. split; [lia|done]. }
  cbn zeta.
  destruct (update_timers_sound g delta Hg) as (Hg1 & Hs1 & Hl1 & Ha1).
  destruct (update_gravity_sound _ Hg1) as (Hg2 & Hs2 & Hl2 & Ha2).
  destruct (update_shift_sound fuel inp _ delta Hg2)
    as (g3 & -> & Hg3 & Hs3 & Hl3).
  { by rewrite Ha2, Ha1. }
  { by rewrite Ha2, Ha1. }
  cbn [mbind outcome_bind].
  destruct (update_lock_sound (S fuel) g3 delta u Hg3 ltac:(lia))
    as (g' & u' & Hrun & Hg' & Hs' & Hl').
  exists g', u'. split; [done|]. split; [done|].
  rewrite Hs3, Hl3, Hl2, Hl1 in *. rewrite Hs1 in Hs2.
  split; [lia|]. split; [done|]. done.
Qed.

End Frame.

Lemma repeating_sound : sound repeating.
Proof. apply (sound_frame (opening kT)); [exact (opening_sound kT)|done..]. Defined.

(** X18. On a game in play, a frame of [update] whose auto-repeat timer
    stays below 2^53 ms, where binary64 steps are at most 1, completes on
    fuel above 40 and above a 39th of that timer, and leaves a game in
    play; it never lowers the score, adds at most 4 lines, and does
    nothing at all when the game is paused or over. *)
Theorem update_in_play rand fuel inp g delta u :
  unit_range rand → sound g → (40 < fuel)%nat →
  (Qabs (Game.arrTimer g + delta) < inject_Z (2 ^ 53))%Q →
  (Game.arrTimer g + delta < inject_Z (Z.of_nat fuel) * 39)%Q →
  ∃ g' u',
    Game.update rand (S fuel) inp g delta u = Ret (g', u') ∧ sound g' ∧
    Game.score g <= Game.score g' ∧
    Game.lines g <= Game.lines g' <= Game.lines g + 4 ∧
    (Game.paused g || Game.over g = true → g' = g ∧ u' = u).
Proof. intros Hrand Hg Hfuel Hin Harr. by apply update_sound. Qed.

Lemma update_in_play_witness :
  unit_range halves ∧ sound repeating ∧ (40 < 41)%nat ∧
  (Qabs (Game.arrTimer repeating + 100) < inject_Z (2 ^ 53))%Q ∧
  (Game.arrTimer repeating + 100 < inject_Z (Z.of_nat 41) * 39)%Q ∧
  ∃ g' u',
    Game.update halves 42 {| left := true; right := false; down := false |}
      repeating 100 0 = Ret (g', u') ∧ sound g' ∧
    Piece.x (Game.current g') = 1 ∧ Game.arrTimer g' = 20%Q.
Proof.
  assert (Qabs (Game.arrTimer repeating + 100) < inject_Z (2 ^ 53))%Q
    as Hin by reflexivity.
  assert (Game.arrTimer repeating + 100 < inject_Z (Z.of_nat 41) * 39)%Q
    as Harr by reflexivity.
  split; [exact halves_in_range|]. split; [exact repeating_sound|].
  split; [lia|]. split; [exact Hin|]. split; [exact Harr|].
  destruct (update_in_play halves 41
              {| left := true; right := false; down := false |}
              repeating 100 0 halves_in_range repeating_sound
              ltac:(lia) Hin Harr) as (g' & u' & Hu & Hs & _).
  exists g', u'. split; [exact Hu|]. split; [exact Hs|].
  vm_compute in Hu. injection Hu as <- _. split; reflexivity.
Defined.
